(** * chromium-bidi mapper: BiDi transport, realms, input ticks and target
    lifecycle, embedded from the TypeScript sources.

    - [JS]: the JavaScript values the code handles as [any] (the trees that
      [JSON.parse] returns), with the property operations the sources use.
    - [BidiTab]: [WindowBidiTransport] of [bidiTab.ts].
    - [Cdp], [Context]: the CDP commands sent and the context storage.
    - [RealmModel]: [Realm] of [realm.ts].
    - [InputModel], [ProcessorModel]: [BrowsingContextProcessor].
    - [BidiTabFacts], [JSFacts], [RealmFacts], [InputFacts],
      [ProcessorFacts]: what is proved of them. *)

From Stdlib Require Import QArith.
From stdpp Require Import gmap strings list fin_maps pretty.

Set Warnings "-register-all".

Open Scope Z_scope.
Open Scope string_scope.
Open Scope list_scope.
Open Scope nat_scope.

(** ** JavaScript values *)

Module JS.

(** A JavaScript Number. Every finite double is a rational; [JSON.parse]
    also yields the infinities (for [1e999]), never [NaN]. *)
Inductive number :=
| Finite (q : Q)
| Infinite (negative : bool).

(** The values [JSON.parse] returns. An object is the list of its own
    properties in insertion order; a property read finds the first. *)
Inductive value :=
| JNull
| JBool (b : bool)
| JNum (n : number)
| JStr (s : string)
| JArr (items : list value)
| JObj (props : list (string * value)).

Definition object := list (string * value).

(** [Number.isInteger(n)] *)
Definition Number_isInteger (n : number) : bool :=
  match n with
  | Finite q => (Qnum q mod Z.pos (Qden q) =? 0)%Z
  | Infinite _ => false
  end.

(** [n < 0] *)
Definition Number_ltZero (n : number) : bool :=
  match n with
  | Finite q => (Qnum q <? 0)%Z
  | Infinite negative => negative
  end.

(** [o[k]]: [None] is [undefined]. *)
Fixpoint get (k : string) (o : object) : option value :=
  match o with
  | [] => None
  | (k', v) :: o' => if String.eqb k' k then Some v else get k o'
  end.

(** [k in o] for an object built by [JSON.parse] ([Object.prototype] has
    none of the keys the sources ask for). *)
Definition has (k : string) (o : object) : bool :=
  match get k o with Some _ => true | None => false end.

(** [o[k] = v]: an existing property keeps its place, a new one goes last. *)
Fixpoint set (k : string) (v : value) (o : object) : object :=
  match o with
  | [] => [(k, v)]
  | (k', v') :: o' =>
      if String.eqb k' k then (k', v) :: o' else (k', v') :: set k v o'
  end.

(** [delete o[k]] *)
Fixpoint remove (k : string) (o : object) : object :=
  match o with
  | [] => []
  | (k', v') :: o' =>
      if String.eqb k' k then remove k o' else (k', v') :: remove k o'
  end.

(** What is thrown. [OutOfFuel] is no JavaScript exception: it is the
    recursion bound of a definition by fuel running out, which the entry
    points, giving fuel enough, never reach. *)
Inductive exn :=
| TypeError
| InvalidArgumentException (message : string)
| NoSuchFrameException (message : string)
| CdpError (code : Z) (message : string)
| Disconnected (message : string)
| OutOfFuel.

(** What a call yields: a value, or an exception thrown. *)
Inductive outcome (A : Type) :=
| Ok (a : A)
| Throw (e : exn).
Arguments Ok {A} a.
Arguments Throw {A} e.

#[export] Instance outcome_ret : MRet outcome := fun A a => Ok a.
#[export] Instance outcome_bind : MBind outcome := fun A B f m =>
  match m with
  | Ok a => f a
  | Throw e => Throw e
  end.
#[export] Instance outcome_fmap : FMap outcome := fun A B f m =>
  match m with
  | Ok a => Ok (f a)
  | Throw e => Throw e
  end.

(** A loop body run over the elements of an array, first to last. *)
Fixpoint forEach {A B} (f : A -> outcome B) (l : list A)
  : outcome (list B) :=
  match l with
  | [] => Ok []
  | x :: l' => y ← f x; l'' ← forEach f l'; Ok (y :: l'')
  end.

(** The same over the property values of an object. *)
Fixpoint forEachProp (f : value -> outcome value) (o : object)
  : outcome object :=
  match o with
  | [] => Ok []
  | (k, x) :: o' => y ← f x; o'' ← forEachProp f o'; Ok ((k, y) :: o'')
  end.

(** [Object.hasOwn(x, k)] for a key [k] that is neither an index nor
    ["length"]: [null] has no properties to ask for, and booleans, numbers,
    strings and arrays own no such key. *)
Definition hasOwn (x : value) (k : string) : outcome bool :=
  match x with
  | JNull => Throw TypeError
  | JObj o => Ok (has k o)
  | _ => Ok false
  end.

(** [x[k]] for such a key; [None] is [undefined]. *)
Definition prop (x : value) (k : string) : option value :=
  match x with
  | JObj o => get k o
  | _ => None
  end.

(** [delete x[k]] and [x[k] = v] on an object. *)
Definition deleteProp (k : string) (x : value) : value :=
  match x with
  | JObj o => JObj (remove k o)
  | _ => x
  end.

Definition setProp (k : string) (v : value) (x : value) : value :=
  match x with
  | JObj o => JObj (set k v o)
  | _ => x
  end.

(** [x[i]] for an index [i]; [None] is [undefined]. *)
Definition index (x : value) (i : nat) : outcome (option value) :=
  match x with
  | JNull => Throw TypeError
  | JArr items => Ok (items !! i)
  | JObj o => Ok (get (pretty i) o)
  | JStr s =>
      Ok (match String.get i s with
          | Some c => Some (JStr (String c EmptyString))
          | None => None
          end)
  | _ => Ok None
  end.

(** [for (const i in x) x[i] = f(x[i])] in strict code. Arrays and objects
    are updated in place; [null], booleans and numbers have nothing to
    enumerate; the first character of a string is read and passed to [f],
    and storing the result back into the string throws. *)
Definition forIn (f : value -> outcome value) (x : value) : outcome value :=
  match x with
  | JArr items => JArr <$> forEach f items
  | JObj o => JObj <$> forEachProp f o
  | JStr (String c _) => _ ← f (JStr (String c EmptyString)); Throw TypeError
  | _ => Ok x
  end.

(** Nesting depth, the measure of the recursions over values. *)
Fixpoint depth (v : value) : nat :=
  match v with
  | JArr items => S (foldr Nat.max 0 (List.map depth items))
  | JObj props =>
      S (foldr Nat.max 0
           (List.map (fun kv => let '(_, x) := kv in depth x) props))
  | _ => 0
  end.

(** [v === s] for a string literal [s], [v] possibly [undefined]. *)
Definition isString (v : option value) (s : string) : bool :=
  match v with
  | Some (JStr s') => String.eqb s' s
  | _ => false
  end.

End JS.

(** ** [bidiTab.ts]: the transport between the host page and the mapper *)

Module BidiTab.
Import JS.

(** [JSON.parse(messageStr)] is the platform's: the transport is modelled on
    its outcome, [None] when it throws and [Some v] for the tree it returns.
    [#parseBidiMessage] and [#getErrorResponse] parse the same string, so
    they see the same outcome. *)
Definition parsedJson := option value.

(** [#getJsonType]; [None] is [undefined] (a missing property). *)
Definition getJsonType (v : option value) : string :=
  match v with
  | Some JNull => "null"
  | Some (JArr _) => "array"
  | None => "undefined"
  | Some (JBool _) => "boolean"
  | Some (JNum _) => "number"
  | Some (JStr _) => "string"
  | Some (JObj _) => "object"
  end.

(** [Message.RawCommandRequest], as [#parseBidiMessage] returns it. *)
Record RawCommandRequest := {
  id : number;
  method : string;
  params : object;
  channel : option string;
}.

(** [Message.ErrorCode.InvalidArgument], by its wire value. *)
Definition InvalidArgument : string := "invalid argument".

(** [#parseBidiMessage]: [inl m] is [throw new Error(m)]. *)
Definition parseBidiMessage (parsed : parsedJson)
  : string + RawCommandRequest :=
  match parsed with
  | None => inl "Cannot parse data as JSON"
  | Some messageObject =>
    let parsedType := getJsonType (Some messageObject) in
    match messageObject with
    | JObj o =>
      let id := get "id" o in
      let method := get "method" o in
      let params := get "params" o in
      let idType := getJsonType id in
      match id with
      | Some (JNum n) =>
        if negb (Number_isInteger n) || Number_ltZero n
        then inl ("Expected unsigned integer but got " +:+ idType)
        else
          let methodType := getJsonType method in
          match method with
          | Some (JStr m) =>
            let paramsType := getJsonType params in
            match params with
            | Some (JObj p) =>
              match get "channel" o with
              | None => inr (Build_RawCommandRequest n m p None)
              | Some (JStr c) =>
                (* Empty string channel is considered as no channel. *)
                inr (Build_RawCommandRequest n m p
                       (if String.eqb c "" then None else Some c))
              | Some ch =>
                inl ("Expected string channel but got "
                       +:+ getJsonType (Some ch))
              end
            | _ => inl ("Expected object params but got " +:+ paramsType)
            end
          | _ => inl ("Expected string method but got " +:+ methodType)
          end
      | _ => inl ("Expected unsigned integer but got " +:+ idType)
      end
    | _ => inl ("Expected JSON object but got " +:+ parsedType)
    end
  end.

(** A JavaScript object literal some of whose properties may hold
    [undefined] ([None]). *)
Definition literal := list (string * option value).

(** [#getErrorResponse]: the payload is parsed again and its [id] is taken,
    "regardless of what kind of value it was". *)
Definition getErrorResponse (parsed : parsedJson)
    (errorCode errorMessage : string) : literal :=
  let messageId :=
    match parsed with
    | Some (JObj messageObj) =>
        if has "id" messageObj then get "id" messageObj else None
    | _ => None
    end in
  [("id", messageId);
   ("error", Some (JStr errorCode));
   ("message", Some (JStr errorMessage))].

(** [JSON.stringify], by the tree of the document it writes: a non-finite
    number is written [null], ... *)
Fixpoint JSON_stringify (v : value) : value :=
  match v with
  | JNum (Infinite _) => JNull
  | JArr items => JArr (List.map JSON_stringify items)
  | JObj props =>
      JObj (List.map (fun kv => let '(k, x) := kv in (k, JSON_stringify x))
              props)
  | _ => v
  end.

(** A value none of whose numbers is infinite. [JSON.parse] gives
    [Infinity] for a number beyond the range of a double, such as
    [1e999]. *)
Fixpoint allFinite (v : value) : bool :=
  match v with
  | JNum (Infinite _) => false
  | JArr items => forallb allFinite items
  | JObj props =>
      forallb (fun kv => let '(k, x) := kv in allFinite x) props
  | _ => true
  end.

(** ... and a property that holds [undefined] is left out. *)
Fixpoint JSON_stringify_literal (l : literal) : object :=
  match l with
  | [] => []
  | (k, Some v) :: l' => (k, JSON_stringify v) :: JSON_stringify_literal l'
  | (_, None) :: l' => JSON_stringify_literal l'
  end.

(** What the transport does with one inbound string. The [log] calls are
    left out. *)
Inductive Effect :=
| SendBidiResponse (document : object)
| OnMessage (message : RawCommandRequest).

(** [sendMessage] *)
Definition sendMessage (message : literal) : list Effect :=
  [SendBidiResponse (JSON_stringify_literal message)].

(** [#respondWithError] *)
Definition respondWithError (plainCommandData : parsedJson)
    (errorCode errorMessage : string) (channel : option string)
  : list Effect :=
  let errorResponse :=
    getErrorResponse plainCommandData errorCode errorMessage in
  match channel with
  | Some c =>
      if String.eqb c "" then sendMessage errorResponse
      else sendMessage (errorResponse ++ [("channel", Some (JStr c))])
  | None => sendMessage errorResponse
  end.

(** The [window.onBidiMessage] handler the constructor installs;
    [listening] tells whether [setOnMessage] installed [#onMessage]. *)
Definition onBidiMessage (listening : bool) (parsed : parsedJson)
  : list Effect :=
  match parseBidiMessage parsed with
  | inl e_message =>
      (* Transport-level error does not provide channel. *)
      respondWithError parsed InvalidArgument e_message None
  | inr messageObject =>
      if listening then [OnMessage messageObject] else []
  end.

(** The [id] member of the payload, when it parsed to an object that has
    one. *)
Definition payloadId (parsed : parsedJson) : option value :=
  match parsed with
  | Some (JObj o) => get "id" o
  | _ => None
  end.

(** The payload carries a well-formed unsigned-integer [id]. *)
Definition carriesUnsignedIntegerId (parsed : parsedJson) : bool :=
  match payloadId parsed with
  | Some (JNum n) => Number_isInteger n && negb (Number_ltZero n)
  | _ => false
  end.

End BidiTab.

(** ** The CDP side, as the mapper sees it *)

Module Cdp.
Import JS.

(** A [CdpClient] is named by its session; [None] is the browser client. *)
Definition CdpClient := option string.

(** The commands the modelled code sends. [Target.detachFromTarget] goes out
    with the [params] of the event it answers; of these the session and the
    target id are kept. *)
Inductive CdpCommand :=
| Runtime_releaseObject (objectId : string)
| Runtime_runIfWaitingForDebugger
| Target_detachFromTarget (sessionId targetId : string)
| Target_closeTarget (targetId : string).

(** One [client.sendCommand(...)], in the order sent. *)
Record Sent := { client : CdpClient; command : CdpCommand }.

(** How the promise of a [sendCommand] settles. *)
Inductive CdpReply :=
| Resolved
| Rejected (e : exn).

End Cdp.

(** ** Browsing contexts and their storage *)

Module Context.
Import JS.

(** [CdpTarget.create(targetId, parentTargetId, cdpClient, cdpSessionId,
    ...)], by the arguments that identify it. *)
Record CdpTarget := {
  targetId : string;
  parentTargetId : option string;
  targetCdpClient : Cdp.CdpClient;
  cdpSessionId : string;
}.

(** Modelled from the spec: [BrowsingContextImpl] is not part of these
    sources. "Holds: optional [parentId], ..., and a reference to its owning
    [CdpTarget]"; [navigableId] is the loader id, unset until a navigation
    commits. *)
Record BrowsingContextImpl := {
  id : string;
  parentId : option string;
  cdpTarget : CdpTarget;
  navigableId : option string;
}.

(** Modelled from the spec: [BrowsingContextStorage] is not part of these
    sources. "Indexed, in-memory stores keyed by opaque ids." *)
Abbreviation BrowsingContextStorage := (gmap string BrowsingContextImpl).

(** Modelled from the spec: "[findContext(id) → optional]". *)
Definition findContext (storage : BrowsingContextStorage) (id : string)
  : option BrowsingContextImpl :=
  storage !! id.

(** Modelled from the spec: "[getContext(id) → context | fail
    NoSuchFrame]". *)
Definition getContext (storage : BrowsingContextStorage) (id : string)
  : outcome BrowsingContextImpl :=
  match findContext storage id with
  | Some c => Ok c
  | None => Throw (NoSuchFrameException ("Context " +:+ id +:+ " not found"))
  end.

(** Modelled from the spec: "a context is top-level iff [parentId] is
    null". *)
Definition isTopLevelContext (c : BrowsingContextImpl) : bool :=
  match parentId c with None => true | Some _ => false end.

End Context.

(** ** [realm.ts] *)

Module RealmModel.
Import JS Cdp Context.

(** [Script.ResultOwnership] *)
Inductive ResultOwnership := root | none.

(** The fields of a [Realm]. *)
Record Realm := {
  realmId : string;
  browsingContextId : string;
  executionContextId : Z;
  origin : string;
  type : string;
  sandbox : option string;
  cdpSessionId : string;
  cdpClient : CdpClient;
}.

(** What the methods of a realm read and write: the handle index of
    [RealmStorage], the commands sent so far and what the logger was given.
    [sent] and [logged] grow at the head. *)
Record World := {
  knownHandlesToRealm : gmap string string;
  sent : list Sent;
  logged : list exn;
}.

(** The part of a CDP response [cdpToBidiValue] reads:
    [cdpValue.result.objectId] and [cdpValue.result.deepSerializedValue]. *)
Record RemoteObject := {
  objectId : option string;
  deepSerializedValue : option object;
}.

Section Realm.

(** [Number::toString], the platform's conversion behind a template literal
    that holds a number. *)
Variable Number_toString : number -> string.

(** [SHARED_ID_DIVIDER] of [scriptEvaluator.ts], which is not part of these
    sources. *)
Variable SHARED_ID_DIVIDER : string.

Variable browsingContextStorage : BrowsingContextStorage.
Variable this : Realm.

(** [`${v}`]. An array is joined, [null] giving the empty string. An object
    goes through [toString] and then [valueOf]: one that owns no [toString]
    member has that of [Object.prototype]; one that owns it has it not
    callable, JSON having no functions, and [valueOf] gives the object
    itself, so that the conversion throws [TypeError]. *)
Fixpoint toString (v : value) : outcome string :=
  match v with
  | JNull => Ok "null"
  | JBool true => Ok "true"
  | JBool false => Ok "false"
  | JNum n => Ok (Number_toString n)
  | JStr s => Ok s
  | JArr items =>
      String.concat "," <$>
        (fix join (items : list value) : outcome (list string) :=
           match items with
           | [] => Ok []
           | x :: items' =>
               s ← match x with JNull => Ok "" | _ => toString x end;
               rest ← join items';
               Ok (s :: rest)
           end) items
  | JObj o => if has "toString" o then Throw TypeError else Ok "[object Object]"
  end.

(** [`${x}`] where [x] may be [undefined]. *)
Definition template (x : option value) : outcome string :=
  match x with
  | Some v => toString v
  | None => Ok "undefined"
  end.

(** [get navigableId()] *)
Definition get_navigableId : string :=
  match findContext browsingContextStorage (browsingContextId this) with
  | Some c =>
      match navigableId c with
      | Some n => n
      | None => "UNKNOWN"
      end
  | None => "UNKNOWN"
  end.

(** [this.deepSerializedToBiDi(x)] where [x] may be [undefined]. *)
Definition call (rec : value -> outcome value) (x : option value)
  : outcome value :=
  match x with
  | Some v => rec v
  | None => Throw TypeError
  end.

(** The body of the loop over object and map entries:
    [[deep(e[0]), deep(e[1])]]. *)
Definition entry (rec : value -> outcome value) (e : value)
  : outcome value :=
  e0 ← index e 0;
  k ← call rec e0;
  e1 ← index e 1;
  x ← call rec e1;
  Ok (JArr [k; x]).

(** The body of [deepSerializedToBiDi], [rec] standing for the method
    itself at its recursive calls. [result] and [bidiValue] are the
    JavaScript variables; [bidiValue] is the object [result.value] refers
    to, so what is done to it is stored back under ["value"] at the end. *)
Definition deepSerializedToBiDi_body (rec : value -> outcome value)
    (webDriverValue : value) : outcome value :=
  match webDriverValue with
  | JNull => Throw TypeError
  | JObj result =>
      result ←
        match get "weakLocalObjectReference" result with
        | Some w =>
            internalId ← toString w;
            Ok (remove "weakLocalObjectReference"
                  (set "internalId" (JStr internalId) result))
        | None => Ok result
        end;
      if isString (get "type" result) "platformobject"
      then Ok (JObj [("type", JStr "object")])
      else
        match get "value" result with
        | None => Ok (JObj result)
        | Some bidiValue =>
            '(result, bidiValue) ←
              (if isString (get "type" result) "node" then
                 hasBackendNodeId ← hasOwn bidiValue "backendNodeId";
                 '(result, bidiValue) ←
                   (if hasBackendNodeId : bool then
                      backendNodeId ←
                        template (prop bidiValue "backendNodeId");
                      Ok (set "sharedId"
                            (JStr (get_navigableId +:+ SHARED_ID_DIVIDER
                                     +:+ backendNodeId))
                            result,
                          deleteProp "backendNodeId" bidiValue)
                    else Ok (result, bidiValue));
                 hasChildren ← hasOwn bidiValue "children";
                 if hasChildren : bool then
                   match prop bidiValue "children" with
                   | Some children =>
                       children ← forIn rec children;
                       Ok (result, setProp "children" children bidiValue)
                   | None => Ok (result, bidiValue)
                   end
                 else Ok (result, bidiValue)
               else Ok (result, bidiValue));
            bidiValue ←
              (if isString (get "type" result) "array"
                  || isString (get "type" result) "set"
               then forIn rec bidiValue
               else Ok bidiValue);
            bidiValue ←
              (if isString (get "type" result) "object"
                  || isString (get "type" result) "map"
               then forIn (entry rec) bidiValue
               else Ok bidiValue);
            Ok (JObj (set "value" bidiValue result))
        end
  | _ => Ok webDriverValue
  end.

Fixpoint deepSerializedToBiDi_fuel (fuel : nat) (v : value)
  : outcome value :=
  match fuel with
  | O => Throw OutOfFuel
  | S fuel' => deepSerializedToBiDi_body (deepSerializedToBiDi_fuel fuel') v
  end.

(** [deepSerializedToBiDi]: the recursion goes down the value, so its
    depth is fuel enough. *)
Definition deepSerializedToBiDi (v : value) : outcome value :=
  deepSerializedToBiDi_fuel (S (depth v)) v.

(** [result] after the renaming of [weakLocalObjectReference], or what
    the conversion of it throws. *)
Definition renamed (result : object) : outcome object :=
  match get "weakLocalObjectReference" result with
  | Some w =>
      internalId ← toString w;
      Ok (remove "weakLocalObjectReference"
            (set "internalId" (JStr internalId) result))
  | None => Ok result
  end.

(** The body on an object [o], case by case on its [type]: what the three
    tests on the type, of which at most one holds, leave of it. [result]
    is [o] renamed. *)
Definition nodeCase (rec : value -> outcome value) (result : object)
    (bidiValue : value) : outcome value :=
  hasBackendNodeId ← hasOwn bidiValue "backendNodeId";
  result ←
    (if hasBackendNodeId : bool then
       backendNodeId ← template (prop bidiValue "backendNodeId");
       Ok (set "sharedId"
             (JStr (get_navigableId +:+ SHARED_ID_DIVIDER +:+ backendNodeId))
             result)
     else Ok result);
  let bidiValue :=
    if hasBackendNodeId : bool then deleteProp "backendNodeId" bidiValue
    else bidiValue in
  hasChildren ← hasOwn bidiValue "children";
  bidiValue ←
    (if hasChildren : bool then
       match prop bidiValue "children" with
       | Some children =>
           children ← forIn rec children;
           Ok (setProp "children" children bidiValue)
       | None => Ok bidiValue
       end
     else Ok bidiValue);
  Ok (JObj (set "value" bidiValue result)).

Definition bodyCases (rec : value -> outcome value) (o : object)
  : outcome value :=
  result ← renamed o;
  if isString (get "type" o) "platformobject"
  then Ok (JObj [("type", JStr "object")])
  else
    match get "value" o with
    | None => Ok (JObj result)
    | Some bidiValue =>
        if isString (get "type" o) "node" then nodeCase rec result bidiValue
        else if isString (get "type" o) "array"
                || isString (get "type" o) "set" then
          bidiValue ← forIn rec bidiValue;
          Ok (JObj (set "value" bidiValue result))
        else if isString (get "type" o) "object"
                || isString (get "type" o) "map" then
          bidiValue ← forIn (entry rec) bidiValue;
          Ok (JObj (set "value" bidiValue result))
        else Ok (JObj result)
    end.

(** [#releaseObject(handle)] up to its [await]: the command goes out. *)
Definition releaseObject_send (handle : string) (w : World) : World :=
  {| knownHandlesToRealm := knownHandlesToRealm w;
     sent := {| client := cdpClient this;
                command := Runtime_releaseObject handle |} :: sent w;
     logged := logged w |}.

(** [e.code === -32000 && e.message === 'Invalid remote object id'] *)
Definition isInvalidRemoteObjectId (e : exn) : bool :=
  match e with
  | CdpError code message =>
      (code =? -32000)%Z && String.eqb message "Invalid remote object id"
  | _ => false
  end.

(** [#releaseObject(handle)] from its [await] on: how its promise settles,
    given how the command's did. *)
Definition releaseObject_settle (reply : CdpReply) : outcome unit :=
  match reply with
  | Resolved => Ok tt
  | Rejected e =>
      (* Heuristic to determine if the problem is in the unknown handler.
         Ignore the error if so. *)
      if negb (isInvalidRemoteObjectId e) then Throw e else Ok tt
  end.

(** [disown(handle)], run to its end; [reply] settles the command it sends,
    if it sends one. *)
Definition disown (handle : string) (reply : CdpReply) (w : World)
  : outcome unit * World :=
  (* Disowning an object from different realm does nothing. *)
  if negb (bool_decide (knownHandlesToRealm w !! handle = Some (realmId this)))
  then (Ok tt, w)
  else
    let w := releaseObject_send handle w in
    match releaseObject_settle reply with
    | Ok _ =>
        (Ok tt,
         {| knownHandlesToRealm := delete handle (knownHandlesToRealm w);
            sent := sent w;
            logged := logged w |})
    | Throw e => (Throw e, w)
    end.

(** [(bidiValue as any).handle = objectId]. A value that is not an object
    is not reached, [deepSerializedToBiDi] giving an object for an
    object. *)
Definition assign (k : string) (v : value) (x : value) : outcome value :=
  match x with
  | JObj o => Ok (JObj (set k v o))
  | _ => Throw TypeError
  end.

(** [cdpToBidiValue(cdpValue, resultOwnership)]. It does not wait for the
    reply to the release it may send: no reply is among its arguments. *)
Definition cdpToBidiValue (cdpValue : RemoteObject)
    (resultOwnership : ResultOwnership) (w : World)
  : outcome value * World :=
  match call deepSerializedToBiDi (JObj <$> deepSerializedValue cdpValue) with
  | Ok bidiValue =>
      match objectId cdpValue with
      | Some objectId =>
          if String.eqb objectId "" then (Ok bidiValue, w)
          else
            match resultOwnership with
            | root =>
                match assign "handle" (JStr objectId) bidiValue with
                | Ok bidiValue =>
                    (* Remember all the handles sent to client. *)
                    (Ok bidiValue,
                     {| knownHandlesToRealm :=
                          <[objectId := realmId this]>
                            (knownHandlesToRealm w);
                        sent := sent w;
                        logged := logged w |})
                | Throw e => (Throw e, w)
                end
            | none =>
                (* No need in awaiting for the object to be released. *)
                (Ok bidiValue, releaseObject_send objectId w)
            end
      | None => (Ok bidiValue, w)
      end
  | Throw e => (Throw e, w)
  end.

(** The rest of [void this.#releaseObject(objectId).catch(error =>
    this.#logger?.(LogType.system, error))], once the command's promise
    settles: a rejection goes to the logger and nowhere else. *)
Definition released (reply : CdpReply) (w : World) : World :=
  match releaseObject_settle reply with
  | Throw error =>
      {| knownHandlesToRealm := knownHandlesToRealm w;
         sent := sent w;
         logged := error :: logged w |}
  | _ => w
  end.

(** [disown(handle)] up to its [await]: the test of the handle and, when
    it passes, the command. *)
Definition disown_start (handle : string) (w : World) : World :=
  (* Disowning an object from different realm does nothing. *)
  if negb (bool_decide (knownHandlesToRealm w !! handle = Some (realmId this)))
  then w
  else releaseObject_send handle w.

(** [disown(handle)] from its [await] on, when the reply to its command
    arrives. *)
Definition disown_finish (handle : string) (reply : CdpReply) (w : World)
  : outcome unit * World :=
  match releaseObject_settle reply with
  | Ok _ =>
      (Ok tt,
       {| knownHandlesToRealm := delete handle (knownHandlesToRealm w);
          sent := sent w;
          logged := logged w |})
  | Throw e => (Throw e, w)
  end.

(** [process_script_disown] of [browsingContextProcessor.ts], from the
    realm [#getRealm] gave on:
    [await Promise.all(params.handles.map(async (h) => realm.disown(h)))].
    [map] calls [disown] for each handle in turn, and each call runs up to
    its [await] before the next is made. *)
Definition process_script_disown_send (handles : list string) (w : World)
  : World :=
  foldl (fun w handle => disown_start handle w) w handles.

(** The replies to the commands, in the order they arrive, each with the
    handle of the [disown] it resumes. [Promise.all] is rejected with the
    first rejection that arrives, and resolved when all have resolved; the
    calls that sent no command have resolved already. *)
Definition process_script_disown_settle
    (replies : list (string * CdpReply)) (w : World) : outcome unit * World :=
  foldl
    (fun s a =>
       match disown_finish a.1 a.2 s.2 with
       | (Ok _, w) => (s.1, w)
       | (Throw e, w) =>
           (match s.1 with Ok _ => Throw e | rejected => rejected end, w)
       end)
    (Ok tt, w) replies.

End Realm.

(** A member that CDP has as an integer, where it is there. *)
Definition integerIfAny (x : option value) : bool :=
  match x with
  | None | Some (JNum _) => true
  | Some _ => false
  end.

(** The shape in which CDP sends a [Protocol.Runtime.DeepSerializedValue]:
    an object, whose [weakLocalObjectReference], if it has one, is a
    number; the [value] of a node is an object whose [backendNodeId], if it
    has one, is a number, and whose [children], if it has any, are an array
    of such values; the [value] of an array or a set is an array of such
    values; the [value] of an object or a map is an array of entries, each
    a key and a value, the key a string or such a value. *)
Inductive WellFormed : value -> Prop :=
| WF_platformobject o :
    integerIfAny (get "weakLocalObjectReference" o) = true ->
    isString (get "type" o) "platformobject" = true -> WellFormed (JObj o)
| WF_bare o :
    integerIfAny (get "weakLocalObjectReference" o) = true ->
    get "value" o = None -> WellFormed (JObj o)
| WF_node_leaf o node :
    integerIfAny (get "weakLocalObjectReference" o) = true ->
    isString (get "type" o) "node" = true ->
    get "value" o = Some (JObj node) ->
    integerIfAny (get "backendNodeId" node) = true ->
    get "children" node = None ->
    WellFormed (JObj o)
| WF_node o node items :
    integerIfAny (get "weakLocalObjectReference" o) = true ->
    isString (get "type" o) "node" = true ->
    get "value" o = Some (JObj node) ->
    integerIfAny (get "backendNodeId" node) = true ->
    get "children" node = Some (JArr items) ->
    Forall WellFormed items ->
    WellFormed (JObj o)
| WF_list o items :
    integerIfAny (get "weakLocalObjectReference" o) = true ->
    isString (get "type" o) "array" || isString (get "type" o) "set" = true ->
    get "value" o = Some (JArr items) ->
    Forall WellFormed items ->
    WellFormed (JObj o)
| WF_mapping o entries :
    integerIfAny (get "weakLocalObjectReference" o) = true ->
    isString (get "type" o) "object" || isString (get "type" o) "map" = true ->
    get "value" o = Some (JArr entries) ->
    Forall WellFormedEntry entries ->
    WellFormed (JObj o)
| WF_other o :
    integerIfAny (get "weakLocalObjectReference" o) = true ->
    isString (get "type" o) "platformobject" = false ->
    isString (get "type" o) "node" = false ->
    isString (get "type" o) "array" || isString (get "type" o) "set" = false ->
    isString (get "type" o) "object" || isString (get "type" o) "map" = false ->
    WellFormed (JObj o)
with WellFormedEntry : value -> Prop :=
| WF_entry_string s x :
    WellFormed x -> WellFormedEntry (JArr [JStr s; x])
| WF_entry k x :
    WellFormed k -> WellFormed x -> WellFormedEntry (JArr [k; x]).

(** *** Values for the examples *)

(** [Number::toString] on the integers, which it writes in decimal up to
    [10^21]; enough for the ids of the examples. *)
Definition decimal (n : number) : string :=
  match n with
  | Finite q => pretty (Qnum q)
  | Infinite negative => if negative then "-Infinity" else "Infinity"
  end.

Definition num (z : Z) : value := JNum (Finite (inject_Z z)).

(** An array of a node seen twice, with a platform object as child, and of
    a map. *)
Definition sample : object :=
  [("type", JStr "array");
   ("value",
    JArr
      [JObj [("type", JStr "node");
             ("weakLocalObjectReference", num 1);
             ("value",
              JObj [("nodeType", num 1); ("backendNodeId", num 42);
                    ("children",
                     JArr [JObj [("type", JStr "platformobject");
                                 ("weakLocalObjectReference", num 2)]])])];
       JObj [("type", JStr "map");
             ("value",
              JArr [JArr [JStr "key";
                          JObj [("type", JStr "number");
                                ("value", num 7)]]])]])].

Definition sampleRealm : Realm :=
  {| realmId := "realm-1"; browsingContextId := "context-1";
     executionContextId := 3; origin := "http://x"; type := "window";
     sandbox := None; cdpSessionId := "session-1";
     cdpClient := Some "session-1" |}.

(** A platform object seen twice. *)
Definition samplePlatformObject : object :=
  [("type", JStr "platformobject"); ("weakLocalObjectReference", num 2)].

Definition emptyWorld : World :=
  {| knownHandlesToRealm := ∅; sent := []; logged := [] |}.

(** A world in which the realm of the examples owns a handle. *)
Definition ownedWorld : World :=
  {| knownHandlesToRealm := {["object-1" := "realm-1"]};
     sent := [];
     logged := [] |}.

(** A node serialized in a realm whose context the storage does not
    have. *)
Definition sampleNode : object :=
  [("type", JStr "node");
   ("value", JObj [("nodeType", num 1); ("backendNodeId", num 42)])].

(** A result with an object id. *)
Definition sampleResult : RemoteObject :=
  {| objectId := Some "object-1";
     deepSerializedValue := Some [("type", JStr "object")] |}.

(** [await a; await b] *)
Definition andThen {S A B} (a : S -> outcome A * S) (b : S -> outcome B * S)
    (s : S) : outcome B * S :=
  match a s with
  | (Ok _, s') => b s'
  | (Throw e, s') => (Throw e, s')
  end.

End RealmModel.

(** ** [browsingContextProcessor.ts]: input *)

Module InputModel.
Import JS Context.

(** [Input.SourceActionsType] and [Input.PointerType] *)
Inductive SourceActionsType := None_ | Key | Pointer | Wheel.
Inductive PointerType := Mouse | Pen | Touch.

Definition PointerType_text (t : PointerType) : string :=
  match t with Mouse => "mouse" | Pen => "pen" | Touch => "touch" end.

#[export] Instance SourceActionsType_eq_dec : EqDecision SourceActionsType.
Proof. solve_decision. Defined.
#[export] Instance PointerType_eq_dec : EqDecision PointerType.
Proof. solve_decision. Defined.

(** One entry of [params.actions]: a source and its sequence of actions,
    whatever an action is. [parameters] is [parameters?: {pointerType?}]. *)
Module SourceActions.
Record t (Action : Type) := {
  type : SourceActionsType;
  id : string;
  parameters : option (option PointerType);
  actions : list Action;
}.
Arguments type {Action} _.
Arguments id {Action} _.
Arguments parameters {Action} _.
Arguments actions {Action} _.
End SourceActions.

(** [ActionOption]: an action tagged with the id of its source. *)
Module ActionOption.
Record t (Action : Type) := { id : string; action : Action }.
Arguments Build_t {Action} _ _.
Arguments id {Action} _.
Arguments action {Action} _.
End ActionOption.

(** An input source of [InputState], by what [#getActionsByTick] reads. *)
Record InputSource := {
  sourceType : SourceActionsType;
  subtype : option PointerType;
}.

(** Modelled from the spec: [InputState] is not part of these sources.
    "Map of source-id → source-descriptor ..., plus a [cancelList] of undo
    actions." *)
Record InputState (Action : Type) := {
  sources : gmap string InputSource;
  cancelList : list (ActionOption.t Action);
}.
Arguments sources {Action} _.
Arguments cancelList {Action} _.

(** What the input commands read and write: the context storage, the
    [InputStateManager] (keyed by top-level context) and the calls of
    [dispatchTickActions] so far, newest first, each with the tick it was
    given. *)
Record World (Action : Type) := {
  browsingContextStorage : BrowsingContextStorage;
  inputStateManager : gmap string (InputState Action);
  dispatched : list (list (ActionOption.t Action));
}.
Arguments browsingContextStorage {Action} _.
Arguments inputStateManager {Action} _.
Arguments dispatched {Action} _.

Section Input.

Variable Action : Type.

Abbreviation ActionOption := (ActionOption.t Action).
Abbreviation SourceActions := (SourceActions.t Action).
Abbreviation InputState := (InputState Action).

(** [inputState.getOrCreate(id, type, subtype?)] of [InputState.ts], which
    is not part of these sources: the source it returns and the state it
    leaves, or what it throws. *)
Variable getOrCreate :
  InputState -> string -> SourceActionsType -> option PointerType ->
  outcome (InputSource * InputState).

(** The [switch] of [#getActionsByTick]: the source of one entry is looked
    up or created. *)
Definition registerSource (action : SourceActions) (inputState : InputState)
  : outcome InputState :=
  match SourceActions.type action with
  | Pointer =>
      (* action.parameters ??= {pointerType: Mouse};
         action.parameters.pointerType ??= Mouse *)
      let pointerType :=
        match SourceActions.parameters action with
        | Some (Some pointerType) => pointerType
        | _ => Mouse
        end in
      '(source, inputState) ←
        getOrCreate inputState (SourceActions.id action) Pointer
          (Some pointerType);
      if negb (bool_decide (subtype source = Some pointerType)) then
        Throw (InvalidArgumentException
                 ("Expected input source " +:+ SourceActions.id action
                  +:+ " to be "
                  +:+ match subtype source with
                      | Some t => PointerType_text t
                      | None => "undefined"
                      end
                  +:+ "; got " +:+ PointerType_text pointerType +:+ "."))
      else Ok inputState
  | type =>
      '(_, inputState) ←
        getOrCreate inputState (SourceActions.id action) type None;
      Ok inputState
  end.

(** The inner loop: [for (let i = 0; i < actions.length; i++)], from [i]
    on, [actions] being what is left of the array. *)
Fixpoint pushActions (i : nat) (actions : list ActionOption)
    (actionsByTick : list (list ActionOption))
  : outcome (list (list ActionOption)) :=
  match actions with
  | [] => Ok actionsByTick
  | a :: actions' =>
      let actionsByTick :=
        if length actionsByTick =? i then actionsByTick ++ [[]]
        else actionsByTick in
      match actionsByTick !! i with
      | Some tick =>
          pushActions (S i) actions' (<[i := tick ++ [a]]> actionsByTick)
      | None => Throw TypeError
      end
  end.

(** The outer loop: [for (const action of params.actions)]. *)
Fixpoint getActionsByTick_loop (actions : list SourceActions)
    (inputState : InputState) (actionsByTick : list (list ActionOption))
  : outcome (list (list ActionOption) * InputState) :=
  match actions with
  | [] => Ok (actionsByTick, inputState)
  | action :: rest =>
      inputState ← registerSource action inputState;
      let actions :=
        (fun item => ActionOption.Build_t (SourceActions.id action) item)
          <$> SourceActions.actions action in
      actionsByTick ← pushActions 0 actions actionsByTick;
      getActionsByTick_loop rest inputState actionsByTick
  end.

(** [#getActionsByTick(params, inputState)], on [params.actions]. *)
Definition getActionsByTick (actions : list SourceActions)
    (inputState : InputState)
  : outcome (list (list ActionOption) * InputState) :=
  getActionsByTick_loop actions inputState [].

(** [context.top] of [BrowsingContextImpl], which is not part of these
    sources: the id of the top-level context above a context. *)
Variable top : BrowsingContextStorage -> BrowsingContextImpl -> string.

(** [dispatcher.dispatchTickActions(tick)] of [ActionDispatcher.ts], which
    is not part of these sources: how its promise settles and the input
    state it leaves. *)
Variable dispatchTickActions :
  InputState -> BrowsingContextImpl -> list ActionOption ->
  outcome unit * InputState.

(** Modelled from the spec: [InputStateManager.get] is not part of these
    sources. "Per top-level context, maintain [InputState]": the state of
    the context, a fresh one being stored when there is none. *)
Definition InputStateManager_get (topContext : string)
    (manager : gmap string InputState)
  : InputState * gmap string InputState :=
  match manager !! topContext with
  | Some inputState => (inputState, manager)
  | None =>
      let fresh := {| sources := ∅; cancelList := [] |} in
      (fresh, <[topContext := fresh]> manager)
  end.

(** [process_input_releaseActions]. [cancelList.reverse()] reverses the
    array the input state holds and returns that same array. *)
Definition process_input_releaseActions (context : string)
    (w : World Action) : outcome unit * World Action :=
  match getContext (browsingContextStorage w) context with
  | Ok context =>
      let topContext := top (browsingContextStorage w) context in
      let '(inputState, manager) :=
        InputStateManager_get topContext (inputStateManager w) in
      let inputState :=
        {| sources := sources inputState;
           cancelList := rev (cancelList inputState) |} in
      let tick := cancelList inputState in
      match dispatchTickActions inputState context tick with
      | (Ok _, _) =>
          (Ok tt,
           {| browsingContextStorage := browsingContextStorage w;
              inputStateManager := delete topContext manager;
              dispatched := tick :: dispatched w |})
      | (Throw e, inputState) =>
          (Throw e,
           {| browsingContextStorage := browsingContextStorage w;
              inputStateManager := <[topContext := inputState]> manager;
              dispatched := tick :: dispatched w |})
      end
  | Throw e => (Throw e, w)
  end.

(** Modelled from the spec: [ActionDispatcher], which records the undo
    of each action it dispatches, is not part of these sources. The release
    goes "newest first, i.e. reverse of accumulation", and
    [process_input_releaseActions] gets there by [cancelList.reverse()]:
    the list is kept in the order of accumulation, each undo action added
    at its end, as the dispatcher's [cancelList.push] does. *)
Definition recordInverse (inverse : ActionOption) (inputState : InputState)
  : InputState :=
  {| sources := sources inputState;
     cancelList := cancelList inputState ++ [inverse] |}.

(** The ticks as the spec words them: tick [i] holds, for each source that
    has an [i]-th action, that action tagged with the source's id, in the
    order of the sources. *)
Definition tickOf (actions : list SourceActions) (i : nat)
  : list ActionOption :=
  omap (fun s => ActionOption.Build_t (SourceActions.id s)
                   <$> SourceActions.actions s !! i)
    actions.

Definition longest (actions : list SourceActions) : nat :=
  foldr Nat.max 0 ((fun s => length (SourceActions.actions s)) <$> actions).

Definition ticksOf (actions : list SourceActions)
  : list (list ActionOption) :=
  tickOf actions <$> seq 0 (longest actions).

(** One more source: its [i]-th action goes to the end of tick [i], new
    ticks being made where it has more actions than there are ticks. *)
Fixpoint addColumn (column : list ActionOption)
    (ticks : list (list ActionOption)) : list (list ActionOption) :=
  match column, ticks with
  | [], _ => ticks
  | a :: column', [] => [a] :: addColumn column' []
  | a :: column', tick :: ticks' => (tick ++ [a]) :: addColumn column' ticks'
  end.

(** The sources that have an [i]-th action, in the order of the request. *)
Definition reaching (actions : list SourceActions) (i : nat)
  : list SourceActions :=
  List.filter (fun s => i <? length (SourceActions.actions s)) actions.

(** The undo actions recorded one after the other, the oldest first. *)
Definition recordAll (inverses : list ActionOption) (inputState : InputState)
  : InputState :=
  foldl (fun inputState inverse => recordInverse inverse inputState)
    inputState inverses.

(** All the sources registered in turn, as the outer loop does. *)
Fixpoint registerAll (actions : list SourceActions) (inputState : InputState)
  : outcome InputState :=
  match actions with
  | [] => Ok inputState
  | action :: rest =>
      inputState ← registerSource action inputState;
      registerAll rest inputState
  end.

End Input.

(** Modelled from the spec: [InputState.getOrCreate] is not part of these
    sources. "Pointer subtype ([mouse]/[pen]/[touch]) is fixed on first use
    of a source id": a known id gives the source stored for it, a new one
    is stored with the type and subtype asked for. *)
Definition getOrCreate_fromSpec {Action} (inputState : InputState Action)
    (id : string) (type : SourceActionsType) (subtype : option PointerType)
  : outcome (InputSource * InputState Action) :=
  match sources inputState !! id with
  | Some source => Ok (source, inputState)
  | None =>
      let source := {| sourceType := type; subtype := subtype |} in
      Ok (source,
          {| sources := <[id := source]> (sources inputState);
             cancelList := cancelList inputState |})
  end.

(** *** Values for the examples *)

(** A pointer source with three actions and a key source with two. *)
Definition sampleSources : list (SourceActions.t string) :=
  [{| SourceActions.type := Pointer; SourceActions.id := "mouse";
      SourceActions.parameters := None;
      SourceActions.actions := ["pointerMove"; "pointerDown"; "pointerUp"] |};
   {| SourceActions.type := Key; SourceActions.id := "keyboard";
      SourceActions.parameters := None;
      SourceActions.actions := ["keyDown a"; "keyUp a"] |}].

Definition freshInputState : InputState string :=
  {| sources := ∅; cancelList := [] |}.

(** A top-level context, and the world in which its input state is
    [inputState]. *)
Definition sampleContext : BrowsingContextImpl :=
  {| id := "context-1"; parentId := None;
     cdpTarget := {| targetId := "context-1"; parentTargetId := None;
                     targetCdpClient := Some "session-1";
                     cdpSessionId := "session-1" |};
     navigableId := None |}.

Definition sampleWorld (inputState : InputState string) : World string :=
  {| browsingContextStorage := {["context-1" := sampleContext]};
     inputStateManager := {["context-1" := inputState]};
     dispatched := [] |}.

Definition sampleTop (storage : BrowsingContextStorage)
    (c : BrowsingContextImpl) : string := id c.

Definition sampleDispatch (inputState : InputState string)
    (c : BrowsingContextImpl) (tick : list (ActionOption.t string))
  : outcome unit * InputState string := (Ok tt, inputState).

Definition keyUp_a := ActionOption.Build_t "keyboard" "keyUp a".
Definition keyUp_b := ActionOption.Build_t "keyboard" "keyUp b".

End InputModel.

(** ** [browsingContextProcessor.ts]: targets and browsing contexts *)

Module ProcessorModel.
Import JS Cdp Context.

(** [Protocol.Target.TargetInfo] and the events the processor listens to,
    by the fields it reads. [targetId] of a detach event is optional in
    CDP ("deprecated"); the handler reads it as [params.targetId!]. *)
Record TargetInfo := { targetId : string; type : string }.

Record AttachedToTargetEvent := {
  sessionId : string;
  targetInfo : TargetInfo;
}.

Inductive CdpEvent :=
| Target_attachedToTarget (params : AttachedToTargetEvent)
| Target_detachedFromTarget (targetId : option string)
| Page_frameAttached (frameId parentFrameId : string)
| Page_frameDetached (frameId reason : string).

(** What the processor holds and has done. [listeners] are the clients
    [#setEventListeners] was called for, one entry a call; [cdpTargets] are
    the targets [CdpTarget.create] made; [sent] are the commands the
    processor sends itself, those a [CdpTarget] sends when it is made not
    among them; [emitted] are the [browsingContext.contextCreated] events
    registered with the event manager, by method and context, the events
    registered when a context is deleted not among them. [cdpTargets],
    [sent], [emitted] and [logged] grow at the head. The preload script
    storage is left out. *)
Record Processor := {
  browsingContextStorage : BrowsingContextStorage;
  listeners : list CdpClient;
  cdpTargets : list CdpTarget;
  sent : list Sent;
  emitted : list (string * string);
  logged : list exn;
}.

Definition with_storage (storage : BrowsingContextStorage) (p : Processor)
  : Processor :=
  {| browsingContextStorage := storage;
     listeners := listeners p;
     cdpTargets := cdpTargets p;
     sent := sent p;
     emitted := emitted p;
     logged := logged p |}.

(** [client.sendCommand(command)] up to its promise. *)
Definition sendCommand (client : CdpClient) (command : CdpCommand)
    (p : Processor) : Processor :=
  {| browsingContextStorage := browsingContextStorage p;
     listeners := listeners p;
     cdpTargets := cdpTargets p;
     sent := {| client := client; command := command |} :: sent p;
     emitted := emitted p;
     logged := logged p |}.

(** [this.#logger?.(LogType.system, error)] *)
Definition log (error : exn) (p : Processor) : Processor :=
  {| browsingContextStorage := browsingContextStorage p;
     listeners := listeners p;
     cdpTargets := cdpTargets p;
     sent := sent p;
     emitted := emitted p;
     logged := error :: logged p |}.

(** [#setEventListeners(cdpClient)] *)
Definition setEventListeners (cdpClient : CdpClient) (p : Processor)
  : Processor :=
  {| browsingContextStorage := browsingContextStorage p;
     listeners := listeners p ++ [cdpClient];
     cdpTargets := cdpTargets p;
     sent := sent p;
     emitted := emitted p;
     logged := logged p |}.

(** Modelled from the spec: [CdpTarget.create] is not part of these
    sources. "One per attached browser target"; of what its creation
    starts on the CDP session (§4.3) the model keeps the target alone: the
    commands that unblock the target are not recorded in [sent]. *)
Definition CdpTarget_create (targetId : string)
    (parentTargetId : option string) (cdpClient : CdpClient)
    (cdpSessionId : string) (p : Processor) : CdpTarget * Processor :=
  let cdpTarget :=
    {| Context.targetId := targetId;
       parentTargetId := parentTargetId;
       targetCdpClient := cdpClient;
       cdpSessionId := cdpSessionId |} in
  (cdpTarget,
   {| browsingContextStorage := browsingContextStorage p;
      listeners := listeners p;
      cdpTargets := cdpTarget :: cdpTargets p;
      sent := sent p;
      emitted := emitted p;
      logged := logged p |}).

(** Modelled from the spec: [BrowsingContextImpl.create] is not part of
    these sources. "Create [BrowsingContext] if new", "create child
    [BrowsingContext] under its parent": the context is stored under its
    id, and [browsingContext.contextCreated] is registered for it. *)
Definition BrowsingContextImpl_create (cdpTarget : CdpTarget)
    (id : string) (parentId : option string) (p : Processor) : Processor :=
  {| browsingContextStorage :=
       <[id := {| Context.id := id;
                  Context.parentId := parentId;
                  cdpTarget := cdpTarget;
                  navigableId := None |}]> (browsingContextStorage p);
     listeners := listeners p;
     cdpTargets := cdpTargets p;
     sent := sent p;
     emitted := ("browsingContext.contextCreated", id) :: emitted p;
     logged := logged p |}.

(** Modelled from the spec: [updateCdpTarget] is not part of these sources.
    "Swap its [cdpTarget] reference to the new one and continue." The
    context is the object stored under [key]. *)
Definition updateCdpTarget (key : string) (context : BrowsingContextImpl)
    (cdpTarget : CdpTarget) (p : Processor) : Processor :=
  with_storage
    (<[key := {| Context.id := id context;
                 Context.parentId := parentId context;
                 Context.cdpTarget := cdpTarget;
                 navigableId := navigableId context |}]>
       (browsingContextStorage p))
    p.

(** [id] is [ancestor] or has it above itself, going up at most [fuel]
    parents. *)
Fixpoint descendsFrom (fuel : nat) (storage : BrowsingContextStorage)
    (ancestor id : string) : bool :=
  String.eqb id ancestor ||
  match fuel with
  | O => false
  | S fuel' =>
      match storage !! id ≫= parentId with
      | Some parent => descendsFrom fuel' storage ancestor parent
      | None => false
      end
  end.

(** Modelled from the spec: [BrowsingContextImpl.delete] is not part of
    these sources. "[deleteContext(id)] (cascades to children)": the
    context goes, and with it every context below it. What else the
    deletion does, the [browsingContext.contextDestroyed] it registers
    among it, is not modelled. *)
Definition deleteContext (id : string) (storage : BrowsingContextStorage)
  : BrowsingContextStorage :=
  filter (fun kc => descendsFrom (size storage) storage id kc.1 = false)
    storage.

(** [this.#browsingContextStorage.findContext(id)?.delete()], by what it
    does to the storage. *)
Definition findAndDelete (id : string) (p : Processor) : Processor :=
  match findContext (browsingContextStorage p) id with
  | Some _ => with_storage (deleteContext id (browsingContextStorage p)) p
  | None => p
  end.

Section Processor.

(** [#selfTargetId] *)
Variable selfTargetId : string.

(** [#isValidTarget] *)
Definition isValidTarget (target : TargetInfo) : bool :=
  if String.eqb (targetId target) selfTargetId then false
  else String.eqb (type target) "page" || String.eqb (type target) "iframe".

(** [#handleAttachedToTargetEvent(params, parentSessionCdpClient)], as far
    as it runs when the event is delivered. *)
Definition handleAttachedToTargetEvent (params : AttachedToTargetEvent)
    (parentSessionCdpClient : CdpClient) (p : Processor) : Processor :=
  let targetCdpClient : CdpClient := Some (sessionId params) in
  if negb (isValidTarget (targetInfo params)) then
    (* DevTools or some other not supported by BiDi target. Just release
       debugger and ignore them. *)
    sendCommand targetCdpClient Runtime_runIfWaitingForDebugger p
  else
    let p := setEventListeners targetCdpClient p in
    let maybeContext :=
      findContext (browsingContextStorage p) (targetId (targetInfo params)) in
    let '(cdpTarget, p) :=
      CdpTarget_create (targetId (targetInfo params))
        (maybeContext ≫= parentId) targetCdpClient (sessionId params) p in
    match maybeContext with
    | Some context =>
        (* OOPiF. *)
        updateCdpTarget (targetId (targetInfo params)) context cdpTarget p
    | None =>
        (* New context. *)
        BrowsingContextImpl_create cdpTarget (targetId (targetInfo params))
          None p
    end.

(** What the promise chain of the ignored target does once
    [Runtime.runIfWaitingForDebugger] settles: [.then] detaches from the
    target, [.catch] logs. *)
Definition releasedIgnoredTarget (params : AttachedToTargetEvent)
    (parentSessionCdpClient : CdpClient) (reply : CdpReply) (p : Processor)
  : Processor :=
  match reply with
  | Resolved =>
      sendCommand parentSessionCdpClient
        (Target_detachFromTarget (sessionId params)
           (targetId (targetInfo params))) p
  | Rejected error => log error p
  end.

(** [#handleDetachedFromTargetEvent]; [findContext(undefined)] finds
    nothing. *)
Definition handleDetachedFromTargetEvent (targetId : option string)
    (p : Processor) : Processor :=
  match targetId with
  | Some contextId => findAndDelete contextId p
  | None => p
  end.

(** [#handleFrameAttachedEvent] *)
Definition handleFrameAttachedEvent (frameId parentFrameId : string)
    (p : Processor) : Processor :=
  match findContext (browsingContextStorage p) parentFrameId with
  | Some parentBrowsingContext =>
      BrowsingContextImpl_create (cdpTarget parentBrowsingContext) frameId
        (Some parentFrameId) p
  | None => p
  end.

(** [#handleFrameDetachedEvent] *)
Definition handleFrameDetachedEvent (frameId reason : string)
    (p : Processor) : Processor :=
  (* In case of OOPiF no need in deleting BrowsingContext. *)
  if String.eqb reason "swap" then p
  else findAndDelete frameId p.

(** The listener [#setEventListeners] installs on [cdpClient], run on one
    event. *)
Definition listener (cdpClient : CdpClient) (event : CdpEvent)
    (p : Processor) : Processor :=
  match event with
  | Target_attachedToTarget params =>
      handleAttachedToTargetEvent params cdpClient p
  | Target_detachedFromTarget targetId =>
      handleDetachedFromTargetEvent targetId p
  | Page_frameAttached frameId parentFrameId =>
      handleFrameAttachedEvent frameId parentFrameId p
  | Page_frameDetached frameId reason =>
      handleFrameDetachedEvent frameId reason p
  end.

(** An event delivered on a client: every listener installed on that
    client runs, in the order of installation. The emitter calls the
    listeners that were installed when the event arrived. *)
Definition deliver (on : CdpClient) (event : CdpEvent) (p : Processor)
  : Processor :=
  foldl (fun p cdpClient =>
           if bool_decide (cdpClient = on) then listener cdpClient event p
           else p)
    p (listeners p).

(** The processor as its constructor leaves it: nothing stored, listeners
    on the browser client. *)
Definition initial : Processor :=
  {| browsingContextStorage := ∅;
     listeners := [None];
     cdpTargets := [];
     sent := [];
     emitted := [];
     logged := [] |}.

(** A frame event that names the mapper's own tab as the frame attached.
    The ids of frames are the browser's, one to a frame, and that of a
    tab is the id of its main frame, which no [Page.frameAttached]
    announces. *)
Definition attachesSelfAsFrame (event : CdpEvent) : bool :=
  match event with
  | Page_frameAttached frameId _ => String.eqb frameId selfTargetId
  | _ => false
  end.

(** The contexts are stored under their ids. *)
Definition Keyed (p : Processor) : Prop :=
  forall k c, browsingContextStorage p !! k = Some c -> Context.id c = k.

(** The contexts are stored under their ids; nothing stored, made or
    announced bears the id of the mapper's own tab. *)
Record Clean (p : Processor) : Prop := {
  clean_keys : forall k c,
    browsingContextStorage p !! k = Some c -> Context.id c = k;
  clean_storage : browsingContextStorage p !! selfTargetId = None;
  clean_targets : forall t, In t (cdpTargets p) ->
    Context.targetId t <> selfTargetId;
  clean_emitted : forall e, In e (emitted p) -> e.2 <> selfTargetId;
}.

(** Events in the order of their arrival, each on its client. *)
Definition run (events : list (CdpClient * CdpEvent)) (p : Processor)
  : Processor :=
  foldl (fun p e => deliver e.1 e.2 p) p events.

End Processor.

(** *** [browsingContext.getTree] *)

(** Modelled from the spec: [serializeToBidiValue] is not part of these
    sources. What it gives for a context, by the ids in it: the context,
    its parent, and down to [maxDepth] levels its children. *)
Inductive Info :=
| MkInfo (context : string) (parent : option string)
    (children : option (list Info)).

(** Modelled from the spec: "parent/child lookup". *)
Definition directChildren (storage : BrowsingContextStorage)
    (c : BrowsingContextImpl) : list BrowsingContextImpl :=
  List.filter (fun x => bool_decide (parentId x = Some (id c)))
    (map_to_list storage).*2.

Fixpoint serializeToBidiValue (storage : BrowsingContextStorage)
    (maxDepth : nat) (c : BrowsingContextImpl) : Info :=
  MkInfo (id c) (parentId c)
    match maxDepth with
    | O => None
    | S maxDepth' =>
        Some (List.map (serializeToBidiValue storage maxDepth')
                (directChildren storage c))
    end.

(** Modelled from the spec: "[getTopLevelContexts() → sequence]". *)
Definition getTopLevelContexts (storage : BrowsingContextStorage)
  : list BrowsingContextImpl :=
  List.filter isTopLevelContext (map_to_list storage).*2.

(** [BrowsingContext.GetTreeParameters] *)
Record GetTreeParameters := {
  root : option string;
  maxDepth : option nat;
}.

(** [process_browsingContext_getTree]. [params.maxDepth ??
    Number.MAX_VALUE]: on the forest the contexts make, no branch is longer
    than the storage has contexts. *)
Definition process_browsingContext_getTree (params : GetTreeParameters)
    (p : Processor) : outcome (list Info) :=
  resultContexts ←
    match root params with
    | None => Ok (getTopLevelContexts (browsingContextStorage p))
    | Some root =>
        c ← getContext (browsingContextStorage p) root; Ok [c]
    end;
  Ok (List.map
        (serializeToBidiValue (browsingContextStorage p)
           (default (size (browsingContextStorage p)) (maxDepth params)))
        resultContexts).

(** The ids of the contexts an answer lists. *)
Fixpoint listed (info : Info) : list string :=
  match info with
  | MkInfo context _ children =>
      context ::
      match children with
      | Some infos => concat (List.map listed infos)
      | None => []
      end
  end.

(** The ids of the contexts a whole answer lists. *)
Definition listedAll (infos : list Info) : list string :=
  concat (List.map listed infos).

(** *** [browsingContext.close] *)

(** Where [process_browsingContext_close] stands. Its listener on the
    browser client is installed before the command goes out, and resolves
    [detachedFromTargetPromise] when a detach event names the context. *)
Inductive Close :=
| AwaitingCloseTarget (detached : bool)
    (* at [await sendCommand('Target.closeTarget')]; [detached]: the
       promise of the detach event is resolved already *)
| AwaitingDetachedFromTarget
    (* at [await detachedFromTargetPromise], not resolved yet *)
| Returned
    (* [return {result: {}}] *)
| Thrown (e : exn).

(** The command up to its first [await]. *)
Definition process_browsingContext_close (context : string) (p : Processor)
  : Close * Processor :=
  match getContext (browsingContextStorage p) context with
  | Ok c =>
      if negb (isTopLevelContext c) then
        (Thrown (InvalidArgumentException
                   "A top-level browsing context cannot be closed."), p)
      else
        (AwaitingCloseTarget false,
         sendCommand None (Target_closeTarget context) p)
  | Throw e => (Thrown e, p)
  end.

(** [onContextDestroyed], the command's listener, on an event of the
    browser client. *)
Definition onContextDestroyed (context : string) (event : CdpEvent)
    (c : Close) : Close :=
  match event with
  | Target_detachedFromTarget targetId =>
      if bool_decide (targetId = Some context) then
        match c with
        | AwaitingCloseTarget _ => AwaitingCloseTarget true
        | AwaitingDetachedFromTarget => Returned
        | c => c
        end
      else c
  | _ => c
  end.

(** The reply to [Target.closeTarget]. *)
Definition closeTargetSettled (reply : CdpReply) (c : Close) : Close :=
  match c, reply with
  | AwaitingCloseTarget detached, Resolved =>
      if detached then Returned else AwaitingDetachedFromTarget
  | AwaitingCloseTarget _, Rejected e => Thrown e
  | c, _ => c
  end.

(** What arrives while the command is under way. *)
Inductive Arrival :=
| Event (on : CdpClient) (event : CdpEvent)
| CloseTargetReply (reply : CdpReply).

Section Closing.

Variable selfTargetId : string.
Variable context : string.

(** One arrival: an event runs the processor's listeners, which were
    installed first, and on the browser client the command's listener after
    them. *)
Definition arrive (a : Arrival) (s : Close * Processor) : Close * Processor :=
  match a with
  | Event on event =>
      (match on with
       | None => onContextDestroyed context event s.1
       | Some _ => s.1
       end,
       deliver selfTargetId on event s.2)
  | CloseTargetReply reply => (closeTargetSettled reply s.1, s.2)
  end.

Definition arrivals (l : list Arrival) (s : Close * Processor)
  : Close * Processor :=
  foldl (fun s a => arrive a s) s l.

(** The reply to [Target.closeTarget], resolved. *)
Definition isCloseTargetReply (a : Arrival) : bool :=
  match a with
  | CloseTargetReply Resolved => true
  | _ => false
  end.

(** A [Target.detachedFromTarget] for the context, on the browser
    client. *)
Definition isDetachedFromTarget (a : Arrival) : bool :=
  match a with
  | Event None (Target_detachedFromTarget (Some targetId)) =>
      String.eqb targetId context
  | _ => false
  end.

(** An event that attaches a target or a frame of the id of the context
    again. CDP has one id to a target and to a frame: once a target is
    closed its id does not come back. *)
Definition attachesAgain (a : Arrival) : bool :=
  match a with
  | Event _ (Target_attachedToTarget params) =>
      String.eqb (targetId (targetInfo params)) context
  | Event _ (Page_frameAttached frameId _) => String.eqb frameId context
  | _ => false
  end.

(** What is known of the command from what has arrived. *)
Definition Seen (l : list Arrival) (c : Close) : Prop :=
  match c with
  | AwaitingCloseTarget detached =>
      detached = true -> existsb isDetachedFromTarget l = true
  | AwaitingDetachedFromTarget => existsb isCloseTargetReply l = true
  | Returned =>
      existsb isCloseTargetReply l = true /\
      existsb isDetachedFromTarget l = true
  | Thrown _ => True
  end.

End Closing.

(** *** The end of an ignored target's promise chain *)

(** What that chain does once [Target.detachFromTarget] settles: [.catch]
    logs its rejection as it does the first command's. *)
Definition detachedIgnoredTarget (reply : CdpReply) (p : Processor)
  : Processor :=
  match reply with
  | Resolved => p
  | Rejected error => log error p
  end.

(** *** [browsingContext.create] *)

(** [BrowsingContext.CreateParameters] *)
Inductive CreateType := Tab | Window.

Record CreateParameters := {
  createType : CreateType;
  referenceContext : option string;
}.

(** The parameters of the [Target.createTarget] the command sends on the
    browser client. *)
Record CreateTarget := { url : string; newWindow : bool }.

(** [process_browsingContext_create] up to its first [await]: what it
    throws, or the command it sends. *)
Definition process_browsingContext_create (params : CreateParameters)
    (p : Processor) : outcome CreateTarget :=
  _ ← match referenceContext params with
      | Some referenceContext =>
          referenceContext ←
            getContext (browsingContextStorage p) referenceContext;
          if negb (isTopLevelContext referenceContext) then
            Throw (InvalidArgumentException
                     "referenceContext should be a top-level context")
          else Ok tt
      | None => Ok tt
      end;
  match createType params with
  | Tab => Ok {| url := "about:blank"; newWindow := false |}
  | Window => Ok {| url := "about:blank"; newWindow := true |}
  end.

(** [process_browsingContext_create] from the reply on. [reply] is how
    the command settled, with [result.targetId] when it resolved; [p] is
    the processor when the reply arrives; [loaded] is how
    [context.awaitLoaded()], which is not part of these sources, settles.
    What is returned is [result.context]. *)
Definition createTargetSettled (reply : outcome string)
    (loaded : outcome unit) (p : Processor) : outcome string :=
  contextId ← reply;
  context ← getContext (browsingContextStorage p) contextId;
  _ ← loaded;
  Ok (id context).

(** *** [cdp.getSession] *)


(** The context and the parent an entry of [browsingContext.getTree]
    names. *)
Definition infoContext (info : Info) : string :=
  match info with MkInfo context _ _ => context end.

Definition infoParent (info : Info) : option string :=
  match info with MkInfo _ parent _ => parent end.

(** *** Values for the examples *)

(** The mapper's tab, a page, a frame of the page and the same frame
    moved to a process of its own. *)
Definition attachedMapper : CdpClient * CdpEvent :=
  (None,
   Target_attachedToTarget
     {| sessionId := "session-0";
        targetInfo := {| targetId := "mapper"; type := "page" |} |}).

Definition attachedPage : CdpClient * CdpEvent :=
  (None,
   Target_attachedToTarget
     {| sessionId := "session-1";
        targetInfo := {| targetId := "context-1"; type := "page" |} |}).

Definition attachedFrame : CdpClient * CdpEvent :=
  (Some "session-1", Page_frameAttached "frame-1" "context-1").

Definition migratedFrame : AttachedToTargetEvent :=
  {| sessionId := "session-2";
     targetInfo := {| targetId := "frame-1"; type := "iframe" |} |}.

Definition pageTarget : CdpTarget :=
  {| Context.targetId := "context-1"; parentTargetId := None;
     targetCdpClient := Some "session-1"; cdpSessionId := "session-1" |}.

Definition pageContext : BrowsingContextImpl :=
  {| id := "context-1"; parentId := None; cdpTarget := pageTarget;
     navigableId := None |}.

Definition frameContext : BrowsingContextImpl :=
  {| id := "frame-1"; parentId := Some "context-1"; cdpTarget := pageTarget;
     navigableId := None |}.

End ProcessorModel.

(** * Properties *)

(** ** The transport's answer to a malformed envelope *)

Module BidiTabFacts.
Import JS BidiTab.

Lemma getJsonType_object v : getJsonType v = "object" <-> exists o, v = Some (JObj o).
Proof.
  split.
  - destruct v as [[]|]; simpl; try discriminate. eauto.
  - intros [o ->]. reflexivity.
Qed.

(** What goes on the wire for an error response: [id] when the payload had
    one to take, then [error] and [message]. *)
Lemma getErrorResponse_document parsed code message :
  JSON_stringify_literal (getErrorResponse parsed code message) =
  match payloadId parsed with
  | Some v => [("id", JSON_stringify v)]
  | None => []
  end ++ [("error", JStr code); ("message", JStr message)].
Proof.
  unfold getErrorResponse, payloadId, has.
  destruct parsed as [[]|]; simpl; try reflexivity.
  destruct (get "id" props); reflexivity.
Qed.

(** An [id] that is not an unsigned integer, be it a string, a number with
    a fraction, a negative number or missing, fails the validation. *)
Lemma parseBidiMessage_rejects_id o :
  carriesUnsignedIntegerId (Some (JObj o)) = false ->
  parseBidiMessage (Some (JObj o)) =
  inl ("Expected unsigned integer but got " +:+ getJsonType (get "id" o)).
Proof.
  unfold carriesUnsignedIntegerId, parseBidiMessage, payloadId.
  destruct (get "id" o) as [[]|]; try reflexivity.
  intros H.
  destruct (Number_isInteger n), (Number_ltZero n); simpl in *;
    try reflexivity; discriminate.
Qed.

(** A message that passes the validation carries an unsigned integer
    [id], and is handed to the listener unanswered. *)
Lemma parseBidiMessage_accepts parsed m :
  parseBidiMessage parsed = inr m ->
  payloadId parsed = Some (JNum (id m)) /\
  carriesUnsignedIntegerId parsed = true /\
  forall listening,
    onBidiMessage listening parsed = if listening then [OnMessage m] else [].
Proof.
  intros H. unfold onBidiMessage. rewrite H.
  unfold parseBidiMessage in H. unfold carriesUnsignedIntegerId, payloadId.
  destruct parsed as [[]|]; try discriminate.
  destruct (get "id" props) as [[]|]; try discriminate.
  destruct (Number_isInteger n) eqn:Hi, (Number_ltZero n) eqn:Hn;
    simpl in H; try discriminate.
  destruct (get "method" props) as [[]|]; try discriminate.
  destruct (get "params" props) as [[]|]; try discriminate.
  destruct (get "channel" props) as [[]|]; try discriminate;
    injection H as <-; simpl; auto.
Qed.

(** What [JSON.stringify] writes of a value without infinite numbers is
    the value. *)
Lemma JSON_stringify_finite :
  forall v, allFinite v = true -> JSON_stringify v = v.
Proof.
  fix IH 1. intros [| b | [q | negative] | s | items | props]; simpl;
    try reflexivity; try discriminate.
  - intros H. f_equal. induction items as [|x items IHitems];
      [reflexivity|].
    simpl in *. apply andb_true_iff in H as [Hx Hitems].
    now rewrite (IH x Hx), (IHitems Hitems).
  - intros H. f_equal. induction props as [|[k x] props IHprops];
      [reflexivity|].
    simpl in *. apply andb_true_iff in H as [Hx Hprops].
    now rewrite (IH x Hx), (IHprops Hprops).
Qed.

(** C1, as amended. For every inbound message whose envelope fails the
    validation, the transport sends one response and hands nothing to the
    command processor; the response has [error] 'invalid argument', the
    message of the failure and no [channel]. When the payload parsed to an
    object with a member [id], the response has an [id], of whatever kind
    the member is: it holds what [JSON.stringify] writes of the member,
    which is the member itself unless there is an infinite number in it,
    and [null] for a member that is an infinite number, as [1e999] parses
    to. Otherwise the response has no [id]. *)
Theorem envelope_failure_response listening parsed e :
  parseBidiMessage parsed = inl e ->
  exists document,
    onBidiMessage listening parsed = [SendBidiResponse document] /\
    get "error" document = Some (JStr "invalid argument") /\
    get "message" document = Some (JStr e) /\
    get "channel" document = None /\
    get "id" document = JSON_stringify <$> payloadId parsed /\
    (forall v, payloadId parsed = Some v -> allFinite v = true ->
       get "id" document = Some v) /\
    (forall negative,
       payloadId parsed = Some (JNum (Infinite negative)) ->
       get "id" document = Some JNull) /\
    (payloadId parsed = None -> get "id" document = None).
Proof.
  intros H. unfold onBidiMessage, respondWithError, sendMessage.
  rewrite H, getErrorResponse_document.
  eexists. split; [reflexivity|].
  destruct (payloadId parsed) as [v|]; simpl.
  - repeat split; auto; try discriminate.
    + intros ? [= <-] Hv. now rewrite JSON_stringify_finite.
    + now intros ? [= ->].
  - repeat split; auto; discriminate.
Qed.

(** Scenario 4 of the spec: no [id] in the payload, none in the answer. *)
Lemma envelope_failure_response_witness :
  exists document,
    onBidiMessage true
      (Some (JObj [("method", JStr "x"); ("params", JObj [])])) =
    [SendBidiResponse document] /\
    get "error" document = Some (JStr "invalid argument") /\
    get "message" document =
      Some (JStr "Expected unsigned integer but got undefined") /\
    get "channel" document = None /\
    get "id" document = None.
Proof.
  destruct (envelope_failure_response true
              (Some (JObj [("method", JStr "x"); ("params", JObj [])]))
              "Expected unsigned integer but got undefined" eq_refl)
    as (document & H & He & Hm & Hc & _ & _ & _ & Hid).
  exists document. repeat split; auto.
Defined.

(** The payload [{"id":"abc","method":"x","params":{}}] fails the
    validation, its [id] being a string, and the one response sent carries
    ["id":"abc"]; likewise [{"id":1.5,...}] is answered with ["id":1.5]. *)
Example envelope_failure_with_id :
  let payload id :=
    Some (JObj [("id", id); ("method", JStr "x"); ("params", JObj [])]) in
  let answer id message :=
    [SendBidiResponse
       [("id", id); ("error", JStr "invalid argument");
        ("message", JStr message)]] in
  parseBidiMessage (payload (JStr "abc")) =
    inl "Expected unsigned integer but got string" /\
  carriesUnsignedIntegerId (payload (JStr "abc")) = false /\
  onBidiMessage true (payload (JStr "abc")) =
    answer (JStr "abc") "Expected unsigned integer but got string" /\
  parseBidiMessage (payload (JNum (Finite (3 # 2)))) =
    inl "Expected unsigned integer but got number" /\
  carriesUnsignedIntegerId (payload (JNum (Finite (3 # 2)))) = false /\
  onBidiMessage true (payload (JNum (Finite (3 # 2)))) =
    answer (JNum (Finite (3 # 2))) "Expected unsigned integer but got number".
Proof. repeat split; reflexivity. Qed.

(** The payload [{"id":1e999,"method":"x","params":{}}], whose [id] parses
    to [Infinity], fails the validation and is answered with ["id":null],
    which is how [JSON.stringify] writes the number. *)
Example envelope_failure_with_infinite_id :
  let payload :=
    Some (JObj [("id", JNum (Infinite false)); ("method", JStr "x");
                ("params", JObj [])]) in
  parseBidiMessage payload =
    inl "Expected unsigned integer but got number" /\
  onBidiMessage true payload =
    [SendBidiResponse
       [("id", JNull); ("error", JStr "invalid argument");
        ("message", JStr "Expected unsigned integer but got number")]].
Proof. split; reflexivity. Qed.

(** C1 as stated fails. It is not so that the response to a message that
    fails the validation has an [id] only when the payload carried a
    well-formed unsigned integer [id]: the string ["abc"] is echoed. *)
Lemma envelope_failure_echoes_any_id :
  ~ (forall listening parsed e document,
       parseBidiMessage parsed = inl e ->
       onBidiMessage listening parsed = [SendBidiResponse document] ->
       has "id" document = true ->
       carriesUnsignedIntegerId parsed = true).
Proof.
  intros claim.
  specialize
    (claim true
       (Some (JObj [("id", JStr "abc"); ("method", JStr "x");
                    ("params", JObj [])]))
       "Expected unsigned integer but got string"
       [("id", JStr "abc"); ("error", JStr "invalid argument");
        ("message", JStr "Expected unsigned integer but got string")]
       eq_refl eq_refl eq_refl).
  discriminate claim.
Qed.

(** *** What the transport accepts, and error responses on a channel *)

(** X1. [#parseBidiMessage] returns a message exactly for a payload that
    parsed to an object whose [id] is a number that is an integer and not
    negative, whose [method] is a string and whose [params] are an object,
    and whose [channel] is missing or a string; the message returned has
    these as its fields, an empty [channel] counting as none, so that an
    accepted message never has the empty string as its channel. *)
Theorem parseBidiMessage_accepts_exactly parsed m :
  (parseBidiMessage parsed = inr m <->
   exists o,
     parsed = Some (JObj o) /\
     get "id" o = Some (JNum (id m)) /\
     Number_isInteger (id m) = true /\
     Number_ltZero (id m) = false /\
     get "method" o = Some (JStr (method m)) /\
     get "params" o = Some (JObj (params m)) /\
     match get "channel" o with
     | None => channel m = None
     | Some (JStr c) => channel m = if String.eqb c "" then None else Some c
     | Some _ => False
     end) /\
  (parseBidiMessage parsed = inr m -> channel m <> Some "").
Proof.
  assert (Hchannel : forall c : string,
            (if String.eqb c "" then None else Some c) <> Some "").
  { intros c. destruct (String.eqb_spec c ""); congruence. }
  split; [split|].
  - intros H. destruct parsed as [[]|]; try discriminate. simpl in H.
    exists props.
    destruct (get "id" props) as [[]|]; try discriminate.
    destruct (Number_isInteger n) eqn:Hi, (Number_ltZero n) eqn:Hn;
      simpl in H; try discriminate.
    destruct (get "method" props) as [[]|]; try discriminate.
    destruct (get "params" props) as [[]|]; try discriminate.
    destruct (get "channel" props) as [[]|]; try discriminate;
      injection H as <-; simpl; auto 10.
  - intros (o & -> & Hid & Hi & Hn & Hm & Hp & Hc). simpl.
    rewrite Hid, Hi, Hn, Hm, Hp. simpl.
    destruct m as [n me pa ch]. simpl in *.
    destruct (get "channel" o) as [[]|]; try contradiction; now subst.
  - intros H. destruct parsed as [[]|]; try discriminate. simpl in H.
    destruct (get "id" props) as [[]|]; try discriminate.
    destruct (Number_isInteger n), (Number_ltZero n);
      simpl in H; try discriminate.
    destruct (get "method" props) as [[]|]; try discriminate.
    destruct (get "params" props) as [[]|]; try discriminate.
    destruct (get "channel" props) as [[]|]; try discriminate;
      injection H as <-; simpl; auto; discriminate.
Qed.

Lemma parseBidiMessage_accepts_exactly_witness :
  parseBidiMessage
    (Some (JObj [("id", JNum (Finite 7)); ("method", JStr "session.status");
                 ("params", JObj []); ("channel", JStr "")])) =
  inr {| id := Finite 7; method := "session.status"; params := [];
         channel := None |}.
Proof.
  apply (proj1 (parseBidiMessage_accepts_exactly _ _)).
  eexists. repeat split; reflexivity.
Defined.

(** X2. [#respondWithError] sends one response, with the error code and
    the message it was given and, as [id], what [JSON.stringify] writes of
    the [id] member of the payload: the member itself when no number in it
    is infinite, an infinite number being written [null]. The response has
    a [channel] exactly when it was given one that is not the empty string,
    and then that one. *)
Theorem respondWithError_channel parsed code message channel :
  exists document,
    respondWithError parsed code message channel =
    [SendBidiResponse document] /\
    get "id" document = JSON_stringify <$> payloadId parsed /\
    (forall v, payloadId parsed = Some v -> allFinite v = true ->
       get "id" document = Some v) /\
    get "error" document = Some (JStr code) /\
    get "message" document = Some (JStr message) /\
    get "channel" document =
    match channel with
    | Some c => if String.eqb c "" then None else Some (JStr c)
    | None => None
    end.
Proof.
  assert (Hfinite :
    forall document,
      get "id" document = JSON_stringify <$> payloadId parsed ->
      forall v, payloadId parsed = Some v -> allFinite v = true ->
        get "id" document = Some v).
  { intros document -> v -> Hv. simpl. now rewrite JSON_stringify_finite. }
  assert (Hplain :
    forall document,
      document = JSON_stringify_literal (getErrorResponse parsed code message) ->
      get "id" document = JSON_stringify <$> payloadId parsed /\
      get "error" document = Some (JStr code) /\
      get "message" document = Some (JStr message) /\
      get "channel" document = None).
  { intros document ->. rewrite getErrorResponse_document.
    destruct (payloadId parsed); simpl; auto. }
  assert (Hchannel :
    forall c, c <> "" ->
      let document :=
        JSON_stringify_literal
          (getErrorResponse parsed code message ++ [("channel", Some (JStr c))])
      in
      get "id" document = JSON_stringify <$> payloadId parsed /\
      get "error" document = Some (JStr code) /\
      get "message" document = Some (JStr message) /\
      get "channel" document = Some (JStr c)).
  { intros c Hc. unfold getErrorResponse.
    destruct parsed as [[]|]; simpl; auto.
    unfold has. destruct (get "id" props); simpl; auto. }
  unfold respondWithError, sendMessage.
  destruct channel as [c|]; [destruct (String.eqb_spec c "") as [->|Hc]|].
  - eexists. split; [reflexivity|].
    destruct (Hplain _ eq_refl) as (Hid & He & Hm & Hch).
    split; [exact Hid|]. split; [now apply Hfinite|]. auto.
  - eexists. split; [reflexivity|].
    destruct (Hchannel c Hc) as (Hid & He & Hm & Hch).
    split; [exact Hid|]. split; [now apply Hfinite|]. auto.
  - eexists. split; [reflexivity|].
    destruct (Hplain _ eq_refl) as (Hid & He & Hm & Hch).
    split; [exact Hid|]. split; [now apply Hfinite|]. auto.
Qed.

(** An error answered on a channel, for a payload whose [id] is a
    string. *)
Lemma respondWithError_channel_witness :
  exists document,
    respondWithError (Some (JObj [("id", JStr "abc")])) "invalid argument"
      "Expected unsigned integer but got string" (Some "channel-1") =
    [SendBidiResponse document] /\
    get "id" document = Some (JStr "abc") /\
    get "channel" document = Some (JStr "channel-1").
Proof.
  destruct (respondWithError_channel (Some (JObj [("id", JStr "abc")]))
              "invalid argument" "Expected unsigned integer but got string"
              (Some "channel-1"))
    as (document & H & _ & Hid & _ & _ & Hc).
  exists document. split; [exact H|].
  split; [apply (Hid _ eq_refl eq_refl) | exact Hc].
Defined.

End BidiTabFacts.

(** ** Properties of objects and loops *)

Module JSFacts.
Import JS.

Lemma get_set_eq k v o : get k (set k v o) = Some v.
Proof.
  induction o as [|[k' v'] o IH]; simpl.
  - now rewrite String.eqb_refl.
  - destruct (String.eqb_spec k' k); simpl;
      destruct (String.eqb_spec k' k); congruence.
Qed.

Lemma get_set_ne k k' v o : k <> k' -> get k (set k' v o) = get k o.
Proof.
  intros Hne. induction o as [|[k0 v0] o IH]; simpl.
  - destruct (String.eqb_spec k' k); congruence.
  - destruct (String.eqb_spec k0 k'); simpl;
      destruct (String.eqb_spec k0 k); congruence.
Qed.

Lemma get_remove_eq k o : get k (remove k o) = None.
Proof.
  induction o as [|[k' v'] o IH]; simpl; auto.
  destruct (String.eqb_spec k' k); simpl; auto.
  destruct (String.eqb_spec k' k); congruence.
Qed.

Lemma get_remove_ne k k' o : k <> k' -> get k (remove k' o) = get k o.
Proof.
  intros Hne. induction o as [|[k0 v0] o IH]; simpl; auto.
  destruct (String.eqb_spec k0 k'); simpl;
    destruct (String.eqb_spec k0 k); congruence.
Qed.

(** Storing what a property holds already changes nothing. *)
Lemma set_same k v o : get k o = Some v -> set k v o = o.
Proof.
  induction o as [|[k' v'] o IH]; simpl; [discriminate|].
  destruct (String.eqb k' k) eqn:E.
  - intros [= ->]. reflexivity.
  - intros H. now rewrite IH.
Qed.

Lemma has_get k o : has k o = true <-> exists v, get k o = Some v.
Proof.
  unfold has. destruct (get k o); split; eauto; try discriminate.
  intros [? [=]].
Qed.

Lemma isString_true v s : isString v s = true <-> v = Some (JStr s).
Proof.
  unfold isString. destruct v as [[]|]; split; try discriminate.
  - intros H. apply String.eqb_eq in H. now subst.
  - intros [= ->]. apply String.eqb_refl.
Qed.

(** *** Depth *)

Lemma depth_item x items : In x items -> depth x < depth (JArr items).
Proof.
  simpl. induction items as [|y items IH]; simpl; [tauto|].
  intros [->|H]; [lia|]. specialize (IH H). lia.
Qed.

Lemma depth_prop k x o : get k o = Some x -> depth x < depth (JObj o).
Proof.
  simpl. induction o as [|[k' v'] o IH]; simpl; [discriminate|].
  destruct (String.eqb k' k).
  - intros [= ->]. lia.
  - intros H. specialize (IH H). lia.
Qed.

Lemma depth_index e i y n :
  depth e < n -> index e i = Ok (Some y) -> depth y < n.
Proof.
  destruct e; simpl; try discriminate.
  - intros Hn [= H]. destruct (String.get i s); inversion H. simpl. lia.
  - intros Hn [= H]. apply list_elem_of_lookup_2, list_elem_of_In in H.
    apply depth_item in H. simpl in *. lia.
  - intros Hn [= H]. apply depth_prop in H. simpl in *. lia.
Qed.

(** *** Loops *)

Lemma forEach_ext {A B} (f g : A -> outcome B) l :
  (forall x, In x l -> f x = g x) -> forEach f l = forEach g l.
Proof.
  induction l as [|x l IH]; simpl; auto.
  intros H. rewrite (H x) by auto. rewrite IH by auto. reflexivity.
Qed.

Lemma forEachProp_ext f g o :
  (forall k x, In (k, x) o -> f x = g x) -> forEachProp f o = forEachProp g o.
Proof.
  induction o as [|[k x] o IH]; simpl; auto.
  intros H. rewrite (H k x) by auto. rewrite IH by eauto. reflexivity.
Qed.

Lemma depth_member k x o : In (k, x) o -> depth x < depth (JObj o).
Proof.
  simpl. induction o as [|[k' v'] o IH]; simpl; [tauto|].
  intros [[= -> ->]|H]; [lia|]. specialize (IH H). lia.
Qed.

Lemma forIn_ext f g x n :
  depth x < n -> (forall y, depth y < n -> f y = g y) ->
  forIn f x = forIn g x.
Proof.
  intros Hn H. destruct x; simpl; auto.
  - destruct s; auto. rewrite H; [reflexivity | simpl; lia].
  - erewrite forEach_ext; [reflexivity|].
    intros y Hy. apply H. apply depth_item in Hy. lia.
  - erewrite forEachProp_ext; [reflexivity|].
    intros k y Hy. apply H. apply depth_member in Hy. lia.
Qed.

(** What a loop over an array gives, element by element. *)
Lemma forEach_Ok {A B} (f : A -> outcome B) l l' :
  forEach f l = Ok l' <-> Forall2 (fun x y => f x = Ok y) l l'.
Proof.
  revert l'. induction l as [|x l IH]; intros l'; simpl.
  - split; [intros [= <-]; constructor | inversion 1; reflexivity].
  - split.
    + destruct (f x) as [y|] eqn:Hx; simpl; [|discriminate].
      destruct (forEach f l) as [l''|] eqn:Hl; simpl; [|discriminate].
      intros [= <-]. constructor; auto. now apply IH.
    + inversion 1 as [|? y ? l'' Hx Hl]; subst. rewrite Hx. simpl.
      apply IH in Hl. rewrite Hl. reflexivity.
Qed.

Lemma forEach_total {A B} (f : A -> outcome B) l :
  Forall (fun x => exists y, f x = Ok y) l -> exists l', forEach f l = Ok l'.
Proof.
  induction 1 as [|x l [y Hy] _ [l' IH]]; simpl; eauto.
  rewrite Hy, IH. simpl. eauto.
Qed.

Lemma forEach_Throw {A B} (f : A -> outcome B) l e :
  forEach f l = Throw e -> exists x, In x l /\ f x = Throw e.
Proof.
  induction l as [|x l IH]; simpl; [discriminate|].
  destruct (f x) eqn:Hx; simpl.
  - destruct (forEach f l); simpl; [discriminate|].
    intros [= <-]. destruct IH as (y & ? & ?); eauto.
  - intros [= <-]. eauto.
Qed.

Lemma forEachProp_Throw f o e :
  forEachProp f o = Throw e -> exists k x, In (k, x) o /\ f x = Throw e.
Proof.
  induction o as [|[k x] o IH]; simpl; [discriminate|].
  destruct (f x) eqn:Hx; simpl.
  - destruct (forEachProp f o); simpl; [discriminate|].
    intros [= <-]. destruct IH as (k' & y & ? & ?); eauto.
  - intros [= <-]. eauto.
Qed.

(** A loop throws what its body threw, or [TypeError]. *)
Lemma forIn_Throw f x e n :
  depth x < n -> forIn f x = Throw e ->
  e = TypeError \/ exists y, depth y < n /\ f y = Throw e.
Proof.
  intros Hn. destruct x; simpl; try discriminate.
  - destruct s; [discriminate|].
    destruct (f _) eqn:Hf; simpl; intros [= <-]; auto.
    right. eexists. split; [|exact Hf]. simpl. lia.
  - destruct (forEach f items) eqn:Hf; simpl; [discriminate|].
    intros [= <-]. apply forEach_Throw in Hf as (y & Hy & ?).
    apply depth_item in Hy. right. exists y. split; auto. lia.
  - destruct (forEachProp f props) eqn:Hf; simpl; [discriminate|].
    intros [= <-]. apply forEachProp_Throw in Hf as (k & y & Hy & ?).
    apply depth_member in Hy. right. exists y. split; auto. lia.
Qed.

(** A loop whose body leaves its own results alone leaves its result
    alone. *)
Lemma forEach_fixed {A} (f : A -> outcome A) l l' :
  (forall x y, In x l -> f x = Ok y -> f y = Ok y) ->
  forEach f l = Ok l' -> forEach f l' = Ok l'.
Proof.
  revert l'. induction l as [|x l IH]; simpl; intros l' Hf.
  - now intros [= <-].
  - destruct (f x) as [y|] eqn:Hx; simpl; [|discriminate].
    destruct (forEach f l) as [l''|] eqn:Hl; simpl; [|discriminate].
    intros [= <-]. simpl. rewrite (Hf x y) by auto. simpl.
    rewrite (IH l''); auto. intros x' y' Hin. apply Hf. now right.
Qed.

Lemma forEachProp_fixed f o o' :
  (forall k x y, In (k, x) o -> f x = Ok y -> f y = Ok y) ->
  forEachProp f o = Ok o' -> forEachProp f o' = Ok o'.
Proof.
  revert o'. induction o as [|[k x] o IH]; simpl; intros o' Hf.
  - now intros [= <-].
  - destruct (f x) as [y|] eqn:Hx; simpl; [|discriminate].
    destruct (forEachProp f o) as [o''|] eqn:Ho; simpl; [|discriminate].
    intros [= <-]. simpl. rewrite (Hf k x y) by auto. simpl.
    rewrite (IH o''); auto. intros k' x' y' Hin. apply (Hf k'). now right.
Qed.

Lemma forIn_fixed f x x' :
  (forall y y', depth y < depth x -> f y = Ok y' -> f y' = Ok y') ->
  forIn f x = Ok x' -> forIn f x' = Ok x'.
Proof.
  intros Hf. destruct x; simpl; try (now intros [= <-]).
  - destruct s; [now intros [= <-]|].
    destruct (f _); simpl; discriminate.
  - destruct (forEach f items) as [l|] eqn:Hl; simpl; [|discriminate].
    intros [= <-]. simpl. erewrite forEach_fixed; eauto.
    intros y y' Hy. apply Hf. now apply depth_item.
  - destruct (forEachProp f props) as [o|] eqn:Ho; simpl; [|discriminate].
    intros [= <-]. simpl. erewrite forEachProp_fixed; eauto.
    intros k y y' Hy. apply Hf. eapply depth_member; eauto.
Qed.

Lemma hasOwn_Throw x k e : hasOwn x k = Throw e -> e = TypeError.
Proof. destruct x; simpl; congruence. Qed.

Lemma index_Throw x i e : index x i = Throw e -> e = TypeError.
Proof. destruct x; simpl; congruence. Qed.

End JSFacts.

(** ** Properties of realms *)

Module RealmFacts.
Import JS JSFacts Cdp Context RealmModel.

#[local] Arguments depth : simpl never.

Section Realm.

Variable Number_toString : number -> string.
Variable SHARED_ID_DIVIDER : string.
Variable browsingContextStorage : BrowsingContextStorage.
Variable this : Realm.

Local Abbreviation toString := (toString Number_toString).
Local Abbreviation template := (template Number_toString).
Local Abbreviation navigableId := (get_navigableId browsingContextStorage this).
Local Abbreviation body :=
  (deepSerializedToBiDi_body Number_toString SHARED_ID_DIVIDER
     browsingContextStorage this).
Local Abbreviation deep_fuel :=
  (deepSerializedToBiDi_fuel Number_toString SHARED_ID_DIVIDER
     browsingContextStorage this).
Local Abbreviation deep :=
  (deepSerializedToBiDi Number_toString SHARED_ID_DIVIDER
     browsingContextStorage this).
Local Abbreviation renamed := (renamed Number_toString).
Local Abbreviation nodeCase :=
  (nodeCase Number_toString SHARED_ID_DIVIDER browsingContextStorage this).
Local Abbreviation bodyCases :=
  (bodyCases Number_toString SHARED_ID_DIVIDER browsingContextStorage this).

(** *** The conversion to a string *)

(** An array is joined by the loop over its elements. *)
Lemma toString_array items :
  toString (JArr items) =
  String.concat "," <$>
    forEach (fun x => match x with JNull => Ok "" | _ => toString x end)
      items.
Proof.
  simpl. f_equal. induction items as [|x items IH]; [reflexivity|].
  simpl. now rewrite IH.
Qed.

(** The conversion throws nothing but [TypeError]. *)
Lemma toString_Throw v e : toString v = Throw e -> e = TypeError.
Proof.
  remember (depth v) as n eqn:Hn. revert v Hn e.
  induction n as [n IH] using lt_wf_ind. intros v -> e.
  destruct v as [| [|] | n | s | items | o]; try (simpl; discriminate).
  - rewrite toString_array.
    destruct (forEach _ items) as [l|e'] eqn:Hl; simpl; [discriminate|].
    intros [= <-]. apply forEach_Throw in Hl as (x & Hx & Hl).
    apply depth_item in Hx.
    destruct x; try discriminate; eapply IH; eauto.
  - simpl. destruct (has "toString" o); [|discriminate]. now intros [= <-].
Qed.

Lemma template_Throw x e : template x = Throw e -> e = TypeError.
Proof. destruct x; simpl; [apply toString_Throw | discriminate]. Qed.

(** A member that is a number, or is not there, is converted. *)
Lemma template_integer x :
  integerIfAny x = true -> exists s, template x = Ok s.
Proof. destruct x as [[]|]; simpl; try discriminate; eauto. Qed.

(** *** The renaming *)

Lemma renamed_fixed o :
  get "weakLocalObjectReference" o = None -> renamed o = Ok o.
Proof. unfold RealmModel.renamed. now intros ->. Qed.

Lemma renamed_Throw o e : renamed o = Throw e -> e = TypeError.
Proof.
  unfold RealmModel.renamed.
  destruct (get "weakLocalObjectReference" o) as [w|]; [|discriminate].
  destruct (toString w) eqn:Hw; simpl; [discriminate|].
  intros [= <-]. eapply toString_Throw; eauto.
Qed.

Lemma renamed_integer o :
  integerIfAny (get "weakLocalObjectReference" o) = true ->
  exists result, renamed o = Ok result.
Proof.
  unfold RealmModel.renamed.
  destruct (get "weakLocalObjectReference" o) as [[]|]; simpl;
    try discriminate; eauto.
Qed.

Lemma get_renamed k o result :
  renamed o = Ok result ->
  k <> "weakLocalObjectReference" -> k <> "internalId" ->
  get k result = get k o.
Proof.
  unfold RealmModel.renamed. intros H H1 H2.
  destruct (get "weakLocalObjectReference" o) as [w|].
  - destruct (toString w); simpl in H; [|discriminate]. injection H as <-.
    rewrite get_remove_ne, get_set_ne; auto.
  - now injection H as <-.
Qed.

Lemma renamed_weakLocalObjectReference o result :
  renamed o = Ok result -> get "weakLocalObjectReference" result = None.
Proof.
  unfold RealmModel.renamed.
  destruct (get "weakLocalObjectReference" o) as [w|] eqn:E.
  - destruct (toString w); simpl; [|discriminate]. intros [= <-].
    apply get_remove_eq.
  - now intros [= <-].
Qed.

Lemma renamed_internalId o result w :
  renamed o = Ok result ->
  get "weakLocalObjectReference" o = Some w ->
  exists s, toString w = Ok s /\ get "internalId" result = Some (JStr s).
Proof.
  unfold RealmModel.renamed. intros H Hw. rewrite Hw in H.
  destruct (toString w) as [s|]; simpl in H; [|discriminate].
  injection H as <-. exists s. split; [reflexivity|].
  rewrite get_remove_ne by discriminate. apply get_set_eq.
Qed.

(** *** The recursion is well defined *)

Lemma call_ext rec1 rec2 x n :
  (forall y, x = Some y -> depth y < n) ->
  (forall y, depth y < n -> rec1 y = rec2 y) ->
  call rec1 x = call rec2 x.
Proof. destruct x; simpl; auto. Qed.

Lemma entry_ext rec1 rec2 e n :
  depth e < n -> (forall y, depth y < n -> rec1 y = rec2 y) ->
  entry rec1 e = entry rec2 e.
Proof.
  intros Hn H. unfold entry.
  destruct (index e 0) as [e0|] eqn:H0; simpl; auto.
  rewrite (call_ext rec1 rec2 e0 n); auto.
  2:{ intros y ->. eapply depth_index; eauto. }
  destruct (call rec2 e0); simpl; auto.
  destruct (index e 1) as [e1|] eqn:H1; simpl; auto.
  rewrite (call_ext rec1 rec2 e1 n); auto.
  intros y ->. eapply depth_index; eauto.
Qed.

Lemma isString_exclusive v s1 s2 :
  s1 <> s2 -> isString v s1 = true -> isString v s2 = false.
Proof.
  intros Hne H. apply isString_true in H. subst v. simpl.
  destruct (String.eqb_spec s1 s2); congruence.
Qed.

Lemma body_cases rec o : body rec (JObj o) = bodyCases rec o.
Proof.
  unfold deepSerializedToBiDi_body, RealmModel.bodyCases.
  change (match get "weakLocalObjectReference" o with
          | Some w =>
              internalId ← toString w;
              Ok (remove "weakLocalObjectReference"
                    (set "internalId" (JStr internalId) o))
          | None => Ok o
          end) with (renamed o).
  destruct (renamed o) as [result|] eqn:Hren; simpl; [|reflexivity].
  rewrite !(get_renamed "type" o result), (get_renamed "value" o result)
    by first [assumption | discriminate].
  destruct (isString (get "type" o) "platformobject"); auto.
  destruct (get "value" o) as [bidiValue|] eqn:Hv; auto.
  destruct (isString (get "type" o) "node") eqn:Hnode.
  - assert (Hrest : forall (r : object) bv,
               get "type" r = get "type" o ->
               (bidiValue0 ←
                  (if isString (get "type" r) "array"
                      || isString (get "type" r) "set"
                   then forIn rec bv else Ok bv);
                bidiValue1 ←
                  (if isString (get "type" r) "object"
                      || isString (get "type" r) "map"
                   then forIn (entry rec) bidiValue0 else Ok bidiValue0);
                Ok (JObj (set "value" bidiValue1 r))) =
               Ok (JObj (set "value" bv r))).
    { intros r bv ->.
      rewrite (isString_exclusive _ "node" "array"),
        (isString_exclusive _ "node" "set"),
        (isString_exclusive _ "node" "object"),
        (isString_exclusive _ "node" "map")
        by first [assumption | discriminate].
      reflexivity. }
    assert (Hshared : forall x,
               get "type" (set "sharedId" x result) = get "type" o).
    { intros x. rewrite get_set_ne by discriminate.
      apply get_renamed; first [assumption | discriminate]. }
    assert (Hren' : get "type" result = get "type" o)
      by (apply get_renamed; first [assumption | discriminate]).
    unfold RealmModel.nodeCase. simpl.
    destruct (hasOwn bidiValue "backendNodeId") as [[]|]; simpl; auto.
    + fold (template (prop bidiValue "backendNodeId")).
      destruct (template (prop bidiValue "backendNodeId")); simpl; auto.
      destruct (hasOwn (deleteProp "backendNodeId" bidiValue) "children")
        as [[]|]; simpl; auto.
      destruct (prop (deleteProp "backendNodeId" bidiValue) "children");
        simpl; auto.
      destruct (forIn rec v); simpl; auto.
    + destruct (hasOwn bidiValue "children") as [[]|]; simpl; auto.
      destruct (prop bidiValue "children"); simpl; auto.
      destruct (forIn rec v); simpl; auto.
  - simpl.
    rewrite !(get_renamed "type" o result)
      by first [assumption | discriminate].
    destruct (isString (get "type" o) "array") eqn:Harray.
    { rewrite (isString_exclusive _ "array" "object"),
        (isString_exclusive _ "array" "map")
        by first [assumption | discriminate].
      simpl. destruct (forIn rec bidiValue); auto. }
    destruct (isString (get "type" o) "set") eqn:Hset.
    { rewrite (isString_exclusive _ "set" "object"),
        (isString_exclusive _ "set" "map")
        by first [assumption | discriminate].
      simpl. destruct (forIn rec bidiValue); auto. }
    simpl.
    destruct (isString (get "type" o) "object"
              || isString (get "type" o) "map"); simpl.
    + destruct (forIn (entry rec) bidiValue); auto.
    + rewrite set_same; auto.
      rewrite (get_renamed "value" o result)
        by first [assumption | discriminate].
      auto.
Qed.
Lemma depth_children bidiValue children (hasBackendNodeId : bool) :
  prop (if hasBackendNodeId then deleteProp "backendNodeId" bidiValue
        else bidiValue) "children" = Some children ->
  depth children < depth bidiValue.
Proof.
  destruct bidiValue; destruct hasBackendNodeId; simpl; try discriminate.
  - rewrite get_remove_ne by discriminate. apply depth_prop.
  - apply depth_prop.
Qed.

Lemma bodyCases_ext rec1 rec2 o :
  (forall x, depth x < depth (JObj o) -> rec1 x = rec2 x) ->
  bodyCases rec1 o = bodyCases rec2 o.
Proof.
  intros H. unfold RealmModel.bodyCases.
  destruct (renamed o) as [result|]; simpl; auto.
  destruct (isString (get "type" o) "platformobject"); auto.
  destruct (get "value" o) as [bidiValue|] eqn:Hv; auto.
  pose proof (depth_prop _ _ _ Hv) as Hd.
  destruct (isString (get "type" o) "node").
  { unfold RealmModel.nodeCase.
    destruct (hasOwn bidiValue "backendNodeId") as [hasB|]; simpl; auto.
    destruct (if hasB then _ else Ok result) as [result'|]; simpl; auto.
    destruct (hasOwn _ "children") as [[]|]; simpl; auto.
    destruct (prop _ "children") as [children|] eqn:Hc; simpl; auto.
    apply depth_children in Hc.
    rewrite (forIn_ext rec1 rec2 children (depth (JObj o))); auto. lia. }
  destruct (_ || _).
  { rewrite (forIn_ext rec1 rec2 bidiValue (depth (JObj o))); auto. }
  destruct (_ || _); auto.
  rewrite (forIn_ext (entry rec1) (entry rec2) bidiValue (depth (JObj o)));
    auto.
  intros y Hy. eapply entry_ext; eauto.
Qed.

Lemma body_ext rec1 rec2 v :
  (forall x, depth x < depth v -> rec1 x = rec2 x) ->
  body rec1 v = body rec2 v.
Proof.
  destruct v; try reflexivity.
  intros H. rewrite !body_cases. now apply bodyCases_ext.
Qed.

(** Any fuel above the depth of the value gives the same. *)
Lemma deep_fuel_stable n m v :
  depth v < n -> depth v < m -> deep_fuel n v = deep_fuel m v.
Proof.
  revert m v. induction n as [|n IH]; intros [|m] v Hn Hm; try lia.
  simpl. apply body_ext. intros x Hx. apply IH; lia.
Qed.

(** [deepSerializedToBiDi] is the method of the source: it is its body,
    with itself at the recursive calls. *)
Lemma deep_unfold v : deep v = body deep v.
Proof.
  unfold deepSerializedToBiDi at 1. simpl. apply body_ext.
  intros x Hx. apply deep_fuel_stable; lia.
Qed.

Lemma deep_object o : deep (JObj o) = bodyCases deep o.
Proof. rewrite deep_unfold. apply body_cases. Qed.

Lemma deep_string s : deep (JStr s) = Ok (JStr s).
Proof. reflexivity. Qed.

(** *** What it throws *)

Lemma entry_Throw rec e err n :
  depth e < n -> entry rec e = Throw err ->
  err = TypeError \/ exists y, depth y < n /\ rec y = Throw err.
Proof.
  intros Hn. unfold entry.
  destruct (index e 0) as [e0|] eqn:H0; simpl.
  2:{ intros [= <-]. left. eapply index_Throw; eauto. }
  destruct e0 as [y0|]; simpl; [|intros [= <-]; auto].
  destruct (rec y0) eqn:Hy0; simpl.
  2:{ intros [= <-]. right. exists y0. split; auto.
      eapply depth_index; eauto. }
  destruct (index e 1) as [e1|] eqn:H1; simpl.
  2:{ intros [= <-]. left. eapply index_Throw; eauto. }
  destruct e1 as [y1|]; simpl; [|intros [= <-]; auto].
  destruct (rec y1) eqn:Hy1; simpl; [discriminate|].
  intros [= <-]. right. exists y1. split; auto.
  eapply depth_index; eauto.
Qed.

Lemma bodyCases_Throw rec o e :
  bodyCases rec o = Throw e ->
  e = TypeError \/ exists x, depth x < depth (JObj o) /\ rec x = Throw e.
Proof.
  unfold RealmModel.bodyCases.
  destruct (renamed o) as [result|] eqn:Hren; simpl.
  2:{ intros [= <-]. left. eapply renamed_Throw; eauto. }
  destruct (isString (get "type" o) "platformobject"); [discriminate|].
  destruct (get "value" o) as [bidiValue|] eqn:Hv; [|discriminate].
  pose proof (depth_prop _ _ _ Hv) as Hd.
  destruct (isString (get "type" o) "node").
  { unfold RealmModel.nodeCase.
    destruct (hasOwn bidiValue "backendNodeId") as [hasB|] eqn:HB; simpl.
    2:{ intros [= <-]. left. eapply hasOwn_Throw; eauto. }
    destruct (if hasB then _ else Ok result) as [result'|] eqn:Hshared; simpl.
    2:{ intros [= <-]. left. destruct hasB; [|discriminate].
        destruct (template (prop bidiValue "backendNodeId")) eqn:Ht;
          simpl in Hshared; [discriminate|].
        injection Hshared as <-. eapply template_Throw; eauto. }
    destruct (hasOwn _ "children") as [[]|] eqn:HC; simpl;
      try discriminate.
    2:{ intros [= <-]. left. eapply hasOwn_Throw; eauto. }
    destruct (prop _ "children") as [children|] eqn:Hc; simpl;
      [|discriminate].
    apply depth_children in Hc.
    destruct (forIn rec children) eqn:Hf; simpl; [discriminate|].
    intros [= <-].
    apply (forIn_Throw rec children e0 (depth (JObj o))); [lia | exact Hf]. }
  destruct (_ || _).
  { destruct (forIn rec bidiValue) eqn:Hf; simpl; [discriminate|].
    intros [= <-]. eapply forIn_Throw; eauto. }
  destruct (_ || _); [|discriminate].
  destruct (forIn (entry rec) bidiValue) eqn:Hf; simpl; [discriminate|].
  intros [= <-].
  eapply forIn_Throw in Hf as [->|(y & Hy & Hf)]; eauto.
  eapply entry_Throw; eauto.
Qed.

(** [deepSerializedToBiDi] throws nothing but [TypeError]: the fuel it is
    given never runs out. *)
Lemma deep_Throw v e : deep v = Throw e -> e = TypeError.
Proof.
  remember (depth v) as n eqn:Hn. revert v Hn e.
  induction n as [n IH] using lt_wf_ind. intros v -> e.
  destruct v; try (rewrite deep_unfold; simpl; congruence).
  rewrite deep_object. intros H.
  apply bodyCases_Throw in H as [->|(x & Hx & H)]; auto.
  eapply IH; eauto.
Qed.

Lemma deep_fuel_enough v : deep v <> Throw OutOfFuel.
Proof. intros H. apply deep_Throw in H. discriminate. Qed.

(** *** What it returns *)

(** Apart from [value] and [sharedId], the object returned for an object
    that is no platform object has the properties of the renamed input. *)
Lemma bodyCases_kept rec o r :
  bodyCases rec o = Ok r ->
  isString (get "type" o) "platformobject" = false ->
  exists result o', renamed o = Ok result /\ r = JObj o' /\
    forall k, k <> "value" -> k <> "sharedId" -> get k o' = get k result.
Proof.
  unfold RealmModel.bodyCases. intros H Hp.
  destruct (renamed o) as [result|] eqn:Hren; simpl in H; [|discriminate].
  exists result. rewrite Hp in H.
  destruct (get "value" o) as [bidiValue|] eqn:Hv.
  2:{ injection H as <-. eauto. }
  destruct (isString (get "type" o) "node").
  { unfold RealmModel.nodeCase in H.
    destruct (hasOwn bidiValue "backendNodeId") as [hasB|]; simpl in H;
      [|discriminate].
    destruct (if hasB then _ else Ok result) as [result'|] eqn:Hshared;
      simpl in H; [|discriminate].
    destruct (hasOwn _ "children") as [hasC|]; simpl in H; [|discriminate].
    match type of H with
    | (?m ≫= _) = _ => destruct m as [bv2|]; simpl in H; [|discriminate]
    end.
    injection H as <-. eexists. split; [reflexivity|]. split; [reflexivity|].
    intros k H1 H2. rewrite get_set_ne by auto.
    destruct hasB; [|now injection Hshared as <-].
    destruct (template (prop bidiValue "backendNodeId")); simpl in Hshared;
      [|discriminate].
    injection Hshared as <-. now rewrite get_set_ne by auto. }
  destruct (_ || _).
  { destruct (forIn rec bidiValue); simpl in H; [|discriminate].
    injection H as <-. eexists. split; [reflexivity|]. split; [reflexivity|].
    intros k H1 H2. now rewrite get_set_ne by auto. }
  destruct (_ || _).
  { destruct (forIn (entry rec) bidiValue); simpl in H; [|discriminate].
    injection H as <-. eexists. split; [reflexivity|]. split; [reflexivity|].
    intros k H1 H2. now rewrite get_set_ne by auto. }
  injection H as <-. eauto.
Qed.

(** For an object, an object. *)
Lemma deep_object_object o r : deep (JObj o) = Ok r -> exists o', r = JObj o'.
Proof.
  rewrite deep_object. intros H.
  destruct (isString (get "type" o) "platformobject") eqn:Hp.
  - unfold RealmModel.bodyCases in H.
    destruct (renamed o); simpl in H; [|discriminate].
    rewrite Hp in H. injection H as <-. eauto.
  - apply bodyCases_kept in H as (result & o' & _ & -> & _); eauto.
Qed.

(** The renaming: [weakLocalObjectReference] goes, [internalId] holds its
    text. *)
Lemma deep_renames o r :
  deep (JObj o) = Ok r ->
  isString (get "type" o) "platformobject" = false ->
  exists o', r = JObj o' /\
    get "weakLocalObjectReference" o' = None /\
    forall w, get "weakLocalObjectReference" o = Some w ->
      exists s, toString w = Ok s /\ get "internalId" o' = Some (JStr s).
Proof.
  rewrite deep_object. intros H Hp.
  apply bodyCases_kept in H as (result & o' & Hren & -> & Hk); auto.
  exists o'. split; [reflexivity|]. split.
  - rewrite Hk by discriminate.
    eapply renamed_weakLocalObjectReference; eauto.
  - intros w Hw. rewrite Hk by discriminate.
    eapply renamed_internalId; eauto.
Qed.

(** The platform object: where the method returns, it returns this. *)
Lemma deep_platformobject o r :
  isString (get "type" o) "platformobject" = true ->
  deep (JObj o) = Ok r -> r = JObj [("type", JStr "object")].
Proof.
  intros H. rewrite deep_object. unfold RealmModel.bodyCases.
  destruct (renamed o); simpl; [|discriminate]. rewrite H. congruence.
Qed.

(** The node: what [nodeCase] gives for a [value] that is an object. *)
Lemma deep_node o node r :
  isString (get "type" o) "node" = true ->
  get "value" o = Some (JObj node) ->
  deep (JObj o) = Ok r ->
  exists o' node', r = JObj o' /\ get "value" o' = Some (JObj node') /\
    get "backendNodeId" node' = None /\
    (forall backendNodeId,
       get "backendNodeId" node = Some backendNodeId ->
       exists s, toString backendNodeId = Ok s /\
         get "sharedId" o' =
         Some (JStr (navigableId +:+ SHARED_ID_DIVIDER +:+ s))) /\
    (forall children,
       get "children" node = Some children ->
       exists children', forIn deep children = Ok children' /\
         get "children" node' = Some children').
Proof.
  intros Hn Hv. rewrite deep_object. unfold RealmModel.bodyCases.
  destruct (renamed o) as [result|]; simpl; [|discriminate].
  rewrite (isString_exclusive (get "type" o) "node" "platformobject")
    by first [assumption | discriminate].
  rewrite Hv, Hn. unfold RealmModel.nodeCase. simpl. unfold has.
  destruct (get "backendNodeId" node) as [b|] eqn:Hb; simpl; unfold has.
  - destruct (toString b) as [s|] eqn:Hs; simpl; [|discriminate].
    rewrite !get_remove_ne by discriminate.
    destruct (get "children" node) as [children|] eqn:Hc; simpl.
    + destruct (forIn deep children) as [children'|] eqn:Hf; simpl;
        [|discriminate].
      intros [= <-]. eexists _, _. split; [reflexivity|].
      rewrite get_set_eq. split; [reflexivity|].
      rewrite get_set_ne, get_remove_eq by discriminate.
      split; [reflexivity|]. split.
      * intros ? [= <-]. exists s. split; [assumption|].
        rewrite get_set_ne, get_set_eq by discriminate. reflexivity.
      * intros ? [= <-]. rewrite get_set_eq. eauto.
    + intros [= <-]. eexists _, _. split; [reflexivity|].
      rewrite get_set_eq. split; [reflexivity|].
      rewrite get_remove_eq. split; [reflexivity|]. split.
      * intros ? [= <-]. exists s. split; [assumption|].
        rewrite get_set_ne, get_set_eq by discriminate. reflexivity.
      * discriminate.
  - destruct (get "children" node) as [children|] eqn:Hc; simpl.
    + destruct (forIn deep children) as [children'|] eqn:Hf; simpl;
        [|discriminate].
      intros [= <-]. eexists _, _. split; [reflexivity|].
      rewrite get_set_eq. split; [reflexivity|].
      rewrite get_set_ne by discriminate.
      split; [assumption|]. split; [discriminate|].
      intros ? [= <-]. rewrite get_set_eq. eauto.
    + intros [= <-]. eexists _, _. split; [reflexivity|].
      rewrite get_set_eq. split; [reflexivity|].
      split; [assumption|]. split; discriminate.
Qed.

(** Arrays and sets: the loop over [value]. *)
Lemma deep_list o bidiValue r :
  isString (get "type" o) "array" || isString (get "type" o) "set" = true ->
  get "value" o = Some bidiValue ->
  deep (JObj o) = Ok r ->
  exists o' bidiValue', r = JObj o' /\
    forIn deep bidiValue = Ok bidiValue' /\
    get "value" o' = Some bidiValue'.
Proof.
  intros Ht Hv. rewrite deep_object. unfold RealmModel.bodyCases.
  destruct (renamed o) as [result|]; simpl; [|discriminate].
  assert (isString (get "type" o) "platformobject" = false) as ->.
  { apply orb_true_iff in Ht as [Ht|Ht];
      eapply isString_exclusive; eauto; discriminate. }
  assert (isString (get "type" o) "node" = false) as ->.
  { apply orb_true_iff in Ht as [Ht|Ht];
      eapply isString_exclusive; eauto; discriminate. }
  rewrite Hv, Ht.
  destruct (forIn deep bidiValue) as [bv'|]; simpl; [|discriminate].
  intros [= <-]. eexists _, _. split; [reflexivity|].
  split; [reflexivity|]. apply get_set_eq.
Qed.

(** Objects and maps: the loop over the entries of [value]. *)
Lemma deep_mapping o bidiValue r :
  isString (get "type" o) "object" || isString (get "type" o) "map" = true ->
  get "value" o = Some bidiValue ->
  deep (JObj o) = Ok r ->
  exists o' bidiValue', r = JObj o' /\
    forIn (entry deep) bidiValue = Ok bidiValue' /\
    get "value" o' = Some bidiValue'.
Proof.
  intros Ht Hv. rewrite deep_object. unfold RealmModel.bodyCases.
  destruct (renamed o) as [result|]; simpl; [|discriminate].
  assert (isString (get "type" o) "platformobject" = false) as ->.
  { apply orb_true_iff in Ht as [Ht|Ht];
      eapply isString_exclusive; eauto; discriminate. }
  assert (isString (get "type" o) "node" = false) as ->.
  { apply orb_true_iff in Ht as [Ht|Ht];
      eapply isString_exclusive; eauto; discriminate. }
  assert (isString (get "type" o) "array"
          || isString (get "type" o) "set" = false) as ->.
  { apply orb_false_iff.
    apply orb_true_iff in Ht as [Ht|Ht]; split;
      eapply isString_exclusive; eauto; discriminate. }
  rewrite Hv, Ht.
  destruct (forIn (entry deep) bidiValue) as [bv'|]; simpl; [|discriminate].
  intros [= <-]. eexists _, _. split; [reflexivity|].
  split; [reflexivity|]. apply get_set_eq.
Qed.

(** *** It returns for what CDP sends *)

Lemma entry_pair rec k x :
  entry rec (JArr [k; x]) = k' ← rec k; x' ← rec x; Ok (JArr [k'; x']).
Proof. reflexivity. Qed.

Lemma depth_entry k x entries o :
  get "value" o = Some (JArr entries) -> In (JArr [k; x]) entries ->
  depth k < depth (JObj o) /\ depth x < depth (JObj o).
Proof.
  intros Hv Hin. apply depth_prop in Hv. apply depth_item in Hin.
  pose proof (depth_item k [k; x] ltac:(simpl; auto)).
  pose proof (depth_item x [k; x] ltac:(simpl; auto)). lia.
Qed.


Lemma deep_total v : WellFormed v -> exists r, deep v = Ok r.
Proof.
  remember (depth v) as n eqn:Hn. revert v Hn.
  induction n as [n IH] using lt_wf_ind. intros v -> Hwf.
  assert (Hitems : forall items,
             (forall x, In x items -> depth x < depth v) ->
             Forall WellFormed items ->
             exists items', forEach deep items = Ok items').
  { intros items Hd Hall. apply forEach_total.
    apply Forall_forall. intros x Hx. rewrite Forall_forall in Hall.
    eapply IH; [apply Hd, list_elem_of_In, Hx | reflexivity | auto]. }
  inversion Hwf as
    [o Hw Hp|o Hw Hv|o node Hw Ht Hv Hb Hc|o node items Hw Ht Hv Hb Hc Hall
    |o items Hw Ht Hv Hall|o entries Hw Ht Hv Hall|o Hw Hp Hn Hl Hm];
    subst v; destruct (renamed_integer o Hw) as [result Hren].
  - rewrite deep_object. unfold RealmModel.bodyCases.
    rewrite Hren, Hp. simpl. eauto.
  - rewrite deep_object. unfold RealmModel.bodyCases. rewrite Hren, Hv. simpl.
    destruct (isString _ "platformobject"); eauto.
  - rewrite deep_object. unfold RealmModel.bodyCases. rewrite Hren. simpl.
    rewrite (isString_exclusive (get "type" o) "node" "platformobject")
      by first [assumption | discriminate].
    rewrite Hv, Ht. unfold RealmModel.nodeCase. simpl. unfold has.
    destruct (get "backendNodeId" node) as [[]|]; simpl in Hb;
      try discriminate Hb; simpl; unfold has;
      rewrite ?get_remove_ne by discriminate; rewrite Hc; simpl; eauto.
  - destruct (Hitems items) as [items' Hi]; auto.
    { intros x Hx. apply depth_item in Hx.
      apply depth_prop in Hc, Hv. lia. }
    rewrite deep_object. unfold RealmModel.bodyCases. rewrite Hren. simpl.
    rewrite (isString_exclusive (get "type" o) "node" "platformobject")
      by first [assumption | discriminate].
    rewrite Hv, Ht. unfold RealmModel.nodeCase. simpl. unfold has.
    destruct (get "backendNodeId" node) as [[]|]; simpl in Hb;
      try discriminate Hb; simpl; unfold has;
      rewrite ?get_remove_ne by discriminate; rewrite Hc; simpl;
      rewrite Hi; simpl; eauto.
  - destruct (Hitems items) as [items' Hi]; auto.
    { intros x Hx. apply depth_item in Hx. apply depth_prop in Hv. lia. }
    rewrite deep_object. unfold RealmModel.bodyCases. rewrite Hren. simpl.
    assert (isString (get "type" o) "platformobject" = false) as ->.
    { apply orb_true_iff in Ht as [Ht|Ht];
        eapply isString_exclusive; eauto; discriminate. }
    assert (isString (get "type" o) "node" = false) as ->.
    { apply orb_true_iff in Ht as [Ht|Ht];
        eapply isString_exclusive; eauto; discriminate. }
    rewrite Hv, Ht. simpl. rewrite Hi. simpl. eauto.
  - assert (exists entries', forEach (entry deep) entries = Ok entries')
      as [entries' He].
    { apply forEach_total. apply Forall_forall. intros e He.
      rewrite Forall_forall in Hall. specialize (Hall e He).
      apply list_elem_of_In in He.
      inversion Hall as [s x Hx|k x Hk Hx]; subst e;
        destruct (depth_entry _ _ _ _ Hv He) as [Hdk Hdx];
        rewrite entry_pair.
      - rewrite deep_string. simpl.
        destruct (IH _ Hdx x eq_refl Hx) as [x' ->]. simpl. eauto.
      - destruct (IH _ Hdk k eq_refl Hk) as [k' ->]. simpl.
        destruct (IH _ Hdx x eq_refl Hx) as [x' ->]. simpl. eauto. }
    rewrite deep_object. unfold RealmModel.bodyCases. rewrite Hren. simpl.
    assert (isString (get "type" o) "platformobject" = false) as ->.
    { apply orb_true_iff in Ht as [Ht|Ht];
        eapply isString_exclusive; eauto; discriminate. }
    assert (isString (get "type" o) "node" = false) as ->.
    { apply orb_true_iff in Ht as [Ht|Ht];
        eapply isString_exclusive; eauto; discriminate. }
    assert (isString (get "type" o) "array"
            || isString (get "type" o) "set" = false) as ->.
    { apply orb_false_iff.
      apply orb_true_iff in Ht as [Ht|Ht]; split;
        eapply isString_exclusive; eauto; discriminate. }
    rewrite Hv, Ht. simpl. rewrite He. simpl. eauto.
  - rewrite deep_object. unfold RealmModel.bodyCases.
    rewrite Hren, Hp, Hn, Hl, Hm. simpl.
    destruct (get "value" o); eauto.
Qed.

Lemma entry_Ok rec e e' :
  entry rec e = Ok e' ->
  exists k x k' x',
    index e 0 = Ok (Some k) /\ index e 1 = Ok (Some x) /\
    rec k = Ok k' /\ rec x = Ok x' /\ e' = JArr [k'; x'].
Proof.
  unfold entry.
  destruct (index e 0) as [[k|]|]; simpl; try discriminate.
  destruct (rec k) as [k'|] eqn:Hk; simpl; try discriminate.
  destruct (index e 1) as [[x|]|]; simpl; try discriminate.
  destruct (rec x) as [x'|] eqn:Hx; simpl; try discriminate.
  intros [= <-]. eexists _, _, _, _. eauto.
Qed.


(** C2, as amended. For a value of the shape CDP sends,
    [deepSerializedToBiDi] returns; and what it returns for an object [o]
    is: for a platform object exactly [{type: 'object'}], whatever else
    [o] had; for any other an object without [weakLocalObjectReference],
    whose [internalId] is the text of the [weakLocalObjectReference] [o]
    had; for a node whose [value] carries a [backendNodeId], [sharedId] is
    the realm's navigable id, the divider and the text of the
    [backendNodeId], and the [value] has lost [backendNodeId]; the children
    of a node, the elements of an array or a set and the two components of
    every entry of an object or a map are the results of
    [deepSerializedToBiDi] on those of [o]. The two texts are what the
    template literals make of the members: where the method has returned
    they were made, which for the integers of CDP they always are. *)
Theorem deepSerializedToBiDi_transforms o :
  (WellFormed (JObj o) -> exists r, deep (JObj o) = Ok r) /\
  forall r, deep (JObj o) = Ok r ->
    (isString (get "type" o) "platformobject" = true ->
     r = JObj [("type", JStr "object")]) /\
    (isString (get "type" o) "platformobject" = false ->
     exists o', r = JObj o' /\
       get "weakLocalObjectReference" o' = None /\
       (forall w, get "weakLocalObjectReference" o = Some w ->
          exists s, toString w = Ok s /\
            get "internalId" o' = Some (JStr s)) /\
       (forall node,
          isString (get "type" o) "node" = true ->
          get "value" o = Some (JObj node) ->
          exists node',
            get "value" o' = Some (JObj node') /\
            get "backendNodeId" node' = None /\
            (forall backendNodeId,
               get "backendNodeId" node = Some backendNodeId ->
               exists s, toString backendNodeId = Ok s /\
                 get "sharedId" o' =
                 Some (JStr (navigableId +:+ SHARED_ID_DIVIDER +:+ s))) /\
            (forall children,
               get "children" node = Some (JArr children) ->
               exists children',
                 get "children" node' = Some (JArr children') /\
                 Forall2 (fun x y => deep x = Ok y) children children')) /\
       (forall items,
          isString (get "type" o) "array"
          || isString (get "type" o) "set" = true ->
          get "value" o = Some (JArr items) ->
          exists items',
            get "value" o' = Some (JArr items') /\
            Forall2 (fun x y => deep x = Ok y) items items') /\
       (forall entries,
          isString (get "type" o) "object"
          || isString (get "type" o) "map" = true ->
          get "value" o = Some (JArr entries) ->
          exists entries',
            get "value" o' = Some (JArr entries') /\
            Forall2
              (fun e e' =>
                 exists k x k' x',
                   index e 0 = Ok (Some k) /\ index e 1 = Ok (Some x) /\
                   deep k = Ok k' /\ deep x = Ok x' /\
                   e' = JArr [k'; x'])
              entries entries')).
Proof.
  split; [apply deep_total|]. intros r Hr. split.
  { intros Hp. eapply deep_platformobject; eauto. }
  intros Hp.
  destruct (deep_renames o r Hr Hp) as (o' & -> & Hweak & Hid).
  exists o'. split; [reflexivity|]. split; [assumption|].
  split; [assumption|]. split; [|split].
  - intros node Ht Hv.
    destruct (deep_node o node _ Ht Hv Hr)
      as (o'' & node' & [= <-] & Hv' & Hb & Hs & Hc).
    exists node'. repeat split; auto.
    intros children Hch. destruct (Hc _ Hch) as (children' & Hf & Hc').
    simpl in Hf.
    destruct (forEach deep children) as [l|] eqn:Hl; simpl in Hf;
      [|discriminate].
    injection Hf as <-. exists l. split; auto. now apply forEach_Ok.
  - intros items Ht Hv.
    destruct (deep_list o _ _ Ht Hv Hr) as (o'' & bv' & [= <-] & Hf & Hv').
    simpl in Hf.
    destruct (forEach deep items) as [l|] eqn:Hl; simpl in Hf;
      [|discriminate].
    injection Hf as <-. exists l. split; auto. now apply forEach_Ok.
  - intros entries Ht Hv.
    destruct (deep_mapping o _ _ Ht Hv Hr) as (o'' & bv' & [= <-] & Hf & Hv').
    simpl in Hf.
    destruct (forEach (entry deep) entries) as [l|] eqn:Hl; simpl in Hf;
      [|discriminate].
    injection Hf as <-. exists l. split; auto.
    apply forEach_Ok in Hl.
    eapply Forall2_impl; [exact Hl|]. intros e e' He. now apply entry_Ok.
Qed.

(** C10. When the storage has no context for the realm, or the context
    has no navigable id yet, the [navigableId] getter gives "UNKNOWN"; so a
    node whose [value] carries a [backendNodeId] gets, where
    [deepSerializedToBiDi] returns, as it does for what CDP sends, the
    [sharedId] made of "UNKNOWN", the divider and the text of the
    [backendNodeId]. *)
Theorem navigableId_unknown :
  findContext browsingContextStorage (browsingContextId this) = None \/
  (exists c,
     findContext browsingContextStorage (browsingContextId this) = Some c /\
     Context.navigableId c = None) ->
  navigableId = "UNKNOWN" /\
  forall o node backendNodeId,
    isString (get "type" o) "node" = true ->
    get "value" o = Some (JObj node) ->
    get "backendNodeId" node = Some backendNodeId ->
    (WellFormed (JObj o) -> exists r, deep (JObj o) = Ok r) /\
    forall r, deep (JObj o) = Ok r ->
      exists o' s, r = JObj o' /\
        toString backendNodeId = Ok s /\
        get "sharedId" o' =
        Some (JStr ("UNKNOWN" +:+ SHARED_ID_DIVIDER +:+ s)).
Proof.
  intros H.
  assert (Hnav : navigableId = "UNKNOWN").
  { unfold get_navigableId. destruct H as [->|(c & -> & ->)]; reflexivity. }
  split; [exact Hnav|].
  intros o node b Ht Hv Hb. split; [apply deep_total|].
  intros r Hr.
  destruct (deep_node o node r Ht Hv Hr) as (o' & node' & -> & _ & _ & Hs & _).
  destruct (Hs b Hb) as (s & Hs1 & Hs2).
  exists o', s. split; [reflexivity|]. split; [assumption|].
  rewrite Hs2, Hnav. reflexivity.
Qed.

(** The value [cdpToBidiValue] starts from. *)
Lemma cdpToBidiValue_call cdpValue dsv :
  deepSerializedValue cdpValue = Some dsv ->
  call deep (JObj <$> deepSerializedValue cdpValue) = deep (JObj dsv).
Proof. intros ->. reflexivity. Qed.

(** How the forgotten release ends: the error of an unknown handle is
    dropped, any other goes to the logger; the handles and the commands
    sent stay as they were. *)
Lemma released_settles reply w :
  (reply = Resolved \/
   reply = Rejected (CdpError (-32000) "Invalid remote object id") ->
   released reply w = w) /\
  (forall e, reply = Rejected e -> isInvalidRemoteObjectId e = false ->
     released reply w =
     {| knownHandlesToRealm := knownHandlesToRealm w;
        sent := sent w;
        logged := e :: logged w |}) /\
  knownHandlesToRealm (released reply w) = knownHandlesToRealm w /\
  sent (released reply w) = sent w.
Proof.
  unfold released, releaseObject_settle. repeat split.
  - intros [->| ->]; reflexivity.
  - intros e -> ->. reflexivity.
  - destruct reply as [|e]; [reflexivity|].
    destruct (isInvalidRemoteObjectId e); reflexivity.
  - destruct reply as [|e]; [reflexivity|].
    destruct (isInvalidRemoteObjectId e); reflexivity.
Qed.

(** C3. For a CDP result with an [objectId] (a non-empty string, which is
    what the test [if (cdpValue.result.objectId)] lets through) and a value
    of the shape CDP sends, its references and node ids numbers, which
    [deepSerializedToBiDi] turns into an object [bidiValue]: with ownership 'root' the value returned is
    [bidiValue] with [handle] set to the [objectId], and the handle is
    recorded for the realm, nothing being sent; with any other ownership
    the value returned is [bidiValue] as it is, the handles are as before
    and [Runtime.releaseObject] is sent, the value being returned whatever
    the reply; and when the reply comes, the error of code -32000 'Invalid
    remote object id' is dropped and any other is logged, neither reaching
    the handles or the caller. *)
Theorem cdpToBidiValue_ownership cdpValue dsv oid w :
  objectId cdpValue = Some oid ->
  oid <> "" ->
  deepSerializedValue cdpValue = Some dsv ->
  WellFormed (JObj dsv) ->
  exists bidiValue,
    deep (JObj dsv) = Ok (JObj bidiValue) /\
    cdpToBidiValue Number_toString SHARED_ID_DIVIDER browsingContextStorage
      this cdpValue root w =
    (Ok (JObj (set "handle" (JStr oid) bidiValue)),
     {| knownHandlesToRealm := <[oid := realmId this]> (knownHandlesToRealm w);
        sent := sent w;
        logged := logged w |}) /\
    get "handle" (set "handle" (JStr oid) bidiValue) = Some (JStr oid) /\
    cdpToBidiValue Number_toString SHARED_ID_DIVIDER browsingContextStorage
      this cdpValue none w =
    (Ok (JObj bidiValue),
     {| knownHandlesToRealm := knownHandlesToRealm w;
        sent := {| client := cdpClient this;
                   command := Runtime_releaseObject oid |} :: sent w;
        logged := logged w |}) /\
    forall reply w',
      (reply = Resolved \/
       reply = Rejected (CdpError (-32000) "Invalid remote object id") ->
       released reply w' = w') /\
      (forall e, reply = Rejected e -> isInvalidRemoteObjectId e = false ->
         released reply w' =
         {| knownHandlesToRealm := knownHandlesToRealm w';
            sent := sent w';
            logged := e :: logged w' |}) /\
      knownHandlesToRealm (released reply w') = knownHandlesToRealm w' /\
      sent (released reply w') = sent w'.
Proof.
  intros Hid Hne Hdsv Hwf.
  assert (String.eqb oid "" = false) as Hne'
    by (destruct (String.eqb_spec oid ""); congruence).
  destruct (deep_total _ Hwf) as [r Hdeep].
  destruct (deep_object_object _ _ Hdeep) as [o' ->].
  exists o'. split; [exact Hdeep|].
  unfold cdpToBidiValue.
  rewrite (cdpToBidiValue_call _ _ Hdsv), Hdeep, Hid, Hne'. simpl.
  split; [reflexivity|]. split; [apply get_set_eq|].
  split; [reflexivity|].
  intros reply w'. apply released_settles.
Qed.

(** C4. A handle that [knownHandlesToRealm] does not map to this realm, be
    it unknown or another realm's, is left alone by [disown]: no error, no
    command, the same handles. And [disown] twice in a row ends where
    [disown] once does: either the first call removed the handle, and the
    second finds nothing to do, or it threw, and there is no second. *)
Theorem disown_idempotent handle :
  (forall reply w,
     knownHandlesToRealm w !! handle <> Some (realmId this) ->
     disown this handle reply w = (Ok tt, w)) /\
  (forall reply1 reply2 w,
     andThen (disown this handle reply1) (disown this handle reply2) w =
     disown this handle reply1 w).
Proof.
  split.
  - intros reply w H. unfold disown. now rewrite bool_decide_eq_false_2.
  - intros reply1 reply2 w. unfold andThen.
    destruct (disown this handle reply1 w) as [[[]|e] w1] eqn:H1;
      [|reflexivity].
    assert (knownHandlesToRealm w1 !! handle <> Some (realmId this)) as H.
    { unfold disown in H1.
      destruct (bool_decide_reflect
                  (knownHandlesToRealm w !! handle = Some (realmId this)))
        as [Hm|Hm]; simpl in H1.
      - destruct (releaseObject_settle reply1); [|discriminate].
        injection H1 as <-. simpl. rewrite lookup_delete_eq. discriminate.
      - injection H1 as <-. exact Hm. }
    unfold disown. now rewrite bool_decide_eq_false_2.
Qed.


(** *** [deepSerializedToBiDi] on its own results, and what it keeps *)

Lemma set_set k v o : set k v (set k v o) = set k v o.
Proof. apply set_same, get_set_eq. Qed.

Lemma entry_fixed rec e e' :
  (forall y y', depth y < S (depth e) -> rec y = Ok y' -> rec y' = Ok y') ->
  entry rec e = Ok e' -> entry rec e' = Ok e'.
Proof.
  intros Hrec H.
  apply entry_Ok in H as (k & x & k' & x' & H0 & H1 & Hk & Hx & ->).
  rewrite entry_pair.
  rewrite (Hrec k k'), (Hrec x x'); auto;
    eapply depth_index; eauto.
Qed.

(** The second pass over a node whose [value] is an object. *)
Lemma nodeCase_fixed result node :
  isString (get "type" result) "node" = true ->
  get "weakLocalObjectReference" result = None ->
  get "value" result = Some (JObj node) ->
  get "backendNodeId" node = None ->
  (forall children,
     get "children" node = Some children ->
     forIn deep children = Ok children) ->
  bodyCases deep result = Ok (JObj result).
Proof.
  intros Hn Hw Hv Hb Hc. unfold RealmModel.bodyCases.
  rewrite (renamed_fixed _ Hw). simpl.
  rewrite (isString_exclusive (get "type" result) "node" "platformobject")
    by first [assumption | discriminate].
  rewrite Hv, Hn. unfold RealmModel.nodeCase. simpl. unfold has.
  rewrite Hb. simpl. unfold has.
  destruct (get "children" node) as [children|] eqn:Hch; simpl.
  - rewrite (Hc _ eq_refl). simpl.
    rewrite (set_same "children") by assumption.
    now rewrite set_same.
  - now rewrite set_same.
Qed.

(** The loop over the children of a node, and what it leaves. *)
Lemma children_fixed node (hasChildren : bool) bidiValue :
  hasChildren = has "children" node ->
  get "backendNodeId" node = None ->
  (forall children y y',
     get "children" node = Some children -> depth y < depth children ->
     deep y = Ok y' -> deep y' = Ok y') ->
  (if hasChildren then
     match get "children" node with
     | Some children =>
         children ← forIn deep children;
         Ok (JObj (set "children" children node))
     | None => Ok (JObj node)
     end
   else Ok (JObj node)) = Ok bidiValue ->
  exists node',
    bidiValue = JObj node' /\
    get "backendNodeId" node' = None /\
    forall children,
      get "children" node' = Some children ->
      forIn deep children = Ok children.
Proof.
  intros -> Hb IH. unfold has.
  destruct (get "children" node) as [children|] eqn:Hc.
  - destruct (forIn deep children) as [children'|] eqn:Hf; simpl;
      [|discriminate].
    intros [= <-]. eexists. split; [reflexivity|].
    rewrite get_set_ne by discriminate. split; [assumption|].
    rewrite get_set_eq. intros ? [= <-].
    eapply forIn_fixed; [|exact Hf]. intros y y'. now apply IH.
  - intros [= <-]. eexists. split; [reflexivity|]. split; [assumption|].
    rewrite Hc. discriminate.
Qed.


(** One level: if the values below give themselves when passed again, so
    does this one. *)
Lemma bodyCases_fixed o r :
  (forall y y', depth y < depth (JObj o) -> deep y = Ok y' -> deep y' = Ok y') ->
  bodyCases deep o = Ok r ->
  exists o', r = JObj o' /\ bodyCases deep o' = Ok (JObj o').
Proof.
  intros IH H. unfold RealmModel.bodyCases in H.
  destruct (renamed o) as [result0|] eqn:Hren; simpl in H; [|discriminate].
  destruct (isString (get "type" o) "platformobject") eqn:Hp.
  { injection H as <-. eexists. split; reflexivity. }
  assert (Hty : get "type" result0 = get "type" o)
    by (eapply get_renamed; eauto; discriminate).
  assert (Hval : get "value" result0 = get "value" o)
    by (eapply get_renamed; eauto; discriminate).
  pose proof (renamed_weakLocalObjectReference o result0 Hren) as Hw.
  destruct (get "value" o) as [bidiValue|] eqn:Hv.
  2:{ injection H as <-. eexists. split; [reflexivity|].
      unfold RealmModel.bodyCases. rewrite (renamed_fixed _ Hw). simpl.
      now rewrite Hty, Hp, Hval. }
  assert (Hdepth : depth bidiValue < depth (JObj o))
    by (eapply depth_prop; eauto).
  destruct (isString (get "type" o) "node") eqn:Hn.
  { unfold RealmModel.nodeCase in H.
    destruct (hasOwn bidiValue "backendNodeId") as [hasB|] eqn:HhasB;
      simpl in H; [|discriminate].
    destruct (if hasB then _ else Ok result0) as [result|] eqn:Hshared;
      simpl in H; [|discriminate].
    destruct (hasOwn _ "children") as [hasC|] eqn:HhasC; simpl in H;
      [|discriminate].
    match type of H with
    | (?m ≫= _) = _ =>
        destruct m as [bv2|] eqn:Hbv2; simpl in H; [|discriminate]
    end.
    injection H as <-. eexists. split; [reflexivity|].
    assert (Hkept : forall k, k <> "sharedId" -> get k result = get k result0).
    { intros k Hk. destruct hasB; [|now injection Hshared as <-].
      destruct (template (prop bidiValue "backendNodeId"));
        simpl in Hshared; [|discriminate].
      injection Hshared as <-. now rewrite get_set_ne by auto. }
    assert (Hty1 : get "type" result = get "type" o)
      by (rewrite Hkept by discriminate; assumption).
    assert (Hw1 : get "weakLocalObjectReference" result = None)
      by (rewrite Hkept by discriminate; assumption).
    clear Hshared Hkept.
    assert (Hplain :
      hasB = false -> hasC = false -> bv2 = bidiValue ->
      (forall node, bidiValue <> JObj node) -> bidiValue <> JNull ->
      bodyCases deep (set "value" bv2 result) =
      Ok (JObj (set "value" bv2 result))).
    { intros -> -> -> Hno Hnull. unfold RealmModel.bodyCases.
      rewrite renamed_fixed by (now rewrite get_set_ne by discriminate).
      simpl.
      rewrite !get_set_ne, Hty1, Hp, get_set_eq, Hn by discriminate.
      unfold RealmModel.nodeCase.
      destruct bidiValue; try congruence; simpl; now rewrite set_set. }
    destruct bidiValue as [| | | | |node];
      try (simpl in HhasB; injection HhasB as <-;
           simpl in HhasC; injection HhasC as <-;
           simpl in Hbv2; injection Hbv2 as <-;
           apply Hplain; congruence).
    { discriminate HhasB. }
    assert (Hnode :
      exists node1,
        (if hasB then deleteProp "backendNodeId" (JObj node) else JObj node)
        = JObj node1 /\
        get "backendNodeId" node1 = None /\
        get "children" node1 = get "children" node).
    { simpl in HhasB. injection HhasB as <-. unfold has.
      destruct (get "backendNodeId" node) eqn:Hb; simpl.
      - eexists. split; [reflexivity|]. split; [apply get_remove_eq|].
        now apply get_remove_ne.
      - eauto. }
    destruct Hnode as (node1 & Hnode1 & Hb1 & Hc1).
    rewrite Hnode1 in HhasC, Hbv2. simpl in HhasC, Hbv2.
    injection HhasC as <-.
    apply children_fixed in Hbv2 as (node2 & -> & Hb2 & Hc2); auto.
    2:{ intros children y y' Hc Hy. apply IH.
        rewrite Hc1 in Hc. apply depth_prop in Hc.
        apply (depth_prop "value") in Hv. lia. }
    apply nodeCase_fixed with node2; auto.
    - rewrite get_set_ne by discriminate. congruence.
    - now rewrite get_set_ne by discriminate.
    - apply get_set_eq. }
  assert (Hloop :
    forall f bv',
      isString (get "type" o) "array" || isString (get "type" o) "set"
      = true /\ f = deep \/
      isString (get "type" o) "array" || isString (get "type" o) "set"
      = false /\
      isString (get "type" o) "object" || isString (get "type" o) "map"
      = true /\ f = entry deep ->
      forIn f bv' = Ok bv' ->
      bodyCases deep (set "value" bv' result0) =
      Ok (JObj (set "value" bv' result0))).
  { intros f bv' Hf Hbv'. unfold RealmModel.bodyCases.
    rewrite renamed_fixed by (now rewrite get_set_ne by discriminate).
    simpl.
    rewrite !get_set_ne, Hty, Hp, get_set_eq, Hn by discriminate.
    destruct Hf as [[-> ->]|(-> & -> & ->)];
      rewrite Hbv'; simpl; now rewrite set_set. }
  destruct (isString (get "type" o) "array" || isString (get "type" o) "set")
    eqn:Hlist.
  { destruct (forIn deep bidiValue) as [bv'|] eqn:Hf; simpl in H;
      [|discriminate].
    injection H as <-. eexists. split; [reflexivity|].
    apply (Hloop deep); auto.
    eapply forIn_fixed; [|exact Hf].
    intros y y' Hy. apply IH. lia. }
  destruct (isString (get "type" o) "object" || isString (get "type" o) "map")
    eqn:Hmap.
  { destruct (forIn (entry deep) bidiValue) as [bv'|] eqn:Hf; simpl in H;
      [|discriminate].
    injection H as <-. eexists. split; [reflexivity|].
    apply (Hloop (entry deep)); auto.
    eapply forIn_fixed; [|exact Hf].
    intros y y' Hy. apply entry_fixed.
    intros z z' Hz. apply IH. lia. }
  injection H as <-. eexists. split; [reflexivity|].
  unfold RealmModel.bodyCases. rewrite (renamed_fixed _ Hw). simpl.
  now rewrite Hty, Hp, Hval, Hn, Hlist, Hmap.
Qed.

Lemma deep_fixed_below n v r :
  depth v < n -> deep v = Ok r -> deep r = Ok r.
Proof.
  revert v r. induction n as [|n IH]; intros v r Hn H; [lia|].
  destruct v as [| | | | |o];
    try (rewrite deep_unfold in H; simpl in H; injection H as <-;
         now rewrite deep_unfold).
  - rewrite deep_unfold in H. discriminate H.
  - rewrite deep_object in H.
    apply bodyCases_fixed in H as (o' & -> & H).
    + now rewrite deep_object.
    + intros y y' Hy. apply IH. lia.
Qed.

(** X8. [deepSerializedToBiDi] leaves alone what it has returned: given
    its own result, it returns it as it is. *)
Theorem deepSerializedToBiDi_idempotent v r :
  deepSerializedToBiDi Number_toString SHARED_ID_DIVIDER
    browsingContextStorage this v = Ok r ->
  deepSerializedToBiDi Number_toString SHARED_ID_DIVIDER
    browsingContextStorage this r = Ok r.
Proof. apply (deep_fixed_below (S (depth v))). lia. Qed.

(** X9. Of a value that is no platform object, [deepSerializedToBiDi]
    touches four fields at most: [weakLocalObjectReference], [internalId],
    [sharedId] and [value]; every other field, [type] among them, is
    returned as it came. And a value without
    [weakLocalObjectReference] keeps its [internalId], and is returned
    whole as it came when it has no [value], or is no node, array, set,
    object or map. *)
Theorem deepSerializedToBiDi_keeps o r :
  deep (JObj o) = Ok r ->
  isString (get "type" o) "platformobject" = false ->
  exists o',
    r = JObj o' /\
    (forall k,
       k <> "weakLocalObjectReference" -> k <> "internalId" ->
       k <> "sharedId" -> k <> "value" ->
       get k o' = get k o) /\
    (get "weakLocalObjectReference" o = None ->
     get "internalId" o' = get "internalId" o /\
     (get "value" o = None \/
      isString (get "type" o) "node" = false /\
      isString (get "type" o) "array" || isString (get "type" o) "set"
      = false /\
      isString (get "type" o) "object" || isString (get "type" o) "map"
      = false ->
      o' = o)).
Proof.
  rewrite deep_object. intros H Hp.
  destruct (bodyCases_kept _ _ _ H Hp) as (result & o' & Hren & -> & Hk).
  exists o'. split; [reflexivity|]. split.
  - intros k H1 H2 H3 H4. rewrite Hk by assumption.
    eapply get_renamed; eauto.
  - intros Hw. rewrite Hk by discriminate.
    rewrite (renamed_fixed _ Hw) in Hren. injection Hren as <-.
    split; [reflexivity|].
    unfold RealmModel.bodyCases in H.
    rewrite (renamed_fixed _ Hw) in H. simpl in H. rewrite Hp in H.
    intros [Hv|(Hn & Hl & Hm)].
    + rewrite Hv in H. now injection H.
    + rewrite Hn, Hl, Hm in H.
      destruct (get "value" o); now injection H.
Qed.

(** *** Handles: taking ownership and giving it up *)

Lemma isInvalidRemoteObjectId_true e :
  isInvalidRemoteObjectId e = true <->
  e = CdpError (-32000) "Invalid remote object id".
Proof.
  split.
  - destruct e; simpl; try discriminate. intros H.
    apply andb_true_iff in H as [Hc Hm].
    apply Z.eqb_eq in Hc. apply String.eqb_eq in Hm. now subst.
  - now intros ->.
Qed.

Lemma releaseObject_settle_Ok reply :
  releaseObject_settle reply = Ok tt <->
  reply = Resolved \/
  reply = Rejected (CdpError (-32000) "Invalid remote object id").
Proof.
  destruct reply as [|e]; simpl.
  - split; auto.
  - destruct (isInvalidRemoteObjectId e) eqn:He; simpl.
    + apply isInvalidRemoteObjectId_true in He as ->. split; auto.
    + split; [discriminate|]. intros [|[= ->]]; discriminate.
Qed.

Lemma releaseObject_settle_Throw reply e :
  releaseObject_settle reply = Throw e <->
  reply = Rejected e /\ isInvalidRemoteObjectId e = false.
Proof.
  destruct reply as [|e']; simpl.
  - split; [discriminate | now intros []].
  - destruct (isInvalidRemoteObjectId e') eqn:He; simpl.
    + split; [discriminate|]. intros [[= ->] H]. congruence.
    + split; [now intros [= ->] | now intros [[= ->] _]].
Qed.

(** X3. [disown] of a handle the realm owns sends [Runtime.releaseObject]
    for it, once, on the realm's client. When the command resolves, or is
    rejected with the error of code -32000 and message 'Invalid remote
    object id', the handle is removed and [disown] returns; any other
    rejection is thrown on, and the handle stays recorded for the realm.
    The other handles are as before either way. *)
Theorem disown_owned handle reply w :
  knownHandlesToRealm w !! handle = Some (realmId this) ->
  let released :=
    {| client := cdpClient this; command := Runtime_releaseObject handle |} in
  let after := disown this handle reply w in
  sent after.2 = released :: sent w /\
  logged after.2 = logged w /\
  (forall other, other <> handle ->
     knownHandlesToRealm after.2 !! other = knownHandlesToRealm w !! other) /\
  (reply = Resolved \/
   reply = Rejected (CdpError (-32000) "Invalid remote object id") ->
   after.1 = Ok tt /\ knownHandlesToRealm after.2 !! handle = None) /\
  (forall e,
     reply = Rejected e ->
     e <> CdpError (-32000) "Invalid remote object id" ->
     after.1 = Throw e /\
     knownHandlesToRealm after.2 !! handle = Some (realmId this)).
Proof.
  intros Hown released after. subst after. unfold disown.
  rewrite bool_decide_eq_true_2 by exact Hown. simpl.
  destruct (releaseObject_settle reply) as [[]|e'] eqn:Hs; simpl.
  - apply releaseObject_settle_Ok in Hs.
    split; [reflexivity|]. split; [reflexivity|].
    split; [intros other Ho; now rewrite lookup_delete_ne|].
    split; [intros _; split; [reflexivity | apply lookup_delete_eq]|].
    intros e -> He. destruct Hs as [Hs|Hs]; congruence.
  - apply releaseObject_settle_Throw in Hs as [-> He].
    split; [reflexivity|]. split; [reflexivity|].
    split; [reflexivity|].
    split; [intros [|[= ->]]; discriminate|].
    intros e [= <-] _. auto.
Qed.

(** X4. Without an [objectId], or with an empty one, [cdpToBidiValue]
    returns what [deepSerializedToBiDi] gives for the value, whatever the
    ownership asked for: no handle is recorded and nothing is sent. And
    when [cdpToBidiValue] throws, it is the [TypeError] of
    [deepSerializedToBiDi], and it has recorded and sent nothing. *)
Theorem cdpToBidiValue_without_objectId cdpValue resultOwnership w :
  let after :=
    cdpToBidiValue Number_toString SHARED_ID_DIVIDER browsingContextStorage
      this cdpValue resultOwnership w in
  (objectId cdpValue = None \/ objectId cdpValue = Some "" ->
   after = (call deep (JObj <$> deepSerializedValue cdpValue), w)) /\
  (forall e, after.1 = Throw e ->
     e = TypeError /\ after.2 = w /\
     call deep (JObj <$> deepSerializedValue cdpValue) = Throw TypeError).
Proof.
  intros after. subst after. unfold cdpToBidiValue. split.
  - intros [-> | ->];
      destruct (call deep (JObj <$> deepSerializedValue cdpValue));
      reflexivity.
  - intros e.
    destruct (deepSerializedValue cdpValue) as [dsv|] eqn:Hd; simpl.
    + destruct (deep (JObj dsv)) as [r|e'] eqn:Hr.
      * destruct (deep_object_object _ _ Hr) as [o' ->].
        destruct (objectId cdpValue) as [oid|]; [|discriminate].
        destruct (String.eqb oid ""); [discriminate|].
        destruct resultOwnership; discriminate.
      * simpl. intros [= ->]. apply deep_Throw in Hr as ->. auto.
    + intros [= <-]. auto.
Qed.

(** X5. For a value of the shape CDP sends, its references and node ids
    numbers, a handle given out with ownership 'root' and then disowned in
    the same realm is recorded no more, [Runtime.releaseObject] having
    been sent for it once; if it was not recorded before, the handles are
    back to what they were. *)
Theorem cdpToBidiValue_root_disown cdpValue dsv oid reply w :
  objectId cdpValue = Some oid ->
  oid <> "" ->
  deepSerializedValue cdpValue = Some dsv ->
  WellFormed (JObj dsv) ->
  reply = Resolved \/
  reply = Rejected (CdpError (-32000) "Invalid remote object id") ->
  let owned :=
    cdpToBidiValue Number_toString SHARED_ID_DIVIDER browsingContextStorage
      this cdpValue root w in
  knownHandlesToRealm owned.2 !! oid = Some (realmId this) /\
  disown this oid reply owned.2 =
  (Ok tt,
   {| knownHandlesToRealm := delete oid (knownHandlesToRealm w);
      sent := {| client := cdpClient this;
                 command := Runtime_releaseObject oid |} :: sent w;
      logged := logged w |}) /\
  (knownHandlesToRealm w !! oid = None ->
   knownHandlesToRealm (disown this oid reply owned.2).2 =
   knownHandlesToRealm w).
Proof.
  intros Hoid Hne Hdsv Hwf Hreply owned.
  destruct (deep_total _ Hwf) as [r Hr].
  destruct (deep_object_object _ _ Hr) as [bidiValue ->].
  assert (Howned :
    owned =
    (Ok (JObj (set "handle" (JStr oid) bidiValue)),
     {| knownHandlesToRealm := <[oid := realmId this]> (knownHandlesToRealm w);
        sent := sent w;
        logged := logged w |})).
  { subst owned. unfold cdpToBidiValue. rewrite Hdsv. simpl. rewrite Hr, Hoid.
    destruct (String.eqb_spec oid ""); [contradiction|]. reflexivity. }
  rewrite Howned. simpl.
  assert (Hdisown :
    disown this oid reply
      {| knownHandlesToRealm := <[oid := realmId this]> (knownHandlesToRealm w);
         sent := sent w;
         logged := logged w |} =
    (Ok tt,
     {| knownHandlesToRealm := delete oid (knownHandlesToRealm w);
        sent := {| client := cdpClient this;
                   command := Runtime_releaseObject oid |} :: sent w;
        logged := logged w |})).
  { unfold disown. simpl.
    rewrite bool_decide_eq_true_2 by apply lookup_insert_eq. simpl.
    apply releaseObject_settle_Ok in Hreply. rewrite Hreply.
    now rewrite delete_insert_eq. }
  split; [apply lookup_insert_eq|]. split; [exact Hdisown|].
  intros Hnew. rewrite Hdisown. simpl. now apply delete_id.
Qed.

(** *** [script.disown]: the handles disowned together *)

Lemma disown_start_handles handle w :
  knownHandlesToRealm (disown_start this handle w) = knownHandlesToRealm w /\
  logged (disown_start this handle w) = logged w.
Proof.
  unfold disown_start.
  destruct (bool_decide _); simpl; auto.
Qed.

(** [disown] is its two halves, one after the other. *)
Lemma disown_start_finish handle reply w :
  disown this handle reply w =
  if bool_decide (knownHandlesToRealm w !! handle = Some (realmId this))
  then disown_finish handle reply (disown_start this handle w)
  else (Ok tt, w).
Proof.
  unfold disown, disown_finish, disown_start.
  destruct (bool_decide _); simpl; [|reflexivity].
  destruct (releaseObject_settle reply); reflexivity.
Qed.

(** X6. [script.disown] tests all its handles before any is removed: it
    sends [Runtime.releaseObject] once for each entry of the list that is
    a handle of the realm, in the order of the list, and so twice for a
    handle listed twice; until a reply arrives, the handles recorded are
    as before. *)
Theorem process_script_disown_sends handles w :
  let owned handle :=
    bool_decide (knownHandlesToRealm w !! handle = Some (realmId this)) in
  let after := process_script_disown_send this handles w in
  sent after =
  rev ((fun handle => {| client := cdpClient this;
                         command := Runtime_releaseObject handle |})
         <$> List.filter owned handles) ++ sent w /\
  knownHandlesToRealm after = knownHandlesToRealm w /\
  logged after = logged w.
Proof.
  simpl. unfold process_script_disown_send.
  revert w. induction handles as [|handle handles IH]; intros w; simpl.
  - auto.
  - destruct (IH (disown_start this handle w)) as (Hs & Hk & Hl).
    destruct (disown_start_handles handle w) as [Hk' Hl'].
    rewrite Hs, Hk, Hl. rewrite Hk'. split; [|auto].
    unfold disown_start.
    destruct (bool_decide
                (knownHandlesToRealm w !! handle = Some (realmId this)));
      simpl; [|reflexivity].
    now rewrite <- app_assoc.
Qed.

Lemma process_script_disown_settle_snoc replies a w :
  process_script_disown_settle (replies ++ [a]) w =
  let s := process_script_disown_settle replies w in
  match disown_finish a.1 a.2 s.2 with
  | (Ok _, w) => (s.1, w)
  | (Throw e, w) =>
      (match s.1 with Ok _ => Throw e | rejected => rejected end, w)
  end.
Proof. unfold process_script_disown_settle. now rewrite foldl_app. Qed.

(** X7. When the replies to the commands of [script.disown] have
    arrived, a handle is recorded no more if the release of it resolved,
    or was rejected with 'Invalid remote object id', and is recorded as
    before otherwise, whatever became of the others; the command returns
    when all went so, and else throws the first rejection that
    arrived. *)
Theorem process_script_disown_settles replies w :
  let released (a : string * CdpReply) := releaseObject_settle a.2 = Ok tt in
  let after := process_script_disown_settle replies w in
  (forall handle,
     (exists reply, In (handle, reply) replies /\ released (handle, reply)) ->
     knownHandlesToRealm after.2 !! handle = None) /\
  (forall handle,
     (forall reply, In (handle, reply) replies -> ~ released (handle, reply)) ->
     knownHandlesToRealm after.2 !! handle = knownHandlesToRealm w !! handle) /\
  sent after.2 = sent w /\
  (Forall released replies -> after.1 = Ok tt) /\
  (forall before a rest e,
     replies = before ++ a :: rest ->
     Forall released before ->
     releaseObject_settle a.2 = Throw e ->
     after.1 = Throw e).
Proof.
  simpl.
  induction replies as [|a replies IH] using rev_ind.
  - simpl. repeat split; auto.
    + intros handle (reply & [] & _).
    + intros before a rest e H. now destruct before.
  - rewrite process_script_disown_settle_snoc. cbv zeta.
    destruct IH as (Hgone & Hkept & Hsent & Hall & Hfirst).
    set (s := process_script_disown_settle replies w) in *.
    set (w' := let (r, w') := disown_finish a.1 a.2 s.2 in w').
    assert (Hhit :
      forall handle,
        a.1 = handle -> releaseObject_settle a.2 = Ok tt ->
        knownHandlesToRealm w' !! handle = None).
    { intros handle <- Hs. subst w'. unfold disown_finish. rewrite Hs. simpl.
      apply lookup_delete_eq. }
    assert (Hmiss :
      forall handle,
        ~ (a.1 = handle /\ releaseObject_settle a.2 = Ok tt) ->
        knownHandlesToRealm w' !! handle = knownHandlesToRealm s.2 !! handle).
    { intros handle Hno. subst w'. unfold disown_finish.
      destruct (releaseObject_settle a.2) as [[]|e] eqn:Hs; simpl; auto.
      apply lookup_delete_ne. intros Heq. apply Hno. auto. }
    assert (Hdec :
      forall handle,
        (a.1 = handle /\ releaseObject_settle a.2 = Ok tt) \/
        ~ (a.1 = handle /\ releaseObject_settle a.2 = Ok tt)).
    { intros handle. destruct (decide (a.1 = handle)); [|right; tauto].
      destruct (releaseObject_settle a.2) as [[]|]; [left; auto|].
      right. intros [_ ?]. discriminate. }
    assert (Hshape :
      w' =
      (match disown_finish a.1 a.2 s.2 with
       | (Ok _, w0) => (s.1, w0)
       | (Throw e, w0) =>
           (match s.1 with Ok _ => Throw e | rejected => rejected end, w0)
       end).2).
    { subst w'. destruct (disown_finish a.1 a.2 s.2) as [[[]|e] w0];
        reflexivity. }
    rewrite <- Hshape.
    split; [|split; [|split; [|split]]].
    + intros handle (reply & Hin & Hrel).
      destruct (Hdec handle) as [[Ha Hs]|Hno]; [now apply Hhit|].
      rewrite (Hmiss _ Hno).
      apply in_app_or in Hin as [Hin|[Heq|[]]].
      * apply Hgone. eauto.
      * exfalso. apply Hno. rewrite Heq. auto.
    + intros handle Hnone. rewrite Hmiss.
      * apply Hkept. intros reply Hin. apply Hnone, in_or_app. auto.
      * intros [<- Hrel]. apply (Hnone a.2); [|exact Hrel].
        apply in_or_app. right. left. now destruct a.
    + subst w'. unfold disown_finish.
      destruct (releaseObject_settle a.2) as [[]|e]; simpl; exact Hsent.
    + intros Hrel. apply Forall_app in Hrel as [Hrel Ha].
      apply Forall_cons in Ha as [Ha _]. unfold disown_finish.
      rewrite Ha. simpl. auto.
    + intros before a' rest e Heq Hrel Ha'.
      destruct rest as [|b rest _] using rev_ind.
      * apply app_inj_tail in Heq as [-> ->].
        unfold disown_finish. rewrite Ha'. simpl.
        now rewrite (Hall Hrel).
      * rewrite app_comm_cons, app_assoc in Heq.
        apply app_inj_tail in Heq as [-> ->].
        unfold disown_finish.
        rewrite (Hfirst before a' rest e eq_refl Hrel Ha').
        now destruct (releaseObject_settle b.2) as [[]|].
Qed.

End Realm.

(** *** Examples *)

Lemma sample_WellFormed : WellFormed (JObj sample).
Proof.
  eapply WF_list; [reflexivity | reflexivity | reflexivity |].
  apply List.Forall_cons; [|apply List.Forall_cons; [|apply List.Forall_nil]].
  - eapply WF_node;
      [reflexivity | reflexivity | reflexivity | reflexivity | reflexivity |].
    apply List.Forall_cons; [|apply List.Forall_nil].
    apply WF_platformobject; reflexivity.
  - eapply WF_mapping; [reflexivity | reflexivity | reflexivity |].
    apply List.Forall_cons; [|apply List.Forall_nil].
    apply WF_entry_string. apply WF_other; reflexivity.
Qed.

Example sample_result :
  deepSerializedToBiDi decimal "_element_" ∅ sampleRealm (JObj sample) =
  Ok (JObj
        [("type", JStr "array");
         ("value",
          JArr
            [JObj [("type", JStr "node");
                   ("value",
                    JObj [("nodeType", num 1);
                          ("children", JArr [JObj [("type", JStr "object")]])]);
                   ("internalId", JStr "1");
                   ("sharedId", JStr "UNKNOWN_element_42")];
             JObj [("type", JStr "map");
                   ("value",
                    JArr [JArr [JStr "key";
                                JObj [("type", JStr "number");
                                      ("value", num 7)]]])]])]).
Proof. vm_compute. reflexivity. Qed.

Lemma deepSerializedToBiDi_transforms_witness :
  WellFormed (JObj sample) /\
  exists r,
    deepSerializedToBiDi decimal "_element_" ∅ sampleRealm (JObj sample)
    = Ok r /\
    exists o', r = JObj o' /\ get "weakLocalObjectReference" o' = None.
Proof.
  split; [exact sample_WellFormed|].
  destruct (deepSerializedToBiDi_transforms decimal "_element_" ∅
              sampleRealm sample) as [Htotal Hspec].
  destruct (Htotal sample_WellFormed) as [r Hr].
  exists r. split; [exact Hr|].
  destruct (Hspec r Hr) as [_ H].
  destruct (H eq_refl) as (o' & -> & Hw & _). eauto.
Defined.

(** A platform object that was seen twice comes out as any other: the
    [internalId] set from its [weakLocalObjectReference] is dropped with
    the rest. *)
Example platformobject_sample :
  deepSerializedToBiDi decimal "_element_" ∅ sampleRealm
    (JObj samplePlatformObject) =
  Ok (JObj [("type", JStr "object")]).
Proof. reflexivity. Qed.

(** C2 as stated fails. It is not so that whatever
    [weakLocalObjectReference] a value has is found as [internalId] in
    what [deepSerializedToBiDi] returns: the platform object
    [{type: 'platformobject', weakLocalObjectReference: 2}] becomes
    [{type: 'object'}]. *)
Lemma platformobject_loses_internalId :
  ~ (forall o w r,
       get "weakLocalObjectReference" o = Some w ->
       deepSerializedToBiDi decimal "_element_" ∅ sampleRealm (JObj o)
       = Ok r ->
       exists o' s, r = JObj o' /\
         toString decimal w = Ok s /\
         get "internalId" o' = Some (JStr s)).
Proof.
  intros claim.
  destruct (claim samplePlatformObject (num 2) _ eq_refl platformobject_sample)
    as (o' & s & [= <-] & _ & H).
  discriminate H.
Qed.

(** What CDP does not send: a reference that is an object with a member
    [toString] of its own has no text, and the template literal that asks
    for it throws. *)
Example unconvertible_reference :
  deepSerializedToBiDi decimal "_element_" ∅ sampleRealm
    (JObj [("type", JStr "object");
           ("weakLocalObjectReference", JObj [("toString", num 1)])]) =
  Throw TypeError.
Proof. reflexivity. Qed.

Lemma navigableId_unknown_witness :
  get_navigableId ∅ sampleRealm = "UNKNOWN" /\
  deepSerializedToBiDi decimal "_element_" ∅ sampleRealm (JObj sampleNode) =
  Ok (JObj [("type", JStr "node");
            ("value", JObj [("nodeType", num 1)]);
            ("sharedId", JStr "UNKNOWN_element_42")]).
Proof.
  assert (findContext ∅ (browsingContextId sampleRealm) = None \/
          exists c,
            findContext ∅ (browsingContextId sampleRealm) = Some c /\
            navigableId c = None) as H
    by (left; apply lookup_empty).
  destruct (navigableId_unknown decimal "_element_" ∅ sampleRealm H)
    as [Hnav Hnode].
  split; [exact Hnav|].
  destruct (Hnode sampleNode [("nodeType", num 1); ("backendNodeId", num 42)]
              (num 42) eq_refl eq_refl eq_refl) as [_ Hshared].
  vm_compute. reflexivity.
Defined.

Lemma cdpToBidiValue_ownership_witness :
  exists bidiValue,
    cdpToBidiValue decimal "_element_" ∅ sampleRealm sampleResult root
      emptyWorld =
    (Ok (JObj (set "handle" (JStr "object-1") bidiValue)),
     {| knownHandlesToRealm := {["object-1" := "realm-1"]};
        sent := [];
        logged := [] |}) /\
    cdpToBidiValue decimal "_element_" ∅ sampleRealm sampleResult none
      emptyWorld =
    (Ok (JObj bidiValue),
     {| knownHandlesToRealm := ∅;
        sent := [{| client := Some "session-1";
                    command := Runtime_releaseObject "object-1" |}];
        logged := [] |}).
Proof.
  assert ("object-1" <> "") as Hne by discriminate.
  assert (WellFormed (JObj [("type", JStr "object")])) as Hwf
    by (apply WF_bare; reflexivity).
  destruct (cdpToBidiValue_ownership decimal "_element_" ∅ sampleRealm
              sampleResult [("type", JStr "object")] "object-1" emptyWorld
              eq_refl Hne eq_refl Hwf)
    as (bidiValue & _ & Hroot & _ & Hnone & _).
  exists bidiValue. split; [exact Hroot | exact Hnone].
Defined.

Lemma disown_idempotent_witness :
  disown sampleRealm "object-1" Resolved emptyWorld = (Ok tt, emptyWorld).
Proof.
  apply (proj1 (disown_idempotent sampleRealm "object-1")).
  simpl. rewrite lookup_empty. discriminate.
Defined.

Lemma disown_owned_witness :
  (disown sampleRealm "object-1" Resolved ownedWorld).1 = Ok tt /\
  knownHandlesToRealm (disown sampleRealm "object-1" Resolved ownedWorld).2
    !! "object-1" = None.
Proof.
  assert (H : knownHandlesToRealm ownedWorld !! "object-1"
              = Some (realmId sampleRealm)) by reflexivity.
  apply (proj1 (proj2 (proj2 (proj2
           (disown_owned sampleRealm "object-1" Resolved ownedWorld H))))).
  now left.
Defined.

Lemma cdpToBidiValue_without_objectId_witness :
  cdpToBidiValue decimal "_element_" ∅ sampleRealm
    {| objectId := None;
       deepSerializedValue := Some [("type", JStr "undefined")] |}
    root emptyWorld =
  (Ok (JObj [("type", JStr "undefined")]), emptyWorld).
Proof.
  rewrite (proj1 (cdpToBidiValue_without_objectId decimal "_element_" ∅
                    sampleRealm
                    {| objectId := None;
                       deepSerializedValue :=
                         Some [("type", JStr "undefined")] |}
                    root emptyWorld)) by (now left).
  reflexivity.
Defined.

Lemma cdpToBidiValue_root_disown_witness :
  disown sampleRealm "object-1" Resolved
    (cdpToBidiValue decimal "_element_" ∅ sampleRealm sampleResult root
       emptyWorld).2 =
  (Ok tt,
   {| knownHandlesToRealm := delete "object-1" ∅;
      sent := [{| client := Some "session-1";
                  command := Runtime_releaseObject "object-1" |}];
      logged := [] |}).
Proof.
  assert ("object-1" <> "") as Hne by discriminate.
  assert (WellFormed (JObj [("type", JStr "object")])) as Hwf
    by (apply WF_bare; reflexivity).
  exact (proj1 (proj2
           (cdpToBidiValue_root_disown decimal "_element_" ∅ sampleRealm
              sampleResult [("type", JStr "object")] "object-1" Resolved
              emptyWorld eq_refl Hne eq_refl Hwf (or_introl eq_refl)))).
Defined.

(** A handle listed twice is released twice. *)
Lemma process_script_disown_sends_witness :
  sent (process_script_disown_send sampleRealm
          ["object-1"; "object-2"; "object-1"] ownedWorld) =
  [{| client := Some "session-1";
      command := Runtime_releaseObject "object-1" |};
   {| client := Some "session-1";
      command := Runtime_releaseObject "object-1" |}].
Proof.
  rewrite (proj1 (process_script_disown_sends sampleRealm
                    ["object-1"; "object-2"; "object-1"] ownedWorld)).
  reflexivity.
Defined.

Lemma process_script_disown_settles_witness :
  (process_script_disown_settle
     [("object-1", Rejected (CdpError (-32000) "Invalid remote object id"));
      ("object-1", Rejected (Disconnected "closed"))]
     ownedWorld).1 = Throw (Disconnected "closed").
Proof.
  apply (proj2 (proj2 (proj2 (proj2
           (process_script_disown_settles _ ownedWorld))))
           [("object-1",
             Rejected (CdpError (-32000) "Invalid remote object id"))]
           ("object-1", Rejected (Disconnected "closed")) []
           (Disconnected "closed") eq_refl).
  - apply List.Forall_cons; [reflexivity | apply List.Forall_nil].
  - reflexivity.
Defined.

Lemma deepSerializedToBiDi_idempotent_witness :
  exists r,
    deepSerializedToBiDi decimal "_element_" ∅ sampleRealm (JObj sample)
    = Ok r /\
    deepSerializedToBiDi decimal "_element_" ∅ sampleRealm r = Ok r.
Proof.
  eexists. split; [exact sample_result|].
  exact (deepSerializedToBiDi_idempotent decimal "_element_" ∅ sampleRealm
           _ _ sample_result).
Defined.

Lemma deepSerializedToBiDi_keeps_witness :
  exists o',
    deepSerializedToBiDi decimal "_element_" ∅ sampleRealm (JObj sampleNode)
    = Ok (JObj o') /\
    get "type" o' = Some (JStr "node").
Proof.
  assert (H : deepSerializedToBiDi decimal "_element_" ∅ sampleRealm
                (JObj sampleNode) =
              Ok (JObj [("type", JStr "node");
                        ("value", JObj [("nodeType", num 1)]);
                        ("sharedId", JStr "UNKNOWN_element_42")]))
    by reflexivity.
  destruct (deepSerializedToBiDi_keeps decimal "_element_" ∅ sampleRealm
              sampleNode _ H eq_refl) as (o' & Heq & Hk & _).
  exists o'. split.
  - rewrite H. now f_equal.
  - rewrite (Hk "type"); [reflexivity | discriminate..].
Defined.

End RealmFacts.

(** ** Properties of the input commands *)

Module InputFacts.
Import JS Context InputModel.

Section Input.

Variable Action : Type.

Local Abbreviation ActionOption := (ActionOption.t Action).
Local Abbreviation SourceActions := (SourceActions.t Action).
Local Abbreviation InputState := (InputState Action).

Variable getOrCreate :
  InputState -> string -> SourceActionsType -> option PointerType ->
  outcome (InputSource * InputState).

Local Abbreviation reaching := (reaching Action).
Local Abbreviation recordAll := (recordAll Action).
Local Abbreviation tagged :=
  (fun s : SourceActions =>
     (fun item => ActionOption.Build_t (SourceActions.id s) item)
       <$> SourceActions.actions s).

(** *** The inner loop adds a column *)

Lemma pushActions_addColumn (column : list ActionOption) before ticks :
  pushActions Action (length before) column (before ++ ticks) =
  Ok (before ++ addColumn Action column ticks).
Proof.
  revert before ticks.
  induction column as [|a column IH]; intros before ticks; simpl.
  - destruct ticks; reflexivity.
  - destruct ticks as [|tick ticks].
    + rewrite app_nil_r, Nat.eqb_refl.
      rewrite list_lookup_middle by reflexivity.
      rewrite insert_app_r_alt, Nat.sub_diag by lia. simpl.
      replace (S (length before)) with (length (before ++ [[a]]))
        by (rewrite length_app; simpl; lia).
      rewrite <- (app_nil_r (before ++ [[a]])) at 2.
      rewrite IH, <- app_assoc. reflexivity.
    + replace (length (before ++ tick :: ticks) =? length before) with false
        by (symmetry; apply Nat.eqb_neq; rewrite length_app; simpl; lia).
      rewrite list_lookup_middle by reflexivity.
      rewrite insert_app_r_alt, Nat.sub_diag by lia. simpl.
      replace (S (length before)) with (length (before ++ [tick ++ [a]]))
        by (rewrite length_app; simpl; lia).
      replace (before ++ (tick ++ [a]) :: ticks)
        with ((before ++ [tick ++ [a]]) ++ ticks)
        by (rewrite <- app_assoc; reflexivity).
      rewrite IH, <- app_assoc. reflexivity.
Qed.

Lemma addColumn_length (column : list ActionOption) ticks :
  length (addColumn Action column ticks) =
  Nat.max (length column) (length ticks).
Proof.
  revert ticks. induction column as [|a column IH]; intros [|t ticks];
    simpl; auto; rewrite IH; simpl; lia.
Qed.

Lemma addColumn_lookup (column : list ActionOption) ticks i :
  i < Nat.max (length column) (length ticks) ->
  addColumn Action column ticks !! i =
  Some (default [] (ticks !! i) ++ option_list (column !! i)).
Proof.
  revert ticks i. induction column as [|a column IH]; intros ticks i Hi.
  - simpl in *. destruct (ticks !! i) eqn:E.
    + destruct ticks; simpl in *; rewrite ?E, app_nil_r; auto.
    + apply lookup_ge_None in E. lia.
  - destruct ticks as [|t ticks]; destruct i as [|i]; simpl; auto.
    + rewrite IH by (simpl in *; lia). reflexivity.
    + rewrite IH by (simpl in *; lia). reflexivity.
Qed.

(** *** The ticks of the spec, source by source *)

Lemma longest_snoc (done : list SourceActions) s :
  longest Action (done ++ [s]) =
  Nat.max (longest Action done) (length (SourceActions.actions s)).
Proof.
  unfold longest. rewrite fmap_app, foldr_app. simpl.
  generalize ((fun s : SourceActions => length (SourceActions.actions s))
                <$> done).
  intros l. induction l as [|x l IH]; simpl; lia.
Qed.

Lemma tickOf_snoc (done : list SourceActions) s i :
  tickOf Action (done ++ [s]) i =
  tickOf Action done i ++ option_list (tagged s !! i).
Proof.
  unfold tickOf. rewrite omap_app. f_equal. simpl.
  rewrite list_lookup_fmap.
  destruct (SourceActions.actions s !! i); reflexivity.
Qed.

Lemma tickOf_beyond (done : list SourceActions) i :
  longest Action done <= i -> tickOf Action done i = [].
Proof.
  unfold tickOf, longest.
  induction done as [|d done IH]; intros Hi; auto.
  rewrite fmap_cons in Hi. cbn [foldr] in Hi.
  cbn [omap list_omap]. rewrite lookup_ge_None_2 by lia.
  simpl. apply IH. lia.
Qed.

Lemma ticksOf_length (l : list SourceActions) :
  length (ticksOf Action l) = longest Action l.
Proof. unfold ticksOf. now rewrite length_fmap, length_seq. Qed.

Lemma ticksOf_lookup (l : list SourceActions) i :
  i < longest Action l -> ticksOf Action l !! i = Some (tickOf Action l i).
Proof.
  intros Hi. unfold ticksOf.
  now rewrite list_lookup_fmap, lookup_seq_lt.
Qed.

Lemma ticksOf_snoc (done : list SourceActions) s :
  ticksOf Action (done ++ [s]) =
  addColumn Action (tagged s) (ticksOf Action done).
Proof.
  apply list_eq. intros i.
  destruct (decide (i < longest Action (done ++ [s]))) as [Hi|Hi].
  - rewrite ticksOf_lookup by exact Hi.
    rewrite longest_snoc in Hi.
    rewrite addColumn_lookup
      by (rewrite length_fmap, ticksOf_length; lia).
    rewrite tickOf_snoc. do 2 f_equal.
    destruct (decide (i < longest Action done)) as [Hd|Hd].
    + now rewrite ticksOf_lookup.
    + rewrite lookup_ge_None_2 by (rewrite ticksOf_length; lia).
      simpl. apply tickOf_beyond. lia.
  - rewrite !lookup_ge_None_2; auto.
    + rewrite addColumn_length, length_fmap, ticksOf_length.
      rewrite longest_snoc in Hi. lia.
    + rewrite ticksOf_length. lia.
Qed.

(** *** [#getActionsByTick] *)

Lemma getActionsByTick_loop_ticksOf (done rest : list SourceActions)
    inputState :
  getActionsByTick_loop Action getOrCreate rest inputState
    (ticksOf Action done) =
  (fun inputState' => (ticksOf Action (done ++ rest), inputState'))
    <$> registerAll Action getOrCreate rest inputState.
Proof.
  revert done inputState.
  induction rest as [|s rest IH]; intros done inputState; simpl.
  - now rewrite app_nil_r.
  - destruct (registerSource Action getOrCreate s inputState)
      as [inputState'|e]; simpl; [|reflexivity].
    rewrite (pushActions_addColumn (tagged s) [] (ticksOf Action done)).
    simpl. rewrite <- ticksOf_snoc, IH, <- app_assoc. reflexivity.
Qed.

Lemma tickOf_cons s (actions : list SourceActions) i :
  tickOf Action (s :: actions) i =
  match SourceActions.actions s !! i with
  | Some a =>
      ActionOption.Build_t (SourceActions.id s) a :: tickOf Action actions i
  | None => tickOf Action actions i
  end.
Proof.
  unfold tickOf. simpl. destruct (SourceActions.actions s !! i); reflexivity.
Qed.

Lemma tickOf_reaching (actions : list SourceActions) i :
  ActionOption.id <$> tickOf Action actions i =
  SourceActions.id <$> reaching actions i.
Proof.
  induction actions as [|s actions IH]; [reflexivity|].
  rewrite tickOf_cons. unfold InputModel.reaching in *. cbn [List.filter].
  destruct (SourceActions.actions s !! i) as [a|] eqn:E.
  - apply lookup_lt_Some in E. apply Nat.ltb_lt in E. rewrite E.
    rewrite !fmap_cons. now rewrite IH.
  - apply lookup_ge_None in E.
    replace (i <? length (SourceActions.actions s)) with false
      by (symmetry; apply Nat.ltb_ge; exact E).
    exact IH.
Qed.

(** C5. [#getActionsByTick] returns, unless registering a source throws,
    the ticks the spec words: as many as the longest sequence has actions,
    tick [i] holding for each source that has an [i]-th action that action
    tagged with the id of the source, the sources in the order of the
    request; so tick [i] has one entry for each source reaching [i], in
    that order. *)
Theorem getActionsByTick_ticks (actions : list SourceActions) inputState :
  getActionsByTick Action getOrCreate actions inputState =
  (fun inputState' => (ticksOf Action actions, inputState'))
    <$> registerAll Action getOrCreate actions inputState /\
  length (ticksOf Action actions) =
  foldr Nat.max 0
    ((fun s => length (SourceActions.actions s)) <$> actions) /\
  forall i,
    i < length (ticksOf Action actions) ->
    ticksOf Action actions !! i =
    Some (omap (fun s => ActionOption.Build_t (SourceActions.id s)
                           <$> SourceActions.actions s !! i) actions) /\
    ActionOption.id <$> tickOf Action actions i =
    SourceActions.id <$> reaching actions i.
Proof.
  split; [|split].
  - apply (getActionsByTick_loop_ticksOf [] actions inputState).
  - apply ticksOf_length.
  - intros i Hi. rewrite ticksOf_length in Hi. split.
    + now apply ticksOf_lookup.
    + apply tickOf_reaching.
Qed.

(** *** More of [#getActionsByTick] *)

Lemma getActionsByTick_registerAll (actions : list SourceActions)
    inputState :
  getActionsByTick Action getOrCreate actions inputState =
  (fun inputState' => (ticksOf Action actions, inputState'))
    <$> registerAll Action getOrCreate actions inputState.
Proof. apply (getActionsByTick_loop_ticksOf [] actions inputState). Qed.

Lemma getActionsByTick_Ok (actions : list SourceActions) inputState ticks
    inputState' :
  getActionsByTick Action getOrCreate actions inputState
  = Ok (ticks, inputState') ->
  ticks = ticksOf Action actions.
Proof.
  rewrite getActionsByTick_registerAll.
  destruct (registerAll Action getOrCreate actions inputState); simpl;
    [|discriminate].
  now intros [= <- _].
Qed.

Lemma concat_addColumn (column : list ActionOption) ticks :
  concat (addColumn Action column ticks) ≡ₚ concat ticks ++ column.
Proof.
  revert ticks. induction column as [|a column IH]; intros ticks.
  - destruct ticks; simpl; now rewrite ?app_nil_r.
  - destruct ticks as [|tick ticks]; simpl.
    + now rewrite IH.
    + rewrite IH, <- !app_assoc. simpl.
      apply Permutation_app_head, Permutation_middle.
Qed.

Lemma concat_ticksOf (actions : list SourceActions) :
  concat (ticksOf Action actions) ≡ₚ concat (tagged <$> actions).
Proof.
  induction actions as [|s actions IH] using rev_ind; [reflexivity|].
  rewrite ticksOf_snoc, concat_addColumn, IH, fmap_app, concat_app.
  simpl. now rewrite app_nil_r.
Qed.

(** X10. The ticks of [#getActionsByTick] hold the actions of the request,
    each tagged with the id of its source, and nothing else: no action is
    left out of the ticks and none is there twice. *)
Theorem getActionsByTick_keeps_actions (actions : list SourceActions)
    inputState ticks inputState' :
  getActionsByTick Action getOrCreate actions inputState
  = Ok (ticks, inputState') ->
  concat ticks ≡ₚ
  concat ((fun s : SourceActions =>
             (fun item => ActionOption.Build_t (SourceActions.id s) item)
               <$> SourceActions.actions s) <$> actions) /\
  length (concat ticks) =
  foldr Nat.add 0
    ((fun s : SourceActions => length (SourceActions.actions s))
       <$> actions).
Proof.
  intros H. apply getActionsByTick_Ok in H as ->.
  pose proof (concat_ticksOf actions) as Hp. split; [exact Hp|].
  rewrite Hp. clear Hp.
  induction actions as [|s actions IH]; [reflexivity|].
  rewrite !fmap_cons. simpl. rewrite length_app, length_fmap. now rewrite IH.
Qed.

Lemma reaching_longest (actions : list SourceActions) i :
  i < longest Action actions -> reaching actions i <> [].
Proof.
  unfold InputModel.longest, InputModel.reaching.
  induction actions as [|s actions IH]; [simpl; lia|].
  rewrite fmap_cons. cbn [foldr List.filter].
  intros Hi. destruct (i <? length (SourceActions.actions s)) eqn:E;
    [discriminate|].
  apply Nat.ltb_ge in E. apply IH. lia.
Qed.

Lemma reaching_shrinks (actions : list SourceActions) i j :
  i <= j -> length (reaching actions j) <= length (reaching actions i).
Proof.
  intros Hij. unfold InputModel.reaching.
  induction actions as [|s actions IH]; simpl; [lia|].
  destruct (j <? length (SourceActions.actions s)) eqn:Ej.
  - apply Nat.ltb_lt in Ej.
    replace (i <? length (SourceActions.actions s)) with true
      by (symmetry; apply Nat.ltb_lt; lia).
    simpl. lia.
  - destruct (i <? length (SourceActions.actions s)); simpl; lia.
Qed.

Lemma tickOf_length (actions : list SourceActions) i :
  length (tickOf Action actions i) = length (reaching actions i).
Proof.
  rewrite <- (length_fmap ActionOption.id), tickOf_reaching.
  apply length_fmap.
Qed.

(** X11. No tick of [#getActionsByTick] is empty, and a later tick never
    holds more actions than an earlier one. *)
Theorem getActionsByTick_ticks_shrink (actions : list SourceActions)
    inputState ticks inputState' :
  getActionsByTick Action getOrCreate actions inputState
  = Ok (ticks, inputState') ->
  (forall i tick, ticks !! i = Some tick -> tick <> []) /\
  (forall i j earlier later,
     i <= j -> ticks !! i = Some earlier -> ticks !! j = Some later ->
     length later <= length earlier).
Proof.
  intros H. apply getActionsByTick_Ok in H as ->.
  assert (Hat : forall i tick,
            ticksOf Action actions !! i = Some tick ->
            i < longest Action actions /\ tick = tickOf Action actions i).
  { intros i tick Hi. pose proof (lookup_lt_Some _ _ _ Hi) as Hlt.
    rewrite ticksOf_length in Hlt. split; [exact Hlt|].
    rewrite ticksOf_lookup in Hi by exact Hlt. congruence. }
  split.
  - intros i tick Hi. apply Hat in Hi as [Hlt ->].
    apply reaching_longest in Hlt. intros Hnil. apply Hlt.
    apply length_zero_iff_nil. rewrite <- tickOf_length, Hnil. reflexivity.
  - intros i j earlier later Hij Hi Hj.
    apply Hat in Hi as [_ ->]. apply Hat in Hj as [_ ->].
    rewrite !tickOf_length. now apply reaching_shrinks.
Qed.

Lemma registerAll_app (before rest : list SourceActions) inputState :
  registerAll Action getOrCreate (before ++ rest) inputState =
  registerAll Action getOrCreate before inputState
  ≫= registerAll Action getOrCreate rest.
Proof.
  revert inputState. induction before as [|s before IH]; intros inputState;
    simpl; [reflexivity|].
  destruct (registerSource Action getOrCreate s inputState); simpl; auto.
Qed.

(** X12. A pointer source is asked for with the pointer type of its
    parameters, 'mouse' when it has none; when the input state has the
    source with another subtype, [#getActionsByTick] throws
    [InvalidArgumentException] with the message that names both, whatever
    comes after it in the request, and no ticks are returned. *)
Theorem getActionsByTick_pointer_mismatch (before rest : list SourceActions)
    (action : SourceActions) inputState inputState1 source inputState2 :
  SourceActions.type action = Pointer ->
  registerAll Action getOrCreate before inputState = Ok inputState1 ->
  let pointerType :=
    match SourceActions.parameters action with
    | Some (Some pointerType) => pointerType
    | _ => Mouse
    end in
  getOrCreate inputState1 (SourceActions.id action) Pointer
    (Some pointerType) = Ok (source, inputState2) ->
  subtype source <> Some pointerType ->
  getActionsByTick Action getOrCreate (before ++ action :: rest) inputState =
  Throw (InvalidArgumentException
           ("Expected input source " +:+ SourceActions.id action
            +:+ " to be "
            +:+ match subtype source with
                | Some t => PointerType_text t
                | None => "undefined"
                end
            +:+ "; got " +:+ PointerType_text pointerType +:+ ".")).
Proof.
  intros Htype Hbefore pointerType Hsource Hsubtype.
  rewrite getActionsByTick_registerAll, registerAll_app, Hbefore. simpl.
  unfold registerSource. rewrite Htype. fold pointerType.
  rewrite Hsource. simpl.
  now rewrite bool_decide_eq_false_2 by exact Hsubtype.
Qed.

(** *** [process_input_releaseActions] *)

Variable top : BrowsingContextStorage -> BrowsingContextImpl -> string.
Variable dispatchTickActions :
  InputState -> BrowsingContextImpl -> list ActionOption ->
  outcome unit * InputState.



(** X13. [input.releaseActions] on a context the storage does not have
    throws what [getContext] throws and dispatches nothing. And when the
    dispatch of the undo actions is rejected, the command is rejected with
    the same error and the input state is not deleted: it stays, as the
    dispatcher left it, with the top-level context. *)
Theorem releaseActions_failures context (w : World Action) :
  let after :=
    process_input_releaseActions Action top dispatchTickActions context w in
  (forall e,
     getContext (browsingContextStorage w) context = Throw e ->
     after = (Throw e, w)) /\
  (forall c inputState e inputState',
     getContext (browsingContextStorage w) context = Ok c ->
     let topContext := top (browsingContextStorage w) c in
     inputStateManager w !! topContext = Some inputState ->
     dispatchTickActions
       {| sources := sources inputState;
          cancelList := rev (cancelList inputState) |}
       c (rev (cancelList inputState)) = (Throw e, inputState') ->
     after.1 = Throw e /\
     inputStateManager after.2 =
     <[topContext := inputState']> (inputStateManager w) /\
     dispatched after.2 = rev (cancelList inputState) :: dispatched w).
Proof.
  intros after. subst after. unfold process_input_releaseActions. split.
  - now intros e ->.
  - intros c inputState e inputState' Hc. rewrite Hc. cbv zeta.
    intros Hs Hd. unfold InputStateManager_get. rewrite Hs. simpl.
    rewrite Hd. simpl. auto.
Qed.

(** X23. After [input.releaseActions] has gone through, a second one on
    the same context finds no undo actions: it dispatches the empty tick,
    and leaves no input state either. *)
Theorem releaseActions_twice context c (w : World Action) :
  getContext (browsingContextStorage w) context = Ok c ->
  let topContext := top (browsingContextStorage w) c in
  let release :=
    process_input_releaseActions Action top dispatchTickActions context in
  (release w).1 = Ok tt ->
  (dispatchTickActions {| sources := ∅; cancelList := [] |} c []).1 = Ok tt ->
  (release (release w).2).1 = Ok tt /\
  dispatched (release (release w).2).2 = [] :: dispatched (release w).2 /\
  inputStateManager (release (release w).2).2 !! topContext = None.
Proof.
  intros Hc topContext release H1 H2.
  assert (Hfirst :
    browsingContextStorage (release w).2 = browsingContextStorage w /\
    inputStateManager (release w).2 !! topContext = None).
  { clear H2. subst release topContext. revert H1.
    unfold process_input_releaseActions, InputStateManager_get.
    rewrite Hc.
    destruct (inputStateManager w !! top (browsingContextStorage w) c)
      as [inputState|]; simpl;
      destruct (dispatchTickActions _ _ _) as [[[]|e] st]; simpl;
      try discriminate; intros _; (split; [reflexivity|]);
      apply lookup_delete_eq. }
  destruct Hfirst as [Hs Hm].
  subst release. set (w1 := (process_input_releaseActions _ _ _ _ w).2) in *.
  clearbody w1. unfold process_input_releaseActions, InputStateManager_get.
  rewrite Hs, Hc. fold topContext. rewrite Hm. simpl.
  destruct (dispatchTickActions _ c []) as [[[]|e] st]; simpl in *;
    [|discriminate].
  split; [reflexivity|]. split; [reflexivity|]. apply lookup_delete_eq.
Qed.

End Input.

(** *** Examples *)

Lemma getActionsByTick_ticks_witness :
  exists inputState,
    getActionsByTick string getOrCreate_fromSpec sampleSources
      freshInputState =
    Ok ([[ActionOption.Build_t "mouse" "pointerMove";
          ActionOption.Build_t "keyboard" "keyDown a"];
         [ActionOption.Build_t "mouse" "pointerDown";
          ActionOption.Build_t "keyboard" "keyUp a"];
         [ActionOption.Build_t "mouse" "pointerUp"]],
        inputState).
Proof.
  destruct (getActionsByTick_ticks string getOrCreate_fromSpec sampleSources
              freshInputState) as [-> _].
  eexists. vm_compute. reflexivity.
Defined.

(** The undo of key [a] recorded first and that of key [b] second: the
    release dispatches that of [b] first. *)
Example releaseActions_sample :
  cancelList (recordAll string [keyUp_a; keyUp_b] freshInputState) =
    [keyUp_a; keyUp_b] /\
  process_input_releaseActions string sampleTop sampleDispatch "context-1"
    (sampleWorld (recordAll string [keyUp_a; keyUp_b] freshInputState)) =
  (Ok tt,
   {| browsingContextStorage := {["context-1" := sampleContext]};
      inputStateManager := delete "context-1"
                             {["context-1" :=
                                 recordAll string [keyUp_a; keyUp_b]
                                   freshInputState]};
      dispatched := [[keyUp_b; keyUp_a]] |}).
Proof. split; reflexivity. Qed.


Example sampleSources_ticks :
  exists ticks inputState,
    getActionsByTick string getOrCreate_fromSpec sampleSources
      freshInputState = Ok (ticks, inputState).
Proof.
  eexists _, _. rewrite getActionsByTick_registerAll. vm_compute. reflexivity.
Qed.

Lemma getActionsByTick_keeps_actions_witness :
  exists ticks inputState,
    getActionsByTick string getOrCreate_fromSpec sampleSources
      freshInputState = Ok (ticks, inputState) /\
    length (concat ticks) = 5.
Proof.
  destruct sampleSources_ticks as (ticks & inputState & H).
  exists ticks, inputState. split; [exact H|].
  rewrite (proj2 (getActionsByTick_keeps_actions _ _ _ _ _ _ H)).
  reflexivity.
Defined.

Lemma getActionsByTick_ticks_shrink_witness :
  exists ticks inputState,
    getActionsByTick string getOrCreate_fromSpec sampleSources
      freshInputState = Ok (ticks, inputState) /\
    forall i tick, ticks !! i = Some tick -> tick <> [].
Proof.
  destruct sampleSources_ticks as (ticks & inputState & H).
  exists ticks, inputState. split; [exact H|].
  exact (proj1 (getActionsByTick_ticks_shrink _ _ _ _ _ _ H)).
Defined.

(** The mouse of the request is known to the input state as a pen. *)
Lemma getActionsByTick_pointer_mismatch_witness :
  getActionsByTick string getOrCreate_fromSpec sampleSources
    {| sources := {["mouse" := {| sourceType := Pointer;
                                  subtype := Some Pen |}]};
       cancelList := [] |} =
  Throw (InvalidArgumentException
           "Expected input source mouse to be pen; got mouse.").
Proof.
  apply (getActionsByTick_pointer_mismatch string getOrCreate_fromSpec []
           [{| SourceActions.type := Key; SourceActions.id := "keyboard";
               SourceActions.parameters := None;
               SourceActions.actions := ["keyDown a"; "keyUp a"] |}]
           {| SourceActions.type := Pointer; SourceActions.id := "mouse";
              SourceActions.parameters := None;
              SourceActions.actions :=
                ["pointerMove"; "pointerDown"; "pointerUp"] |}
           {| sources := {["mouse" := {| sourceType := Pointer;
                                         subtype := Some Pen |}]};
              cancelList := [] |}
           {| sources := {["mouse" := {| sourceType := Pointer;
                                         subtype := Some Pen |}]};
              cancelList := [] |}
           {| sourceType := Pointer; subtype := Some Pen |}
           {| sources := {["mouse" := {| sourceType := Pointer;
                                         subtype := Some Pen |}]};
              cancelList := [] |});
    [reflexivity | reflexivity | reflexivity | discriminate].
Defined.

Lemma releaseActions_failures_witness :
  (process_input_releaseActions string sampleTop
     (fun inputState _ _ => (Throw (Disconnected "closed"), inputState))
     "context-1"
     (sampleWorld (recordAll string [keyUp_a; keyUp_b] freshInputState))).1 =
  Throw (Disconnected "closed").
Proof.
  apply (proj2 (releaseActions_failures string sampleTop
                  (fun inputState _ _ =>
                     (Throw (Disconnected "closed"), inputState))
                  "context-1"
                  (sampleWorld
                     (recordAll string [keyUp_a; keyUp_b] freshInputState)))
           sampleContext
           (recordAll string [keyUp_a; keyUp_b] freshInputState)
           (Disconnected "closed") _ eq_refl eq_refl eq_refl).
Defined.

Lemma releaseActions_twice_witness :
  let release :=
    process_input_releaseActions string sampleTop sampleDispatch "context-1"
  in
  dispatched
    (release
       (release
          (sampleWorld (recordAll string [keyUp_a; keyUp_b] freshInputState))
       ).2).2 =
  [[]; [keyUp_b; keyUp_a]].
Proof.
  intros release. subst release. cbv beta.
  rewrite (proj1 (proj2
             (releaseActions_twice string sampleTop sampleDispatch
                "context-1" sampleContext
                (sampleWorld
                   (recordAll string [keyUp_a; keyUp_b] freshInputState))
                eq_refl eq_refl eq_refl))).
  reflexivity.
Defined.

End InputFacts.

(** ** Properties of the processor *)

Module ProcessorFacts.
Import JS Cdp Context ProcessorModel.

Ltac fields :=
  cbn [browsingContextStorage listeners cdpTargets sent emitted logged
       with_storage sendCommand log setEventListeners CdpTarget_create
       BrowsingContextImpl_create updateCdpTarget fst snd] in *.

(** *** Deleting a context *)

Lemma descendsFrom_self fuel storage id : descendsFrom fuel storage id id = true.
Proof. destruct fuel; simpl; now rewrite String.eqb_refl. Qed.

Lemma deleteContext_self id (storage : BrowsingContextStorage) :
  deleteContext id storage !! id = None.
Proof.
  unfold deleteContext. apply map_lookup_filter_None. right.
  intros c _. simpl. rewrite descendsFrom_self. discriminate.
Qed.

Lemma deleteContext_Some id (storage : BrowsingContextStorage) k c :
  deleteContext id storage !! k = Some c -> storage !! k = Some c.
Proof.
  unfold deleteContext. intros H. now apply map_lookup_filter_Some in H.
Qed.

Lemma deleteContext_None id (storage : BrowsingContextStorage) k :
  storage !! k = None -> deleteContext id storage !! k = None.
Proof.
  unfold deleteContext. intros H. apply map_lookup_filter_None. now left.
Qed.

Lemma findAndDelete_self id p :
  browsingContextStorage (findAndDelete id p) !! id = None.
Proof.
  unfold findAndDelete, findContext.
  destruct (browsingContextStorage p !! id) eqn:E; simpl; auto.
  apply deleteContext_self.
Qed.

Lemma findAndDelete_Some id p k c :
  browsingContextStorage (findAndDelete id p) !! k = Some c ->
  browsingContextStorage p !! k = Some c.
Proof.
  unfold findAndDelete, findContext.
  destruct (browsingContextStorage p !! id); simpl; auto.
  apply deleteContext_Some.
Qed.

Lemma findAndDelete_rest id p :
  listeners (findAndDelete id p) = listeners p /\
  cdpTargets (findAndDelete id p) = cdpTargets p /\
  sent (findAndDelete id p) = sent p /\
  emitted (findAndDelete id p) = emitted p.
Proof.
  unfold findAndDelete.
  destruct (findContext _ _); simpl; auto.
Qed.

(** *** What an answer to [getTree] lists *)

Lemma directChildren_stored (storage : BrowsingContextStorage) c x :
  In x (directChildren storage c) -> exists k, storage !! k = Some x.
Proof.
  unfold directChildren. intros H. apply filter_In in H as [H _].
  apply list_elem_of_In, list_elem_of_fmap in H as ([k y] & -> & H).
  apply elem_of_map_to_list in H. eauto.
Qed.

Lemma serializeToBidiValue_listed (storage : BrowsingContextStorage)
    maxDepth c x :
  In x (listed (serializeToBidiValue storage maxDepth c)) ->
  x = id c \/ exists k c', storage !! k = Some c' /\ id c' = x.
Proof.
  revert c. induction maxDepth as [|maxDepth IH]; intros c; simpl.
  - intros [<-|[]]. auto.
  - intros [<-|H]; auto. right.
    apply in_concat in H as (ids & Hids & Hx).
    apply in_map_iff in Hids as (info & <- & Hinfo).
    apply in_map_iff in Hinfo as (child & <- & Hchild).
    apply directChildren_stored in Hchild as [k Hk].
    apply IH in Hx as [->|H]; eauto.
Qed.

(** Every context an answer lists is one the storage holds. *)
Lemma getTree_listed params p infos x :
  process_browsingContext_getTree params p = Ok infos ->
  In x (listedAll infos) ->
  exists k c, browsingContextStorage p !! k = Some c /\ id c = x.
Proof.
  unfold process_browsingContext_getTree, listedAll.
  assert (forall contexts,
            (forall c, In c contexts ->
               exists k, browsingContextStorage p !! k = Some c) ->
            In x (concat (List.map listed
                            (List.map
                               (serializeToBidiValue (browsingContextStorage p)
                                  (default (size (browsingContextStorage p))
                                     (maxDepth params)))
                               contexts))) ->
            exists k c, browsingContextStorage p !! k = Some c /\ id c = x)
    as Hall.
  { intros contexts Hstored H.
    apply in_concat in H as (ids & Hids & Hx).
    apply in_map_iff in Hids as (info & <- & Hinfo).
    apply in_map_iff in Hinfo as (c & <- & Hc).
    apply Hstored in Hc as [k Hk].
    apply serializeToBidiValue_listed in Hx as [->|H]; eauto. }
  destruct (root params) as [root|]; simpl.
  - unfold getContext, findContext.
    destruct (browsingContextStorage p !! root) as [c|] eqn:Hc; simpl;
      [|discriminate].
    intros [= <-]. apply (Hall [c]). intros c' [<-|[]]. eauto.
  - intros [= <-].
    apply (Hall (getTopLevelContexts (browsingContextStorage p))).
    intros c Hc.
    unfold getTopLevelContexts in Hc. apply filter_In in Hc as [Hc _].
    apply list_elem_of_In, list_elem_of_fmap in Hc as ([k y] & -> & Hc).
    apply elem_of_map_to_list in Hc. eauto.
Qed.

Section Processor.

Variable selfTargetId : string.

Local Abbreviation isValidTarget := (isValidTarget selfTargetId).
Local Abbreviation handleAttachedToTargetEvent :=
  (handleAttachedToTargetEvent selfTargetId).
Local Abbreviation listener := (listener selfTargetId).
Local Abbreviation deliver := (deliver selfTargetId).
Local Abbreviation run := (run selfTargetId).
Local Abbreviation Clean := (Clean selfTargetId).

(** *** The target filter *)

Lemma isValidTarget_self target :
  targetId target = selfTargetId -> isValidTarget target = false.
Proof.
  intros <-. unfold ProcessorModel.isValidTarget.
  now rewrite String.eqb_refl.
Qed.

Lemma isValidTarget_true target :
  isValidTarget target = true ->
  targetId target <> selfTargetId /\
  (type target = "page" \/ type target = "iframe").
Proof.
  unfold ProcessorModel.isValidTarget.
  destruct (String.eqb_spec (targetId target) selfTargetId); [discriminate|].
  intros H. split; auto.
  apply orb_true_iff in H. destruct H as [H|H]; apply String.eqb_eq in H; auto.
Qed.

(** C7. An attach event for the target id of a context the storage has
    leaves the set of context ids as it is; when the target passes the
    filter, being a page or an iframe and not the mapper's own tab, as the
    target of a migrated frame is, a [CdpTarget] is made for the new
    session and the context stored under the id is the old one with this
    target as its [cdpTarget], no context being announced. And whatever
    the event, the ids change only when the storage had no context for the
    target id, and then by that id alone. *)
Theorem attachedToTarget_existing_context params parentSessionCdpClient p :
  let id := targetId (targetInfo params) in
  let p' := handleAttachedToTargetEvent params parentSessionCdpClient p in
  (forall context,
     findContext (browsingContextStorage p) id = Some context ->
     dom (browsingContextStorage p') = dom (browsingContextStorage p) /\
     (isValidTarget (targetInfo params) = true ->
      let cdpTarget :=
        {| Context.targetId := id;
           parentTargetId := parentId context;
           targetCdpClient := Some (sessionId params);
           cdpSessionId := sessionId params |} in
      cdpTargets p' = cdpTarget :: cdpTargets p /\
      browsingContextStorage p' =
      <[id := {| Context.id := Context.id context;
                 Context.parentId := parentId context;
                 Context.cdpTarget := cdpTarget;
                 navigableId := navigableId context |}]>
        (browsingContextStorage p) /\
      emitted p' = emitted p)) /\
  (dom (browsingContextStorage p') <> dom (browsingContextStorage p) ->
   findContext (browsingContextStorage p) id = None /\
   dom (browsingContextStorage p') = {[id]} ∪ dom (browsingContextStorage p)).
Proof.
  intros id p'. subst p'.
  unfold ProcessorModel.handleAttachedToTargetEvent. fold id.
  destruct (isValidTarget (targetInfo params)) eqn:Hvalid; simpl.
  - unfold findContext.
    destruct (browsingContextStorage p !! id) as [context|] eqn:Hc; simpl.
    + assert (dom (<[id := {| Context.id := Context.id context;
                              Context.parentId := parentId context;
                              Context.cdpTarget :=
                                {| Context.targetId := id;
                                   parentTargetId := parentId context;
                                   targetCdpClient := Some (sessionId params);
                                   cdpSessionId := sessionId params |};
                              navigableId := navigableId context |}]>
                     (browsingContextStorage p))
              = dom (browsingContextStorage p)) as Hdom.
      { rewrite dom_insert_L. apply subseteq_union_1_L.
        apply singleton_subseteq_l. eapply elem_of_dom_2. exact Hc. }
      split.
      * intros ? [= <-]. split; [exact Hdom|]. intros _. auto.
      * intros H. contradiction.
    + split; [discriminate|]. intros _. split; [reflexivity|].
      apply dom_insert_L.
  - split.
    + intros context Hc. split; [reflexivity|discriminate].
    + intros H. contradiction.
Qed.

(** *** What the storage and the answers never hold *)

Lemma Clean_initial : Clean initial.
Proof. split; simpl; try tauto; intros *; now rewrite ?lookup_empty. Qed.

Lemma Clean_findAndDelete id p : Clean p -> Clean (findAndDelete id p).
Proof.
  intros [H1 H2 H3 H4].
  destruct (findAndDelete_rest id p) as (_ & Ht & _ & He).
  split.
  - intros k c H. apply findAndDelete_Some in H. eauto.
  - destruct (browsingContextStorage (findAndDelete id p) !! selfTargetId)
      eqn:E; auto.
    apply findAndDelete_Some in E. congruence.
  - rewrite Ht. exact H3.
  - rewrite He. exact H4.
Qed.

Lemma Clean_create cdpTarget id parent p :
  id <> selfTargetId -> Clean p ->
  Clean (BrowsingContextImpl_create cdpTarget id parent p).
Proof.
  intros Hne [H1 H2 H3 H4]. split; fields.
  - intros k c. rewrite lookup_insert.
    destruct (decide (id = k)) as [->|]; [intros [= <-]; reflexivity|].
    apply H1.
  - now rewrite lookup_insert_ne.
  - exact H3.
  - intros e [<-|He]; simpl; auto.
Qed.

Lemma Clean_listener cdpClient event p :
  attachesSelfAsFrame selfTargetId event = false ->
  Clean p -> Clean (listener cdpClient event p).
Proof.
  intros Hev Hp. destruct event as [params|targetId|frameId parent|frameId reason];
    simpl.
  - unfold ProcessorModel.handleAttachedToTargetEvent.
    destruct (isValidTarget (targetInfo params)) eqn:Hvalid;
      cbn [negb].
    + apply isValidTarget_true in Hvalid. destruct Hvalid as [Hne _].
      destruct Hp as [H1 H2 H3 H4]. unfold findContext. fields.
      destruct (browsingContextStorage p !! targetId (targetInfo params))
        as [context|] eqn:Hc; cbn [mbind option_bind]; fields.
      * split; fields.
        -- intros k c. rewrite lookup_insert.
           destruct (decide (_ = k)) as [<-|]; [|apply H1].
           intros [= <-]. simpl. eauto.
        -- now rewrite lookup_insert_ne.
        -- intros t [<-|Ht]; simpl; auto.
        -- exact H4.
      * split; fields.
        -- intros k c. rewrite lookup_insert.
           destruct (decide (_ = k)) as [<-|]; [|apply H1].
           intros [= <-]. reflexivity.
        -- now rewrite lookup_insert_ne.
        -- intros t [<-|Ht]; simpl; auto.
        -- intros e [<-|He]; simpl; auto.
    + destruct Hp as [H1 H2 H3 H4]. split; fields; auto.
  - destruct targetId; simpl; auto. now apply Clean_findAndDelete.
  - unfold handleFrameAttachedEvent.
    destruct (findContext _ parent); auto.
    apply Clean_create; auto.
    simpl in Hev. destruct (String.eqb_spec frameId selfTargetId); congruence.
  - unfold handleFrameDetachedEvent.
    destruct (String.eqb reason "swap"); auto. now apply Clean_findAndDelete.
Qed.

Lemma Clean_deliver on event p :
  attachesSelfAsFrame selfTargetId event = false ->
  Clean p -> Clean (deliver on event p).
Proof.
  intros Hev. unfold ProcessorModel.deliver.
  generalize (listeners p). intros l. revert p.
  induction l as [|cdpClient l IH]; intros p Hp; simpl; auto.
  apply IH. destruct (bool_decide (cdpClient = on)); auto.
  now apply Clean_listener.
Qed.

Lemma Clean_run events p :
  Forall (fun e => attachesSelfAsFrame selfTargetId e.2 = false) events ->
  Clean p -> Clean (run events p).
Proof.
  unfold ProcessorModel.run. intros H. revert p.
  induction H as [|[on event] events He _ IH]; intros p Hp; simpl; auto.
  apply IH. now apply Clean_deliver.
Qed.

(** C9. An attach event for the mapper's own tab makes no [CdpTarget] and
    no context and announces nothing: all it does is send
    [Runtime.runIfWaitingForDebugger] to the target, and when that has
    resolved [Target.detachFromTarget] to the parent session. Hence after
    any events, none of them a [Page.frameAttached] for a frame with the
    tab's own id, which CDP does not send, the storage holds no context of
    that id, no target of that id was made and no event announced it; and
    no answer of [browsingContext.getTree] lists it. *)
Theorem selfTarget_ignored :
  (forall params parentSessionCdpClient p,
     targetId (targetInfo params) = selfTargetId ->
     let p' := handleAttachedToTargetEvent params parentSessionCdpClient p in
     p' = sendCommand (Some (sessionId params))
            Runtime_runIfWaitingForDebugger p /\
     browsingContextStorage p' = browsingContextStorage p /\
     cdpTargets p' = cdpTargets p /\
     emitted p' = emitted p /\
     listeners p' = listeners p /\
     releasedIgnoredTarget params parentSessionCdpClient Resolved p' =
     sendCommand parentSessionCdpClient
       (Target_detachFromTarget (sessionId params) selfTargetId) p') /\
  (forall events,
     Forall (fun e => attachesSelfAsFrame selfTargetId e.2 = false) events ->
     let p := run events initial in
     browsingContextStorage p !! selfTargetId = None /\
     (forall t, In t (cdpTargets p) -> Context.targetId t <> selfTargetId) /\
     (forall e, In e (emitted p) -> e.2 <> selfTargetId) /\
     forall params infos,
       process_browsingContext_getTree params p = Ok infos ->
       ~ In selfTargetId (listedAll infos)).
Proof.
  split.
  - intros params parent p Hself p'. subst p'.
    unfold ProcessorModel.handleAttachedToTargetEvent.
    rewrite isValidTarget_self by exact Hself. cbn [negb].
    repeat split. unfold releasedIgnoredTarget. now rewrite Hself.
  - intros events Hev p.
    destruct (Clean_run events initial Hev Clean_initial)
      as [H1 H2 H3 H4].
    fold p in H1, H2, H3, H4. repeat split; auto.
    intros params infos Htree Hin.
    destruct (getTree_listed _ _ _ _ Htree Hin) as (k & c & Hc & Hid).
    rewrite <- (H1 _ _ Hc), Hid in Hc. congruence.
Qed.

(** *** What every state of the processor has *)

Lemma Keyed_listener cdpClient event p :
  Keyed p -> Keyed (listener cdpClient event p).
Proof.
  unfold ProcessorModel.Keyed. intros H1.
  destruct event as [params|targetId|frameId parent|frameId reason]; simpl.
  - unfold ProcessorModel.handleAttachedToTargetEvent.
    destruct (isValidTarget (targetInfo params)); cbn [negb]; auto.
    unfold findContext. fields.
    destruct (browsingContextStorage p !! targetId (targetInfo params))
      as [context|] eqn:Hc; cbn [mbind option_bind]; fields;
      intros k c; rewrite lookup_insert;
      (destruct (decide (_ = k)) as [<-|]; [|apply H1]);
      intros [= <-]; simpl; eauto.
  - destruct targetId; simpl; auto.
    intros k c H. apply findAndDelete_Some in H. eauto.
  - unfold handleFrameAttachedEvent.
    destruct (findContext _ parent); auto. fields.
    intros k c. rewrite lookup_insert.
    destruct (decide (_ = k)) as [<-|]; [|apply H1].
    intros [= <-]. reflexivity.
  - unfold handleFrameDetachedEvent.
    destruct (String.eqb reason "swap"); auto.
    intros k c H. apply findAndDelete_Some in H. eauto.
Qed.

Lemma listeners_listener cdpClient event p on :
  In on (listeners p) -> In on (listeners (listener cdpClient event p)).
Proof.
  destruct event as [params|targetId|frameId parent|frameId reason]; simpl.
  - unfold ProcessorModel.handleAttachedToTargetEvent.
    destruct (isValidTarget (targetInfo params)); cbn [negb]; auto.
    unfold findContext. fields.
    destruct (browsingContextStorage p !! targetId (targetInfo params));
      cbn [mbind option_bind]; fields; intros H;
      apply in_or_app; auto.
  - destruct targetId; simpl; auto.
    now rewrite (proj1 (findAndDelete_rest _ _)).
  - unfold handleFrameAttachedEvent. destruct (findContext _ parent); auto.
  - unfold handleFrameDetachedEvent.
    destruct (String.eqb reason "swap"); auto.
    now rewrite (proj1 (findAndDelete_rest _ _)).
Qed.

(** What holds of the processor before an event and is kept by every
    listener holds after the event. *)
Lemma deliver_keeps (P : Processor -> Prop) on event :
  (forall cdpClient p, P p -> P (listener cdpClient event p)) ->
  forall p, P p -> P (deliver on event p).
Proof.
  intros Hkeep p. unfold ProcessorModel.deliver.
  generalize (listeners p). intros l. revert p.
  induction l as [|cdpClient l IH]; intros p Hp; simpl; auto.
  apply IH. destruct (bool_decide (cdpClient = on)); auto.
Qed.

Lemma run_keeps (P : Processor -> Prop) :
  (forall cdpClient event p, P p -> P (listener cdpClient event p)) ->
  forall events p, P p -> P (run events p).
Proof.
  intros Hkeep events. unfold ProcessorModel.run.
  induction events as [|[on event] events IH]; intros p Hp; simpl; auto.
  apply IH. apply deliver_keeps; auto.
Qed.

(** A detach event on a client the processor listens to removes the
    context. *)
Lemma deliver_detached on context p :
  In on (listeners p) ->
  browsingContextStorage
    (deliver on (Target_detachedFromTarget (Some context)) p) !! context
  = None.
Proof.
  unfold ProcessorModel.deliver.
  generalize (listeners p) at 1 2. intros l. revert p.
  induction l as [|cdpClient l IH]; intros p; simpl; [tauto|].
  intros [->|Hin].
  - rewrite bool_decide_eq_true_2 by reflexivity. simpl.
    generalize (findAndDelete_self context p).
    generalize (findAndDelete context p). clear. revert l.
    induction l as [|c l IH]; intros q Hq; simpl; auto.
    apply IH. destruct (bool_decide (c = on)); auto. simpl.
    destruct (browsingContextStorage (findAndDelete context q) !! context)
      eqn:E; auto.
    apply findAndDelete_Some in E. congruence.
  - apply IH. exact Hin.
Qed.

(** *** Closing a context *)

(** *** Targets the mapper does not support *)

(** X14. A target that is neither a page nor an iframe is let run and
    detached from, and nothing more: the attach event sends
    [Runtime.runIfWaitingForDebugger] to the target; when that resolves,
    [Target.detachFromTarget] goes to the parent session, and when it is
    rejected no detach is sent. A rejection of either command is logged
    and not thrown. No context is stored, no [CdpTarget] made, no listener
    installed and no event announced, however the commands settle. *)
Theorem unsupported_target_released params parentSessionCdpClient p :
  type (targetInfo params) <> "page" ->
  type (targetInfo params) <> "iframe" ->
  let released :=
    {| client := Some (sessionId params);
       command := Runtime_runIfWaitingForDebugger |} in
  let detached :=
    {| client := parentSessionCdpClient;
       command := Target_detachFromTarget (sessionId params)
                    (targetId (targetInfo params)) |} in
  let p1 := handleAttachedToTargetEvent params parentSessionCdpClient p in
  p1 = sendCommand (Some (sessionId params)) Runtime_runIfWaitingForDebugger p
  /\
  forall reply1 reply2,
    let p2 := releasedIgnoredTarget params parentSessionCdpClient reply1 p1 in
    let p3 :=
      match reply1 with
      | Resolved => detachedIgnoredTarget reply2 p2
      | Rejected _ => p2
      end in
    browsingContextStorage p3 = browsingContextStorage p /\
    listeners p3 = listeners p /\
    cdpTargets p3 = cdpTargets p /\
    emitted p3 = emitted p /\
    sent p3 =
    match reply1 with
    | Resolved => [detached; released]
    | Rejected _ => [released]
    end ++ sent p /\
    logged p3 =
    match reply1, reply2 with
    | Rejected error, _ => [error]
    | Resolved, Rejected error => [error]
    | Resolved, Resolved => []
    end ++ logged p.
Proof.
  intros Hpage Hiframe released detached p1.
  assert (Hp1 : p1 = sendCommand (Some (sessionId params))
                       Runtime_runIfWaitingForDebugger p).
  { subst p1. unfold ProcessorModel.handleAttachedToTargetEvent,
      ProcessorModel.isValidTarget.
    destruct (String.eqb (targetId (targetInfo params)) selfTargetId);
      [reflexivity|].
    destruct (String.eqb_spec (type (targetInfo params)) "page");
      [contradiction|].
    destruct (String.eqb_spec (type (targetInfo params)) "iframe");
      [contradiction|].
    reflexivity. }
  split; [exact Hp1|]. rewrite Hp1.
  intros [|e1] [|e2]; simpl; auto 10.
Qed.

(** *** [cdp.getSession] and the target of a context *)


(** *** Frames that come and go *)

(** X16. A frame attached under a parent the storage does not have is
    ignored, and so is a frame detached for a swap, the processor being
    left as it was. A frame detached for any other reason is stored no
    more; no context appears by it, no listener is installed, no target is
    made and no command is sent. *)
Theorem frame_events frameId p :
  (forall parentFrameId,
     findContext (browsingContextStorage p) parentFrameId = None ->
     handleFrameAttachedEvent frameId parentFrameId p = p) /\
  handleFrameDetachedEvent frameId "swap" p = p /\
  (forall reason,
     reason <> "swap" ->
     let p' := handleFrameDetachedEvent frameId reason p in
     browsingContextStorage p' !! frameId = None /\
     (forall k c,
        browsingContextStorage p' !! k = Some c ->
        browsingContextStorage p !! k = Some c) /\
     listeners p' = listeners p /\
     cdpTargets p' = cdpTargets p /\
     sent p' = sent p).
Proof.
  split; [|split].
  - intros parentFrameId H. unfold handleFrameAttachedEvent. now rewrite H.
  - reflexivity.
  - intros reason Hr p'. subst p'. unfold handleFrameDetachedEvent.
    destruct (String.eqb_spec reason "swap"); [contradiction|].
    split; [apply findAndDelete_self|].
    split; [intros k c; apply findAndDelete_Some|].
    destruct (findAndDelete_rest frameId p) as (Hl & Ht & Hs & _). auto.
Qed.

(** *** [browsingContext.create] *)

(** X17. [browsingContext.create] sends [Target.createTarget] for
    'about:blank', in a new window exactly when a window is asked for,
    whatever the reference context; it sends it unless a reference context
    is named that the storage does not have, when it throws what
    [getContext] throws, or that is not top-level, when it throws
    [InvalidArgumentException]. *)
Theorem create_validates params p :
  let sends :=
    Ok {| url := "about:blank";
          newWindow := match createType params with
                       | Window => true
                       | Tab => false
                       end |} in
  match referenceContext params with
  | None => process_browsingContext_create params p = sends
  | Some referenceContext =>
      match getContext (browsingContextStorage p) referenceContext with
      | Throw e => process_browsingContext_create params p = Throw e
      | Ok c =>
          process_browsingContext_create params p =
          if isTopLevelContext c then sends
          else Throw (InvalidArgumentException
                        "referenceContext should be a top-level context")
      end
  end.
Proof.
  unfold process_browsingContext_create.
  destruct (referenceContext params) as [r|]; simpl.
  - destruct (getContext (browsingContextStorage p) r) as [c|e]; simpl;
      [|reflexivity].
    destruct (isTopLevelContext c); simpl; [|reflexivity].
    destruct (createType params); reflexivity.
  - destruct (createType params); reflexivity.
Qed.

(** X18. When [Target.createTarget] has resolved with a target id,
    [browsingContext.create] returns that id as the context, provided
    the attach event of the target has been handled by then and the
    context gets loaded; if the storage has no context of that id when the
    reply arrives, it throws what [getContext] throws. A rejection of the
    command, or of the wait for the load, is thrown on. *)
Theorem create_returns_target params parentSessionCdpClient p :
  Keyed p ->
  isValidTarget (targetInfo params) = true ->
  let contextId := targetId (targetInfo params) in
  let p' := handleAttachedToTargetEvent params parentSessionCdpClient p in
  createTargetSettled (Ok contextId) (Ok tt) p' = Ok contextId /\
  (forall e, createTargetSettled (Ok contextId) (Throw e) p' = Throw e) /\
  (forall e loaded q, createTargetSettled (Throw e) loaded q = Throw e) /\
  (forall e loaded,
     getContext (browsingContextStorage p) contextId = Throw e ->
     createTargetSettled (Ok contextId) loaded p = Throw e).
Proof.
  intros Hk Hv contextId p'.
  assert (Hc : exists c,
            getContext (browsingContextStorage p') contextId = Ok c /\
            id c = contextId).
  { subst p' contextId.
    unfold getContext, findContext,
      ProcessorModel.handleAttachedToTargetEvent.
    rewrite Hv. cbn [negb]. unfold findContext. fields.
    destruct (browsingContextStorage p !! targetId (targetInfo params))
      as [context|] eqn:Hc; cbn [mbind option_bind]; fields;
      rewrite lookup_insert_eq; eexists; split; try reflexivity.
    simpl. now apply Hk. }
  destruct Hc as (c & Hc & Hid).
  unfold createTargetSettled. simpl. rewrite Hc. simpl.
  split; [now rewrite Hid|]. split; [reflexivity|]. split; [reflexivity|].
  intros e loaded H. now rewrite H.
Qed.

(** *** The roots of [browsingContext.getTree] *)

Lemma serializeToBidiValue_root (storage : BrowsingContextStorage)
    maxDepth c :
  infoContext (serializeToBidiValue storage maxDepth c) = id c /\
  infoParent (serializeToBidiValue storage maxDepth c) = parentId c.
Proof. destruct maxDepth; split; reflexivity. Qed.

Lemma getTopLevelContexts_NoDup (l : list (string * BrowsingContextImpl)) :
  (forall k c, In (k, c) l -> id c = k) ->
  NoDup l.*1 ->
  NoDup (List.map id (List.filter isTopLevelContext l.*2)).
Proof.
  induction l as [|[k c] l IH]; intros Hk Hnd; simpl; [constructor|].
  rewrite fmap_cons in Hnd. apply NoDup_cons in Hnd as [Hnew Hnd].
  assert (Hrest : NoDup (List.map id (List.filter isTopLevelContext l.*2))).
  { apply IH; auto. intros k' c' Hin. apply Hk. now right. }
  destruct (isTopLevelContext c); [|exact Hrest].
  simpl. constructor; [|exact Hrest].
  intros Hin. apply list_elem_of_In, in_map_iff in Hin as (c' & Hid & Hin).
  apply filter_In in Hin as [Hin _].
  apply list_elem_of_In, list_elem_of_fmap_1 in Hin as ([k' c''] & -> & Hin).
  apply list_elem_of_In in Hin. simpl in Hid.
  apply Hnew. simpl. rewrite <- (Hk k c) by now left.
  rewrite <- Hid, (Hk k' c'') by now right.
  apply (list_elem_of_fmap_2 fst _ (k', c'')). now apply list_elem_of_In.
Qed.

(** X19. [browsingContext.getTree] without a root does not throw, and
    its answer has one entry for each top-level context the storage holds,
    each once, and no other; with a root it throws what [getContext]
    throws when the storage does not have the root, and else answers with
    the one entry of the root, whatever its parent. *)
Theorem getTree_roots p maxDepth :
  Keyed p ->
  (exists infos,
     process_browsingContext_getTree
       {| root := None; maxDepth := maxDepth |} p = Ok infos /\
     NoDup (List.map infoContext infos) /\
     Forall (fun info => infoParent info = None) infos /\
     forall k,
       In k (List.map infoContext infos) <->
       exists c, browsingContextStorage p !! k = Some c /\ parentId c = None)
  /\
  (forall root,
     match getContext (browsingContextStorage p) root with
     | Ok c =>
         exists info,
           process_browsingContext_getTree
             {| root := Some root; maxDepth := maxDepth |} p = Ok [info] /\
           infoContext info = root /\
           infoParent info = parentId c
     | Throw e =>
         process_browsingContext_getTree
           {| root := Some root; maxDepth := maxDepth |} p = Throw e
     end).
Proof.
  intros Hk. unfold process_browsingContext_getTree. simpl.
  set (depth := default (size (browsingContextStorage p)) maxDepth).
  split.
  - eexists. split; [reflexivity|].
    assert (Hids :
      List.map infoContext
        (List.map (serializeToBidiValue (browsingContextStorage p) depth)
           (getTopLevelContexts (browsingContextStorage p))) =
      List.map id (getTopLevelContexts (browsingContextStorage p))).
    { rewrite List.map_map. apply List.map_ext. intros c.
      apply serializeToBidiValue_root. }
    rewrite Hids. unfold getTopLevelContexts.
    assert (Hlist : forall k c,
              In (k, c) (map_to_list (browsingContextStorage p)) <->
              browsingContextStorage p !! k = Some c).
    { intros k c. rewrite <- list_elem_of_In. apply elem_of_map_to_list. }
    split; [|split].
    + apply getTopLevelContexts_NoDup.
      * intros k c Hin. apply Hk. now apply Hlist.
      * apply NoDup_fst_map_to_list.
    + apply List.Forall_forall. intros info Hin.
      apply in_map_iff in Hin as (c & <- & Hin).
      apply filter_In in Hin as [_ Htop].
      rewrite (proj2 (serializeToBidiValue_root _ _ _)).
      unfold isTopLevelContext in Htop.
      now destruct (parentId c).
    + intros k. split.
      * intros Hin. apply in_map_iff in Hin as (c & <- & Hin).
        apply filter_In in Hin as [Hin Htop].
        apply list_elem_of_In, list_elem_of_fmap_1 in Hin
          as ([k' c'] & -> & Hin).
        apply list_elem_of_In, Hlist in Hin. simpl in *.
        exists c'. rewrite (Hk _ _ Hin). split; [exact Hin|].
        unfold isTopLevelContext in Htop. now destruct (parentId c').
      * intros (c & Hc & Hp). apply in_map_iff. exists c.
        split; [now apply Hk|]. apply filter_In. split.
        -- apply list_elem_of_In.
           apply (list_elem_of_fmap_2 snd _ (k, c)).
           now apply list_elem_of_In, Hlist.
        -- unfold isTopLevelContext. now rewrite Hp.
  - intros root. unfold getContext, findContext.
    destruct (browsingContextStorage p !! root) as [c|] eqn:Hc; simpl;
      [|reflexivity].
    eexists. split; [reflexivity|].
    destruct (serializeToBidiValue_root (browsingContextStorage p) depth c)
      as [-> ->].
    split; [now apply Hk | reflexivity].
Qed.

(** *** The clients the processor listens on *)

Lemma listeners_targets_listener cdpClient event p :
  listeners p = None :: rev (targetCdpClient <$> cdpTargets p) ->
  listeners (listener cdpClient event p) =
  None :: rev (targetCdpClient <$> cdpTargets (listener cdpClient event p)).
Proof.
  intros H.
  destruct event as [params|targetId|frameId parent|frameId reason]; simpl.
  - unfold ProcessorModel.handleAttachedToTargetEvent.
    destruct (isValidTarget (targetInfo params)); cbn [negb]; auto.
    unfold findContext. fields.
    destruct (browsingContextStorage p !! targetId (targetInfo params))
      as [context|]; cbn [mbind option_bind]; fields;
      rewrite H, fmap_cons; simpl; reflexivity.
  - destruct targetId as [contextId|]; simpl; auto.
    destruct (findAndDelete_rest contextId p) as (-> & -> & _). exact H.
  - unfold handleFrameAttachedEvent.
    destruct (findContext _ parent); auto.
  - unfold handleFrameDetachedEvent.
    destruct (String.eqb reason "swap"); auto.
    destruct (findAndDelete_rest frameId p) as (-> & -> & _). exact H.
Qed.

Lemma deliver_unheard on event l p :
  ~ In on l ->
  foldl (fun p cdpClient =>
           if bool_decide (cdpClient = on) then listener cdpClient event p
           else p) p l = p.
Proof.
  revert p. induction l as [|cdpClient l IH]; intros p Hl; simpl; auto.
  rewrite bool_decide_eq_false_2 by (intros ->; apply Hl; now left).
  apply IH. intros Hin. apply Hl. now right.
Qed.

(** X21. Whatever events have arrived, the processor listens on the
    browser client and, in the order they were made, on the client of
    every [CdpTarget] it has made, and on nothing else; and an event on a
    client it does not listen on, such as the session of a target it has
    ignored, leaves it as it is. *)
Theorem listeners_are_targets events :
  let p := run events initial in
  listeners p = None :: rev (targetCdpClient <$> cdpTargets p) /\
  forall on event, ~ In on (listeners p) -> deliver on event p = p.
Proof.
  intros p. split.
  - subst p. apply (run_keeps (fun p =>
      listeners p = None :: rev (targetCdpClient <$> cdpTargets p))).
    + intros cdpClient event q. apply listeners_targets_listener.
    + reflexivity.
  - intros on event Hon. now apply deliver_unheard.
Qed.

(** *** A context that comes and goes *)

Lemma descendsFrom_apart fuel (storage : BrowsingContextStorage) id c k :
  storage !! id = None ->
  (forall k c q,
     storage !! k = Some c -> parentId c = Some q -> is_Some (storage !! q)) ->
  is_Some (storage !! k) ->
  descendsFrom fuel (<[id := c]> storage) id k = false.
Proof.
  intros Hnew Hclosed. revert k.
  induction fuel as [|fuel IH]; intros k [ck Hk]; simpl;
    (destruct (String.eqb_spec k id) as [->|Hne]; [congruence|]);
    [reflexivity|].
  simpl. rewrite lookup_insert_ne by auto. rewrite Hk. simpl.
  destruct (parentId ck) as [q|] eqn:Hq; [|reflexivity].
  apply IH. eapply Hclosed; eauto.
Qed.

Lemma create_delete cdpTarget id parent p :
  browsingContextStorage p !! id = None ->
  (forall k c q,
     browsingContextStorage p !! k = Some c -> parentId c = Some q ->
     is_Some (browsingContextStorage p !! q)) ->
  browsingContextStorage
    (findAndDelete id (BrowsingContextImpl_create cdpTarget id parent p))
  = browsingContextStorage p.
Proof.
  intros Hnew Hclosed. unfold findAndDelete, findContext. fields.
  rewrite lookup_insert_eq. fields. unfold deleteContext.
  apply map_eq. intros k.
  destruct (decide (k = id)) as [->|Hne].
  - rewrite Hnew. apply map_lookup_filter_None. right.
    intros c _. simpl. now rewrite descendsFrom_self.
  - destruct (browsingContextStorage p !! k) as [c|] eqn:Hk.
    + apply map_lookup_filter_Some. rewrite lookup_insert_ne by auto.
      split; [exact Hk|]. simpl. apply descendsFrom_apart; eauto.
    + apply map_lookup_filter_None. left.
      now rewrite lookup_insert_ne by auto.
Qed.

(** X22. A context that is made and then deleted leaves the storage as
    it was, when the storage had no context of its id and held a parent
    for every context that names one: so for a page or an iframe that is
    attached to and then detached from, and for a frame that is attached
    under a context the storage has and then detached for another reason
    than a swap. *)
Theorem attach_detach_round_trip p :
  (forall k c q,
     browsingContextStorage p !! k = Some c -> parentId c = Some q ->
     is_Some (browsingContextStorage p !! q)) ->
  (forall params parentSessionCdpClient,
     isValidTarget (targetInfo params) = true ->
     browsingContextStorage p !! targetId (targetInfo params) = None ->
     browsingContextStorage
       (handleDetachedFromTargetEvent (Some (targetId (targetInfo params)))
          (handleAttachedToTargetEvent params parentSessionCdpClient p))
     = browsingContextStorage p) /\
  (forall frameId parentFrameId reason,
     is_Some (findContext (browsingContextStorage p) parentFrameId) ->
     browsingContextStorage p !! frameId = None ->
     reason <> "swap" ->
     browsingContextStorage
       (handleFrameDetachedEvent frameId reason
          (handleFrameAttachedEvent frameId parentFrameId p))
     = browsingContextStorage p).
Proof.
  intros Hclosed. split.
  - intros params parent Hv Hnew.
    unfold ProcessorModel.handleAttachedToTargetEvent,
      handleDetachedFromTargetEvent.
    rewrite Hv. cbn [negb]. unfold findContext. fields. rewrite Hnew.
    cbn [mbind option_bind].
    match goal with
    | |- browsingContextStorage
           (findAndDelete _ (BrowsingContextImpl_create ?t _ _ ?q)) = _ =>
        rewrite (create_delete t _ None q)
    end; auto.
  - intros frameId parentFrameId reason [parentContext Hp] Hnew Hr.
    unfold handleFrameAttachedEvent, handleFrameDetachedEvent.
    rewrite Hp. destruct (String.eqb_spec reason "swap"); [contradiction|].
    now apply create_delete.
Qed.

Section Closing.

Variable context : string.

Local Abbreviation arrive := (arrive selfTargetId context).
Local Abbreviation arrivals := (arrivals selfTargetId context).
Local Abbreviation isDetachedFromTarget := (isDetachedFromTarget context).
Local Abbreviation attachesAgain := (attachesAgain context).
Local Abbreviation Seen := (Seen context).

Lemma arrivals_snoc l a s : arrivals (l ++ [a]) s = arrive a (arrivals l s).
Proof. unfold ProcessorModel.arrivals. now rewrite foldl_app. Qed.

(** An event that does not attach the id again leaves it absent. *)
Lemma listener_absent cdpClient on event p :
  attachesAgain (Event on event) = false ->
  browsingContextStorage p !! context = None ->
  browsingContextStorage (listener cdpClient event p) !! context = None.
Proof.
  intros Ha Hp.
  assert (forall id q,
            browsingContextStorage q !! context = None ->
            browsingContextStorage (findAndDelete id q) !! context = None)
    as Hdel.
  { intros id q Hq.
    destruct (browsingContextStorage (findAndDelete id q) !! context) eqn:E;
      auto.
    apply findAndDelete_Some in E. congruence. }
  destruct event as [params|targetId|frameId parent|frameId reason]; simpl.
  - simpl in Ha.
    destruct (String.eqb_spec (targetId (targetInfo params)) context) as [|Hne];
      [discriminate|].
    unfold ProcessorModel.handleAttachedToTargetEvent.
    destruct (isValidTarget (targetInfo params)); cbn [negb]; auto.
    unfold findContext. fields.
    destruct (browsingContextStorage p !! targetId (targetInfo params));
      cbn [mbind option_bind]; fields; now rewrite lookup_insert_ne.
  - destruct targetId; simpl; auto.
  - simpl in Ha.
    destruct (String.eqb_spec frameId context) as [|Hne]; [discriminate|].
    unfold handleFrameAttachedEvent.
    destruct (findContext _ parent); auto. fields.
    now rewrite lookup_insert_ne.
  - unfold handleFrameDetachedEvent.
    destruct (String.eqb reason "swap"); auto.
Qed.

Lemma existsb_snoc {A} (f : A -> bool) l a :
  existsb f l = true -> existsb f (l ++ [a]) = true.
Proof. intros H. now rewrite existsb_app, H. Qed.

Lemma existsb_last {A} (f : A -> bool) l a :
  f a = true -> existsb f (l ++ [a]) = true.
Proof. intros H. rewrite existsb_app. simpl. rewrite H. apply orb_true_r. Qed.

Lemma Seen_snoc l a c : Seen l c -> Seen (l ++ [a]) c.
Proof.
  destruct c as [d| | |]; simpl; auto using existsb_snoc.
  intros [? ?]. auto using existsb_snoc.
Qed.

Lemma Seen_arrive l a c : Seen l c -> Seen (l ++ [a]) (arrive a (c, initial)).1.
Proof.
  intros H. pose proof (Seen_snoc l a c H) as Hmono.
  destruct a as [on event|reply]; simpl.
  - destruct on as [session|]; [exact Hmono|].
    destruct event as [|targetId| |]; try exact Hmono. simpl.
    destruct (bool_decide_reflect (targetId = Some context)) as [->|Hne];
      [|exact Hmono].
    assert (existsb isDetachedFromTarget
              (l ++ [Event None (Target_detachedFromTarget (Some context))])
            = true) as Hd.
    { apply existsb_last. simpl. apply String.eqb_refl. }
    destruct c as [d| | |]; simpl in *; auto using existsb_snoc.
  - assert (reply = Resolved ->
            existsb isCloseTargetReply (l ++ [CloseTargetReply reply]) = true)
      as Hr.
    { intros ->. now apply existsb_last. }
    destruct c as [d| | |]; destruct reply as [|err]; simpl in *; auto.
    destruct d; simpl; auto using existsb_snoc.
Qed.

Lemma arrive_close a c p : (arrive a (c, p)).1 = (arrive a (c, initial)).1.
Proof. destruct a; reflexivity. Qed.

(** The state of the pair after the arrivals [l], from a processor that
    listens on the browser client. *)
Lemma arrivals_invariant l c p :
  In None (listeners p) -> Keyed p -> Seen [] c ->
  let after := arrivals l (c, p) in
  In None (listeners after.2) /\ Keyed after.2 /\ Seen l after.1 /\
  (forallb (fun a => negb (attachesAgain a)) l = true ->
   existsb isDetachedFromTarget l = true ->
   browsingContextStorage after.2 !! context = None).
Proof.
  intros Hl Hk Hs.
  induction l as [|a l IH] using rev_ind; simpl.
  { repeat split; auto. discriminate. }
  rewrite arrivals_snoc.
  destruct (arrivals l (c, p)) as [c' p'] eqn:E. simpl in IH.
  destruct IH as (Hl' & Hk' & Hs' & Ha').
  assert (In None (listeners (arrive a (c', p')).2)) as Hl''.
  { destruct a as [on event|reply]; simpl; auto.
    apply deliver_keeps; auto. intros; now apply listeners_listener. }
  assert (Keyed (arrive a (c', p')).2) as Hk''.
  { destruct a as [on event|reply]; simpl; auto.
    apply deliver_keeps; auto. intros; now apply Keyed_listener. }
  split; [exact Hl''|]. split; [exact Hk''|]. split.
  { rewrite arrive_close. now apply Seen_arrive. }
  rewrite forallb_app, existsb_app. simpl. rewrite andb_true_r, orb_false_r.
  intros Hno Hd. apply andb_true_iff in Hno as [Hno Hnoa].
  apply negb_true_iff in Hnoa.
  destruct (isDetachedFromTarget a) eqn:Hda.
  - destruct a as [[session|] [|[targetId|]| |]|reply]; try discriminate.
    simpl in Hda. apply String.eqb_eq in Hda. subst targetId. simpl.
    now apply deliver_detached.
  - rewrite orb_false_r in Hd. specialize (Ha' Hno Hd).
    destruct a as [on event|reply]; simpl; auto.
    apply deliver_keeps; auto.
    intros cdpClient q Hq. eapply listener_absent; eauto.
Qed.

Lemma Keyed_initial : Keyed initial.
Proof. intros k c. simpl. now rewrite lookup_empty. Qed.

(** C8. [browsingContext.close] of a top-level context the storage has
    sends [Target.closeTarget] and waits. If it has returned after the
    arrivals [l], then [l] has the resolved reply to [Target.closeTarget]
    and a [Target.detachedFromTarget] of the context on the browser client;
    the two in either order make it return, and neither alone does. And if
    nothing in [l] attached a target or a frame of that id again, the
    storage no longer has the context when the command has returned, and no
    answer of [browsingContext.getTree] lists it. *)
Theorem close_resolves_after_both history c :
  let p := run history initial in
  let detached :=
    Event None (Target_detachedFromTarget (Some context)) in
  let replied := CloseTargetReply Resolved in
  getContext (browsingContextStorage p) context = Ok c ->
  isTopLevelContext c = true ->
  let start := process_browsingContext_close context p in
  start =
    (AwaitingCloseTarget false,
     sendCommand None (Target_closeTarget context) p) /\
  (forall l,
     (arrivals l start).1 = Returned ->
     existsb isCloseTargetReply l = true /\
     existsb isDetachedFromTarget l = true /\
     (forallb (fun a => negb (attachesAgain a)) l = true ->
      browsingContextStorage (arrivals l start).2 !! context = None /\
      forall params infos,
        process_browsingContext_getTree params (arrivals l start).2
        = Ok infos ->
        ~ In context (listedAll infos))) /\
  (arrivals [replied; detached] start).1 = Returned /\
  (arrivals [detached; replied] start).1 = Returned /\
  (arrivals [replied] start).1 = AwaitingDetachedFromTarget /\
  (arrivals [detached] start).1 = AwaitingCloseTarget true.
Proof.
  intros p detached replied Hc Htop start.
  assert (Hstart : start =
            (AwaitingCloseTarget false,
             sendCommand None (Target_closeTarget context) p)).
  { subst start. unfold process_browsingContext_close.
    now rewrite Hc, Htop. }
  split; [exact Hstart|]. rewrite Hstart.
  assert (In None (listeners (sendCommand None (Target_closeTarget context) p)))
    as Hl.
  { fields. subst p.
    apply (run_keeps (fun p => In None (listeners p))).
    - intros. now apply listeners_listener.
    - simpl. auto. }
  assert (Keyed (sendCommand None (Target_closeTarget context) p)) as Hk.
  { unfold ProcessorModel.Keyed. fields. subst p. apply (run_keeps Keyed).
    - intros. now apply Keyed_listener.
    - apply Keyed_initial. }
  split.
  - intros l Hret.
    destruct (arrivals_invariant l (AwaitingCloseTarget false) _ Hl Hk)
      as (_ & Hk' & Hs & Ha); [discriminate|].
    rewrite Hret in Hs. destruct Hs as [Hr Hd].
    split; [exact Hr|]. split; [exact Hd|].
    intros Hno. specialize (Ha Hno Hd). split; [exact Ha|].
    intros params infos Htree Hin.
    destruct (getTree_listed _ _ _ _ Htree Hin) as (k & c' & Hc' & Hid).
    rewrite <- (Hk' _ _ Hc'), Hid in Hc'. congruence.
  - subst detached replied. unfold ProcessorModel.arrivals. simpl.
    rewrite !bool_decide_eq_true_2 by reflexivity. auto.
Qed.

(** *** [browsingContext.close] that fails *)

Lemma arrivals_cons a l s : arrivals (a :: l) s = arrivals l (arrive a s).
Proof. reflexivity. Qed.

Lemma arrivals_app l1 l2 s : arrivals (l1 ++ l2) s = arrivals l2 (arrivals l1 s).
Proof. unfold ProcessorModel.arrivals. apply foldl_app. Qed.

Lemma arrivals_Thrown l e p : (arrivals l (Thrown e, p)).1 = Thrown e.
Proof.
  revert p. induction l as [|a l IH]; intros p; [reflexivity|].
  rewrite arrivals_cons.
  destruct a as [[session|] [| | |]|[|e']]; simpl;
    try apply IH.
  destruct (bool_decide _); apply IH.
Qed.

Lemma arrivals_unanswered l detached p :
  Forall (fun a => match a with
                   | CloseTargetReply _ => False
                   | Event _ _ => True
                   end) l ->
  exists detached',
    (arrivals l (AwaitingCloseTarget detached, p)).1
    = AwaitingCloseTarget detached'.
Proof.
  intros H. revert detached p.
  induction H as [|a l Ha _ IH]; intros detached p; [simpl; eauto|].
  rewrite arrivals_cons.
  destruct a as [[session|] [| | |]|reply]; try contradiction; simpl;
    try apply IH.
  destruct (bool_decide _); apply IH.
Qed.

(** X20. [browsingContext.close] of a context the storage does not have
    throws what [getContext] throws, and of a context that is not
    top-level [InvalidArgumentException]; neither sends a command or
    installs a listener. And when [Target.closeTarget] is rejected the
    command throws that error, whether the detach event came before the
    reply or not, and whatever arrives later. *)
Theorem close_failures p :
  (forall e,
     getContext (browsingContextStorage p) context = Throw e ->
     process_browsingContext_close context p = (Thrown e, p)) /\
  (forall c,
     getContext (browsingContextStorage p) context = Ok c ->
     isTopLevelContext c = false ->
     process_browsingContext_close context p =
     (Thrown (InvalidArgumentException
                "A top-level browsing context cannot be closed."), p)) /\
  (forall before e after,
     Forall (fun a => match a with
                      | CloseTargetReply _ => False
                      | Event _ _ => True
                      end) before ->
     (arrivals (before ++ CloseTargetReply (Rejected e) :: after)
        (AwaitingCloseTarget false,
         sendCommand None (Target_closeTarget context) p)).1 = Thrown e).
Proof.
  split; [|split].
  - intros e H. unfold process_browsingContext_close. now rewrite H.
  - intros c H Htop. unfold process_browsingContext_close.
    now rewrite H, Htop.
  - intros before e after Hb.
    rewrite arrivals_app, arrivals_cons.
    destruct (arrivals_unanswered before false
                (sendCommand None (Target_closeTarget context) p) Hb)
      as [detached Hd].
    destruct (arrivals before _) as [c q]. simpl in Hd. subst c.
    simpl. apply arrivals_Thrown.
Qed.

End Closing.

End Processor.

(** *** Examples *)

Example sample_run :
  browsingContextStorage
    (run "mapper" [attachedMapper; attachedPage; attachedFrame] initial) =
  <["frame-1" := frameContext]> {["context-1" := pageContext]}.
Proof. reflexivity. Qed.

Lemma attachedToTarget_existing_context_witness :
  let p := run "mapper" [attachedMapper; attachedPage; attachedFrame] initial in
  let p' :=
    handleAttachedToTargetEvent "mapper" migratedFrame (Some "session-1") p in
  dom (browsingContextStorage p') = dom (browsingContextStorage p) /\
  browsingContextStorage p' !! "frame-1" =
  Some {| id := "frame-1"; parentId := Some "context-1";
          cdpTarget :=
            {| Context.targetId := "frame-1";
               parentTargetId := Some "context-1";
               targetCdpClient := Some "session-2";
               cdpSessionId := "session-2" |};
          navigableId := None |}.
Proof.
  intros p p'.
  destruct (attachedToTarget_existing_context "mapper" migratedFrame
              (Some "session-1") p) as [H _].
  destruct (H frameContext eq_refl) as [Hdom Hvalid].
  split; [exact Hdom|].
  destruct (Hvalid eq_refl) as (_ & Hs & _).
  fold p' in Hs. rewrite Hs. apply lookup_insert_eq.
Defined.

Lemma selfTarget_ignored_witness :
  let p := run "mapper" [attachedMapper; attachedPage; attachedFrame] initial in
  browsingContextStorage p !! "mapper" = None /\
  forall t, In t (cdpTargets p) -> Context.targetId t <> "mapper".
Proof.
  intros p.
  assert (H : Forall (fun e => attachesSelfAsFrame "mapper" e.2 = false)
                [attachedMapper; attachedPage; attachedFrame])
    by (repeat constructor).
  pose proof (proj2 (selfTarget_ignored "mapper") _ H) as Hp.
  cbv zeta in Hp. destruct Hp as (Hs & Ht & _).
  split; assumption.
Defined.

Lemma close_resolves_after_both_witness :
  (arrivals "mapper" "context-1"
     [Event None (Target_detachedFromTarget (Some "context-1"));
      CloseTargetReply Resolved]
     (process_browsingContext_close "context-1"
        (run "mapper" [attachedMapper; attachedPage] initial))).1 = Returned.
Proof.
  refine (proj1 (proj2 (proj2 (proj2
    (close_resolves_after_both "mapper" "context-1"
       [attachedMapper; attachedPage] pageContext _ _))))); reflexivity.
Defined.

(** The page closed: the detach event removes the page and the frame under
    it, and the tree is empty once the command has returned. *)
Example close_sample :
  let after :=
    arrivals "mapper" "context-1"
      [Event None (Target_detachedFromTarget (Some "context-1"));
       CloseTargetReply Resolved]
      (process_browsingContext_close "context-1"
         (run "mapper" [attachedMapper; attachedPage; attachedFrame] initial))
  in
  after.1 = Returned /\
  process_browsingContext_getTree {| root := None; maxDepth := None |} after.2
  = Ok [].
Proof. vm_compute. split; reflexivity. Qed.

Lemma sample_Keyed :
  Keyed (run "mapper" [attachedMapper; attachedPage; attachedFrame] initial).
Proof.
  apply run_keeps; [intros; now apply Keyed_listener | apply Keyed_initial].
Qed.

(** A service worker. *)
Lemma unsupported_target_released_witness :
  handleAttachedToTargetEvent "mapper"
    {| sessionId := "session-3";
       targetInfo := {| targetId := "worker-1"; type := "service_worker" |} |}
    None initial =
  sendCommand (Some "session-3") Runtime_runIfWaitingForDebugger initial.
Proof.
  apply (unsupported_target_released "mapper"
           {| sessionId := "session-3";
              targetInfo := {| targetId := "worker-1";
                               type := "service_worker" |} |}
           None initial); discriminate.
Defined.


Lemma frame_events_witness :
  browsingContextStorage
    (handleFrameDetachedEvent "frame-1" "remove"
       (run "mapper" [attachedMapper; attachedPage; attachedFrame] initial))
    !! "frame-1" = None.
Proof.
  apply (proj2 (proj2 (frame_events "frame-1" _)) "remove"). discriminate.
Defined.

Lemma create_returns_target_witness :
  createTargetSettled (Ok "context-1") (Ok tt)
    (handleAttachedToTargetEvent "mapper"
       {| sessionId := "session-1";
          targetInfo := {| targetId := "context-1"; type := "page" |} |}
       None initial) = Ok "context-1".
Proof.
  apply (create_returns_target "mapper"
           {| sessionId := "session-1";
              targetInfo := {| targetId := "context-1"; type := "page" |} |}
           None initial Keyed_initial eq_refl).
Defined.

Lemma getTree_roots_witness :
  exists infos,
    process_browsingContext_getTree {| root := None; maxDepth := None |}
      (run "mapper" [attachedMapper; attachedPage; attachedFrame] initial)
    = Ok infos /\
    NoDup (List.map infoContext infos).
Proof.
  destruct (proj1 (getTree_roots _ None sample_Keyed))
    as (infos & H & Hnd & _).
  exists infos. split; [exact H | exact Hnd].
Defined.

(** The frame of the page is not top-level. *)
Lemma close_failures_witness :
  let p := run "mapper" [attachedMapper; attachedPage; attachedFrame] initial in
  process_browsingContext_close "frame-1" p =
  (Thrown (InvalidArgumentException
             "A top-level browsing context cannot be closed."), p).
Proof.
  intros p.
  apply (proj1 (proj2 (close_failures "mapper" "frame-1" p)) frameContext);
    reflexivity.
Defined.

(** An event on the session of the mapper's own tab, which was ignored. *)
Lemma listeners_are_targets_witness :
  let p := run "mapper" [attachedMapper; attachedPage; attachedFrame] initial in
  deliver "mapper" (Some "session-0")
    (Page_frameAttached "frame-2" "context-1") p = p.
Proof.
  intros p.
  apply (proj2 (listeners_are_targets "mapper"
                  [attachedMapper; attachedPage; attachedFrame])).
  intros [H|[H|[]]]; discriminate H.
Defined.

Lemma attach_detach_round_trip_witness :
  browsingContextStorage
    (handleDetachedFromTargetEvent (Some "context-1")
       (handleAttachedToTargetEvent "mapper"
          {| sessionId := "session-1";
             targetInfo := {| targetId := "context-1"; type := "page" |} |}
          None initial)) = ∅.
Proof.
  assert (Hclosed :
    forall k c q,
      browsingContextStorage initial !! k = Some c -> parentId c = Some q ->
      is_Some (browsingContextStorage initial !! q)).
  { intros k c q H. simpl in H. now rewrite lookup_empty in H. }
  apply (proj1 (attach_detach_round_trip "mapper" initial Hclosed)
           {| sessionId := "session-1";
              targetInfo := {| targetId := "context-1"; type := "page" |} |}
           None eq_refl).
  apply lookup_empty.
Defined.

End ProcessorFacts.
